(** * Digital-Image-Processing: a shallow embedding of the toolbox's
      decision logic, and the properties of its specification.

    Conventions of the embedding.
    - A Python [str] is a [string] of bytes; [str.split], [str.join],
      [str.isdigit], [str.lower] and [int] are written out for ASCII text.
    - A Python [int] is a [Z]; a Python [float] is the rational it denotes
      ([Q]). Where a result depends on it, an operation on floats rounds to
      the nearest double ([Double.nearest]); infinities and NaN are not
      modelled.
    - A function that can raise returns a [result]; the exception classes
      are the constructors of [exn].
    - Calls into OpenCV, NumPy, SciPy, PyWavelets, PyTorch and Detectron2 are
      not part of the repository: what they return is an input of the
      embedded function, or a [Variable] of its section. *)

From Stdlib Require Import ZArith QArith Qround Qminmax Qabs Qpower.
From Stdlib Require Import String Ascii List Lia.
From Stdlib Require Import Sorted Lqa.
From Stdlib Require Strings.Byte Qcanon.
From stdpp Require Import gmap strings list sorting.

Open Scope string_scope.
Open Scope list_scope.

(** ** Python primitives shared by the modules *)

Module Py.

Inductive exn : Type :=
  | AssertionError
  | ValueError
  | IndexError
  | NameError
  | ZeroDivisionError
  | RuntimeError
  | KeyError
  | SystemExit
  | Cv2Error.

Inductive result (A : Type) : Type :=
  | Ok (a : A)
  | Raise (e : exn).
Arguments Ok {A} a.
Arguments Raise {A} e.

#[global] Instance result_ret : MRet result := fun A a => Ok a.

#[global] Instance result_bind : MBind result := fun A B k r =>
  match r with
  | Ok a => k a
  | Raise e => Raise e
  end.

(** [assert cond] *)
Definition assert (cond : bool) : result unit :=
  if cond then Ok tt else Raise AssertionError.

(** [s.split(sep)] for a one-character separator: the pieces between the
    occurrences of [sep]; never empty ([''.split(',')] is [['']]). *)
Fixpoint split_go (sep : ascii) (s : string) : string * list string :=
  match s with
  | EmptyString => (EmptyString, [])
  | String c s' =>
      let '(h, t) := split_go sep s' in
      if Ascii.eqb c sep then (EmptyString, h :: t) else (String c h, t)
  end.

Definition split (sep : ascii) (s : string) : list string :=
  let '(h, t) := split_go sep s in h :: t.

(** [sep.join(l)] *)
Fixpoint join (sep : string) (l : list string) : string :=
  match l with
  | [] => ""
  | [x] => x
  | x :: l' => x +:+ sep +:+ join sep l'
  end.

(** [c in s] for a character [c] *)
Fixpoint contains (c : ascii) (s : string) : bool :=
  match s with
  | EmptyString => false
  | String c' s' => Ascii.eqb c' c || contains c s'
  end.

(** [s.endswith(c)] for a character [c] *)
Fixpoint endswith (s : string) (c : ascii) : bool :=
  match s with
  | EmptyString => false
  | String c' EmptyString => Ascii.eqb c' c
  | String _ s' => endswith s' c
  end.

(** [s.startswith(c)] for a character [c] *)
Definition startswith (s : string) (c : ascii) : bool :=
  match s with
  | EmptyString => false
  | String c' _ => Ascii.eqb c' c
  end.

Definition is_digit (c : ascii) : bool :=
  let n := nat_of_ascii c in (48 <=? n)%nat && (n <=? 57)%nat.

Fixpoint all_digits (s : string) : bool :=
  match s with
  | EmptyString => true
  | String c s' => is_digit c && all_digits s'
  end.

(** [s.isdigit()]: at least one character, and every character a digit. *)
Definition isdigit (s : string) : bool :=
  match s with
  | EmptyString => false
  | _ => all_digits s
  end.

Definition digit_val (c : ascii) : Z := Z.of_nat (nat_of_ascii c) - 48.

Fixpoint digits_acc (acc : Z) (s : string) : Z :=
  match s with
  | EmptyString => acc
  | String c s' => digits_acc (10 * acc + digit_val c) s'
  end.

(** The number a string of decimal digits denotes. *)
Definition digits_value (s : string) : Z := digits_acc 0 s.

Definition is_space (c : ascii) : bool :=
  let n := nat_of_ascii c in
  (n =? 32)%nat || ((9 <=? n)%nat && (n <=? 13)%nat).

Fixpoint lstrip (s : string) : string :=
  match s with
  | EmptyString => EmptyString
  | String c s' => if is_space c then lstrip s' else s
  end.

Fixpoint rstrip (s : string) : string :=
  match s with
  | EmptyString => EmptyString
  | String c s' =>
      match rstrip s' with
      | EmptyString => if is_space c then EmptyString else String c EmptyString
      | r => String c r
      end
  end.

(** [int(s)] on text: surrounding white space, an optional sign, then
    decimal digits, where single underscores may separate groups of digits;
    anything else is a [ValueError]. *)
Definition int_unsigned (body : string) : result Z :=
  let groups := split "_" body in
  if forallb isdigit groups
  then Ok (digits_value (join "" groups))
  else Raise ValueError.

Definition int (s : string) : result Z :=
  match rstrip (lstrip s) with
  | String "-" body => n ← int_unsigned body; Ok (- n)%Z
  | String "+" body => int_unsigned body
  | body => int_unsigned body
  end.

(** [list(range(a, b))] *)
Definition range (a b : Z) : list Z :=
  map (fun i => (a + Z.of_nat i)%Z) (seq 0 (Z.to_nat (b - a))).

(** [l[i]] with Python's negative indices. *)
Definition index {A : Type} (l : list A) (i : Z) : result A :=
  let n := Z.of_nat (length l) in
  let j := if (i <? 0)%Z then (i + n)%Z else i in
  if (j <? 0)%Z then Raise IndexError
  else match l !! Z.to_nat j with
       | Some x => Ok x
       | None => Raise IndexError
       end.

End Py.

Export Py.

(** ** Python floats

    A float is an IEEE 754 binary64 number. It is modelled by the rational
    it denotes, and an arithmetic operation by the exact operation followed
    by rounding to the nearest double: a result between two doubles goes to
    the nearer one, and to the one with the even significand when it is
    half way. Results too large for a double (from [2^1024] on) and
    undefined results are not modelled. *)

Module Double.

(** The integer nearest to [x], a tie going to the even one; this is
    also [round(x)] with one argument. *)
Definition round_half_even (x : Q) : Z :=
  let f := Qfloor x in
  match Qcompare (x - inject_Z f) (1 # 2) with
  | Lt => f
  | Gt => (f + 1)%Z
  | Eq => if Z.even f then f else (f + 1)%Z
  end.

Definition pow2 (e : Z) : Q := Qpower 2 e.

(** For [x > 0], the exponent [e] with [2^e <= x < 2^(e+1)]. *)
Definition ilog2 (x : Q) : Z :=
  let e0 := (Z.log2 (Qnum x) - Z.log2 (Zpos (Qden x)))%Z in
  if Qle_bool (pow2 e0) x then e0 else (e0 - 1)%Z.

(** The distance between neighbouring doubles around [x]: 52 binary places
    below its leading bit, and [2^-1074] below the normal range. *)
Definition quantum (x : Q) : Q :=
  pow2 (Z.max (ilog2 (Qabs x)) (-1022) - 52).

(** The double nearest to [x], a tie going to the even significand. *)
Definition nearest (x : Q) : Q :=
  if Qeq_bool x 0 then 0
  else Qred (inject_Z (round_half_even (x / quantum x)) * quantum x).

(** [x + y], [x - y], [x * y] and [x / y] (for [y] other than 0) on
    floats. *)
Definition add (x y : Q) : Q := nearest (x + y).
Definition sub (x y : Q) : Q := nearest (x - y).
Definition mul (x y : Q) : Q := nearest (x * y).
Definition div (x y : Q) : Q := nearest (x / y).

(** [float(n)], also the conversion of an [int] operand next to a float
    one. *)
Definition of_int (n : Z) : Q := nearest (inject_Z n).

(** [a / b] on two [int]s (for [b] other than 0): the quotient, rounded
    once. *)
Definition true_div (a b : Z) : Q := nearest (inject_Z a / inject_Z b).

End Double.

(** ** CCNet/utils/pyt_utils.py *)

Module PytUtils.

(** An array or tensor: its shape and its elements in row-major order. *)
Record ndarray (A : Type) : Type := mk_ndarray {
  shape : list nat;
  items : list A
}.
Arguments mk_ndarray {A} shape items.
Arguments shape {A} _.
Arguments items {A} _.

Abbreviation tensor := (ndarray Q).

(** *** [load_model]: the key remapping *)

(** [is_restore]: every key gets the prefix ['module.']. *)
Definition restore_keys (state_dict : list (string * tensor))
  : list (string * tensor) :=
  map (fun kv => ("module." +:+ fst kv, snd kv)) state_dict.

Definition bn_names : list string := ["bn1"; "bn2"; "bn3"].

Definition bn_params : list string :=
  ["weight"; "bias"; "running_mean"; "running_var"; "num_batches_tracked"].

Definition mem (x : string) (l : list string) : bool :=
  existsb (String.eqb x) l.

(** [key in model_state and model_state[key].shape == v.shape] *)
Definition fits (model_state : gmap string tensor) (key : string) (v : tensor)
  : bool :=
  match model_state !! key with
  | Some m => bool_decide (shape m = shape v)
  | None => false
  end.

(** ['.'.join(parts[:i+1] + ['0'] + parts[i+1:])] *)
Definition insert_zero (parts : list string) (i : nat) : string :=
  join "." (take (i + 1) parts ++ ["0"] ++ drop (i + 1) parts).

(** One of the two patterns at position [i]: [head part] says whether the
    segment qualifies ([bn1]/[bn2]/[bn3], or a numeric index). The result is
    the rewritten key when it is in the model with the value's shape. *)
Definition try_pattern (model_state : gmap string tensor) (v : tensor)
    (parts : list string) (i : nat) (head : string -> bool) (part : string)
  : option string :=
  if head part && (i + 1 <? length parts)%nat then
    match parts !! (i + 1)%nat with
    | Some next_part =>
        if mem next_part bn_params then
          let new_key := insert_zero parts i in
          if fits model_state new_key v then Some new_key else None
        else None
    | None => None
    end
  else None.

(** [for i, part in enumerate(parts)], from position [i] on, [todo] being
    [parts[i:]]; [Some new_key] is the [break] with [remapped = True]. *)
Fixpoint scan_parts (model_state : gmap string tensor) (v : tensor)
    (parts : list string) (i : nat) (todo : list string) : option string :=
  match todo with
  | [] => None
  | part :: todo' =>
      match try_pattern model_state v parts i (fun p => mem p bn_names) part with
      | Some new_key => Some new_key
      | None =>
          match try_pattern model_state v parts i isdigit part with
          | Some new_key => Some new_key
          | None => scan_parts model_state v parts (i + 1) todo'
          end
      end
  end.

(** The key under which the loop body stores [v]. *)
Definition remap_key (model_state : gmap string tensor) (k : string)
    (v : tensor) : string :=
  if fits model_state k v then k
  else
    let parts := split "." k in
    match scan_parts model_state v parts 0 parts with
    | Some new_key => new_key
    | None => k
    end.

(** One iteration of [for k, v in state_dict.items()]. *)
Definition remap_entry (model_state : gmap string tensor)
    (remapped_state_dict : gmap string tensor) (kv : string * tensor)
  : gmap string tensor :=
  <[remap_key model_state (fst kv) (snd kv) := snd kv]> remapped_state_dict.

Definition remap_state_dict (model_state : gmap string tensor)
    (state_dict : list (string * tensor)) : gmap string tensor :=
  fold_left (remap_entry model_state) state_dict ∅.

(** The mapping handed to [model.load_state_dict(..., strict=False)]. *)
Definition load_model_mapping (model_state : gmap string tensor)
    (state_dict : list (string * tensor)) (is_restore : bool)
  : gmap string tensor :=
  remap_state_dict model_state
    (if is_restore then restore_keys state_dict else state_dict).

(** The specification's reading of the two rewrites: position [i] is
    eligible when its segment is [bn1]/[bn2]/[bn3] or purely numeric and the
    next segment is a normalization parameter suffix. *)
Definition eligible (parts : list string) (i : nat) : Prop :=
  exists part next_part,
    parts !! i = Some part /\ parts !! (i + 1)%nat = Some next_part /\
    (mem part bn_names = true \/ isdigit part = true) /\
    mem next_part bn_params = true.

(** *** [parse_devices] *)

(** The body of [for d in input_devices.split(',')] for one [d]:
    the devices it appends. *)
Definition parse_device (device_count : Z) (d : string) : result (list Z) :=
  if contains "-" d then
    let pieces := split "-" d in
    start_device ← index pieces 0;
    end_device ← index pieces 1;
    _ ← assert (negb (String.eqb start_device ""));
    _ ← assert (negb (String.eqb end_device ""));
    start_device ← int start_device;
    end_device ← int end_device;
    _ ← assert (start_device <? end_device)%Z;
    _ ← assert (end_device <? device_count)%Z;
    Ok (range start_device (end_device + 1))
  else
    device ← int d;
    _ ← assert (device <? device_count)%Z;
    Ok [device].

Fixpoint parse_device_loop (device_count : Z) (ds : list string)
    (devices : list Z) : result (list Z) :=
  match ds with
  | [] => Ok devices
  | d :: ds' =>
      more ← parse_device device_count d;
      parse_device_loop device_count ds' (devices ++ more)
  end.

(** [device_count] is what [torch.cuda.device_count()] answers. *)
Definition parse_devices (device_count : Z) (input_devices : string)
  : result (list Z) :=
  if endswith input_devices "*" then Ok (range 0 device_count)
  else parse_device_loop device_count (split "," input_devices) [].

(** An element of a device specification, as the specification describes
    it: one integer, or a range of two. *)
Inductive device_item : Type :=
  | Single (a : string)
  | Span (a b : string).

Definition item_text (it : device_item) : string :=
  match it with
  | Single a => a
  | Span a b => a +:+ "-" +:+ b
  end.

Definition item_digits (it : device_item) : bool :=
  match it with
  | Single a => isdigit a
  | Span a b => isdigit a && isdigit b
  end.

(** The range condition of the specification: [a < b] and [b] below the
    device count. Nothing is asked of a single integer. *)
Definition span_ok (device_count : Z) (it : device_item) : bool :=
  match it with
  | Single _ => true
  | Span a b =>
      (digits_value a <? digits_value b)%Z
      && (digits_value b <? device_count)%Z
  end.

(** What the code checks: the range condition, and every single integer
    below the device count as well. *)
Definition item_ok (device_count : Z) (it : device_item) : bool :=
  match it with
  | Single a => (digits_value a <? device_count)%Z
  | Span _ _ => span_ok device_count it
  end.

Definition item_members (it : device_item) : list Z :=
  match it with
  | Single a => [digits_value a]
  | Span a b => range (digits_value a) (digits_value b + 1)
  end.

Definition spec_text (its : list device_item) : string :=
  join "," (map item_text its).

(** *** [decode_labels], [decode_predictions], [inv_preprocess] *)

Definition label_colours : list (Z * Z * Z) :=
  [ (0,0,0);
    (128,0,0); (0,128,0); (128,128,0); (0,0,128); (128,0,128);
    (0,128,128); (128,128,128); (64,0,0); (192,0,0); (64,128,0);
    (192,128,0); (64,0,128); (192,0,128); (64,128,128); (192,128,128);
    (0,64,0); (128,64,0); (0,192,0); (128,192,0); (0,64,128) ]%Z.

(** The names bound in the module when one of its functions runs: what
    lines 2-14 import and assign, [label_colours], and the functions the
    module defines. The built-in names ([len], [range], [enumerate],
    [isinstance], [list]) resolve in the interpreter. *)
Definition pyt_utils_globals : list string :=
  [ "os"; "sys"; "time"; "argparse"; "OrderedDict"; "defaultdict";
    "torch"; "model_zoo"; "dist"; "get_logger"; "logger"; "label_colours";
    "reduce_tensor"; "all_reduce_tensor"; "load_model"; "parse_devices";
    "extant_file"; "link_file"; "ensure_dir"; "_dbg_interactive";
    "decode_labels"; "decode_predictions"; "inv_preprocess" ].

(** Evaluating a global name. *)
Definition resolve (globals : list string) (name : string) : result unit :=
  if mem name globals then Ok tt else Raise NameError.

(** [n, h, w = a.shape] *)
Definition unpack3 (s : list nat) : result (nat * nat * nat) :=
  match s with
  | [n; h; w] => Ok (n, h, w)
  | _ => Raise ValueError
  end.

(** [n, c, h, w = a.shape] *)
Definition unpack4 (s : list nat) : result (nat * nat * nat * nat) :=
  match s with
  | [n; c; h; w] => Ok (n, c, h, w)
  | _ => Raise ValueError
  end.

Fixpoint mapM {A B : Type} (f : A -> result B) (l : list A)
  : result (list B) :=
  match l with
  | [] => Ok []
  | x :: l' => y ← f x; ys ← mapM f l'; Ok (y :: ys)
  end.

(** The pixel written for class index [k]; a pixel that is not written
    stays black. *)
Definition colour_of (num_classes : Z) (k : Z) : result (Z * Z * Z) :=
  if (k <? num_classes)%Z then index label_colours k else Ok (0, 0, 0)%Z.

Definition rgb_items (px : list (Z * Z * Z)) : list Z :=
  concat (map (fun c => [fst (fst c); snd (fst c); snd c]) px).

(** The body of [for i in range(num_images)] of [decode_labels] and
    [decode_predictions], on the [h * w] class indices of image [i]. *)
Definition decode_image (globals : list string) (num_classes : Z)
    (h : nat) (img : list Z) : result (list Z) :=
  _ ← resolve globals "Image";
  _ ← (if (h =? 0)%nat then Raise IndexError else Ok tt);
  px ← mapM (colour_of num_classes) img;
  _ ← resolve globals "np";
  Ok (rgb_items px).

(** From the shape unpacking on: the assertion, [np.zeros] and the loop. *)
Definition decode_batch (globals : list string) (mask : ndarray Z)
    (num_images num_classes : Z) : result (ndarray Z) :=
  '(n, h, w) ← unpack3 (shape mask);
  _ ← assert (num_images <=? Z.of_nat n)%Z;
  _ ← resolve globals "np";
  _ ← (if (num_images <? 0)%Z then Raise ValueError else Ok tt);
  imgs ← mapM (fun i : nat =>
                 decode_image globals num_classes h
                   (take (h * w) (drop (i * (h * w)) (items mask))))
              (seq 0 (Z.to_nat num_images));
  Ok (mk_ndarray [Z.to_nat num_images; h; w; 3%nat] (concat imgs)).

Definition decode_labels (globals : list string) (mask : ndarray Z)
    (num_images num_classes : Z) : result (ndarray Z) :=
  decode_batch globals mask num_images num_classes.

(** [preds] is a list of per-scale output sequences, or one tensor. *)
Inductive preds_arg : Type :=
  | PredList (preds : list (list tensor))
  | PredTensor (preds : tensor).

Section NumPy.

(** [np.concatenate(preds_list, axis=0)] and [np.argmax(preds, axis=1)] *)
Variable np_concatenate : list tensor -> result tensor.
Variable np_argmax : tensor -> result (ndarray Z).
(** [(np.transpose(img, (1,2,0)) + img_mean).astype(np.uint8)], on the
    elements of one image of shape [(c, h, w)]. *)
Variable np_restore : nat * nat * nat -> list Q -> list Q -> result (list Z).

Definition decode_predictions (globals : list string) (preds : preds_arg)
    (num_images num_classes : Z) : result (ndarray Z) :=
  preds ← match preds with
          | PredList preds =>
              preds_list ← mapM (fun pred => index pred (-1)) preds;
              _ ← resolve globals "np";
              np_concatenate preds_list
          | PredTensor preds => Ok preds
          end;
  _ ← resolve globals "np";
  preds ← np_argmax preds;
  decode_batch globals preds num_images num_classes.

Definition inv_preprocess (globals : list string) (imgs : tensor)
    (num_images : Z) (img_mean : list Q) : result (ndarray Z) :=
  '(n, c, h, w) ← unpack4 (shape imgs);
  _ ← assert (num_images <=? Z.of_nat n)%Z;
  _ ← resolve globals "np";
  _ ← (if (num_images <? 0)%Z then Raise ValueError else Ok tt);
  outs ← mapM (fun i : nat =>
                 _ ← resolve globals "np";
                 np_restore (c, h, w)
                   (take (c * h * w) (drop (i * (c * h * w)) (items imgs)))
                   img_mean)
              (seq 0 (Z.to_nat num_images));
  Ok (mk_ndarray [Z.to_nat num_images; h; w; c] (concat outs)).

End NumPy.

End PytUtils.

(** ** custom_dataset/sample.py *)

Module Sample.

(** What [cv2.VideoCapture(video_path)] gives: whether it opened, the frame
    rate it reports, and the frames [cap.read()] delivers before it
    answers [ret = False]. *)
Record video (frame : Type) : Type := mk_video {
  is_opened : bool;
  fps : Q;
  frames : list frame
}.
Arguments mk_video {frame} is_opened fps frames.
Arguments is_opened {frame} _.
Arguments fps {frame} _.
Arguments frames {frame} _.

(** [int(x)] of a float: the fraction is dropped, towards zero. *)
Definition int_of_float (x : Q) : Z := Z.quot (Qnum x) (Zpos (Qden x)).

(** [str(n)] for [n >= 0]; [fuel] bounds the number of digits. *)
Fixpoint decimal_go (fuel : nat) (n : nat) (acc : string) : string :=
  match fuel with
  | O => acc
  | S fuel' =>
      let acc' := String (ascii_of_nat (48 + n mod 10)) acc in
      if (n / 10 =? 0)%nat then acc' else decimal_go fuel' (n / 10) acc'
  end.

Definition decimal (n : nat) : string := decimal_go (S n) n "".

Fixpoint zeros (n : nat) : string :=
  match n with
  | O => ""
  | S n' => String "0" (zeros n')
  end.

(** [f"{n:05d}"] *)
Definition pad5 (n : nat) : string :=
  let d := decimal n in zeros (5 - String.length d) +:+ d.

(** [os.path.join(a, b)] on POSIX. *)
Definition path_join (a b : string) : string :=
  if startswith b "/" then b
  else if String.eqb a "" || endswith a "/" then a +:+ b
  else a +:+ "/" +:+ b.

Definition img_name (output_dir filename : string) (saved_count : nat)
  : string :=
  path_join output_dir (filename +:+ "_frame_" +:+ pad5 saved_count +:+ ".jpg").

(** The images written by [cv2.imwrite], in order, and the exception that
    ended the call, if one did. [os.makedirs(output_dir, exist_ok=True)] is
    taken to succeed, and the console output is left out. *)
Definition outcome (frame : Type) : Type :=
  (list (string * frame) * option exn)%type.

Section ExtractFrames.

Context {frame : Type}.

(** [while True], with [todo] the frames not yet read. *)
Fixpoint read_loop (output_dir filename : string) (frame_interval : Z)
    (todo : list frame) (frame_count : Z) (saved_count : nat)
    (written : list (string * frame)) : outcome frame :=
  match todo with
  | [] => (written, None)
  | fr :: todo' =>
      if (frame_interval =? 0)%Z then (written, Some ZeroDivisionError)
      else if (frame_count mod frame_interval =? 0)%Z then
        read_loop output_dir filename frame_interval todo'
          (frame_count + 1)%Z (S saved_count)
          (written ++ [(img_name output_dir filename saved_count, fr)])
      else
        read_loop output_dir filename frame_interval todo'
          (frame_count + 1)%Z saved_count written
  end.

Definition frame_interval_of (v : video frame) (interval_sec : Q) : Z :=
  int_of_float (Double.mul (fps v) interval_sec).

Definition extract_frames (v : video frame) (filename output_dir : string)
    (interval_sec : Q) : outcome frame :=
  if negb (is_opened v) then ([], Some RuntimeError)
  else if Qeq_bool (fps v) 0 then ([], Some RuntimeError)
  else
    read_loop output_dir filename (frame_interval_of v interval_sec)
      (frames v) 0%Z 0%nat [].

(** The frame indices the specification says are saved: the multiples of
    [frame_interval] among [0 .. n-1]. *)
Definition multiples (frame_interval : Z) (n : nat) : list nat :=
  filter (fun i => (Z.of_nat i mod frame_interval = 0)%Z) (seq 0 n).

(** The files the specification describes: the [j]-th saved frame gets the
    counter [j]. *)
Definition saved_files (output_dir filename : string) (fs : list frame)
    (saved : list nat) : list (string * frame) :=
  omap (fun ji : nat * nat =>
          fr ← fs !! snd ji; Some (img_name output_dir filename (fst ji), fr))
       (imap (fun j i => (j, i)) saved).

End ExtractFrames.

End Sample.

(** ** fog-removal/defog_pipeline.py *)

Module DefogPipeline.

(** A [uint8] channel: rows of bytes. *)
Abbreviation channel := (list (list Byte.byte)).

Definition byte_to_Q (b : Byte.byte) : Q := inject_Z (Z.of_N (Byte.to_N b)).

(** [np.clip(x, 0, 255)] *)
Definition clip_0_255 (x : Q) : Q := Qmin 255 (Qmax x 0).

(** [.astype(np.uint8)] of a float: the fraction is dropped, and the integer
    is taken modulo 256. *)
Definition astype_uint8 (x : Q) : Byte.byte :=
  match Byte.of_N (Z.to_N (Sample.int_of_float x mod 256)) with
  | Some b => b
  | None => Byte.x00
  end.

(** One element of
    [np.clip(fusion_weight * v_clahe + (1 - fusion_weight) * v_dwt, 0, 255)
       .astype(np.uint8)]. *)
Definition fuse_pixel (fusion_weight : Q) (c d : Byte.byte) : Byte.byte :=
  astype_uint8
    (clip_0_255
       (Double.add (Double.mul fusion_weight (byte_to_Q c))
          (Double.mul (Double.sub 1 fusion_weight) (byte_to_Q d)))).

(** Element by element over two arrays; operands of different shapes are a
    [ValueError] (NumPy's broadcasting of a length-one axis is left out). *)
Fixpoint fuse_row (fusion_weight : Q) (r r' : list Byte.byte)
  : result (list Byte.byte) :=
  match r, r' with
  | [], [] => Ok []
  | c :: r, d :: r' =>
      rest ← fuse_row fusion_weight r r'; Ok (fuse_pixel fusion_weight c d :: rest)
  | _, _ => Raise ValueError
  end.

Fixpoint fuse (fusion_weight : Q) (a b : channel) : result channel :=
  match a, b with
  | [], [] => Ok []
  | r :: a, r' :: b =>
      row ← fuse_row fusion_weight r r';
      rest ← fuse fusion_weight a b;
      Ok (row :: rest)
  | _, _ => Raise ValueError
  end.

(** [a[: shape[0], : shape[1]]] with [shape] the shape of [v]. *)
Definition crop_to (v a : channel) : channel :=
  map (take (length (hd [] v))) (take (length v) a).

Section Dehaze.

(** The image type, and the library steps of the pipeline: the Dark
    Channel Prior dehazer, [cv2.cvtColor(_, COLOR_BGR2HSV)] with [cv2.split],
    [cv2.merge] with [cv2.cvtColor(_, COLOR_HSV2BGR)], CLAHE, and the wavelet
    branch [self.dwt] (PyWavelets transforms around the sharpening and the
    soft thresholding, with its own final clip and cast). *)
Context {image : Type}.
Variable dcp_dehaze : image -> image.
Variable to_hsv : image -> channel * channel * channel.
Variable from_hsv : channel * channel * channel -> image.
Variable clahe : channel -> channel.
Variable dwt : channel -> channel.

(** The value channel of the dehazed image. *)
Definition value_channel (img : image) : channel :=
  snd (to_hsv (dcp_dehaze img)).

Definition v_clahe (img : image) : channel := clahe (value_channel img).

Definition v_dwt (img : image) : channel :=
  crop_to (value_channel img) (dwt (value_channel img)).

(** Step 4 of [dehaze]: [v_fused]. *)
Definition v_fused (fusion_weight : Q) (img : image) : result channel :=
  fuse fusion_weight (v_clahe img) (v_dwt img).

Definition dehaze (fusion_weight : Q) (img : image) : result image :=
  let '(h, s, _) := to_hsv (dcp_dehaze img) in
  fused ← v_fused fusion_weight img;
  Ok (from_hsv (h, s, fused)).

End Dehaze.

End DefogPipeline.

(** ** fog-removal/dcp.py *)

Module DCP.

(** A pixel of the normalized image: its three channel values. *)
Abbreviation pixel := (Q * Q * Q)%type.

(** [a + b] and [a / n] on rows of three [float64] values, element by
    element. *)
Definition padd (a b : pixel) : pixel :=
  (Double.add (fst (fst a)) (fst (fst b)),
   Double.add (snd (fst a)) (snd (fst b)),
   Double.add (snd a) (snd b)).

Definition pdiv (a : pixel) (n : Z) : pixel :=
  (Double.div (fst (fst a)) (Double.of_int n),
   Double.div (snd (fst a)) (Double.of_int n),
   Double.div (snd a) (Double.of_int n)).

Definition pzero : pixel := (0, 0, 0)%Q.

(** [int(max(math.floor(img_size * atm_percentile), 1))] *)
Definition num_pixels_of (img_size : nat) (atm_percentile : Q) : Z :=
  Z.max
    (Qfloor (Double.mul (Double.of_int (Z.of_nat img_size)) atm_percentile)) 1.

(** [a.reshape(img_size, ...)]: the elements stay as they are, and their
    number has to agree. *)
Definition reshape {A : Type} (a : list A) (img_size : nat) : result (list A) :=
  if (length a =? img_size)%nat then Ok a else Raise ValueError.

(** [v[-k:]] for [k >= 1] *)
Definition last_n {A : Type} (k : Z) (v : list A) : list A :=
  drop (length v - Z.to_nat k) v.

Section AtmosphericLight.

(** [ndarray.argsort()]: the indices that sort the vector in ascending
    order; the order among equal values is NumPy's business. *)
Variable argsort : list Q -> list nat.

(** [for idx in indices: atm_sum += image_vec[idx]] *)
Fixpoint accumulate (image_vec : list pixel) (indices : list nat)
    (atm_sum : pixel) : result pixel :=
  match indices with
  | [] => Ok atm_sum
  | idx :: indices' =>
      match image_vec !! idx with
      | Some px => accumulate image_vec indices' (padd atm_sum px)
      | None => Raise IndexError
      end
  end.

(** [image] is given by its shape [(h, w, 3)] and its pixels in row-major
    order, [dark] by its elements. *)
Definition _compute_atmospheric_light (atm_percentile : Q) (h w : nat)
    (image : list pixel) (dark : list Q) : result pixel :=
  let img_size := (h * w)%nat in
  let num_pixels := num_pixels_of img_size atm_percentile in
  dark_vec ← reshape dark img_size;
  image_vec ← reshape image img_size;
  let indices := last_n num_pixels (argsort dark_vec) in
  atm_sum ← accumulate image_vec indices pzero;
  Ok (pdiv atm_sum num_pixels).

End AtmosphericLight.

(** The number of pixels the specification averages:
    [max(floor(imagePixelCount * atmPercentile), 1)], the product being the
    one of two floats. *)
Definition top_count (pixel_count : nat) (atm_percentile : Q) : Z :=
  Z.max
    (Qfloor (Double.mul (Double.of_int (Z.of_nat pixel_count)) atm_percentile))
    1.

(** The arithmetic mean of a list of floats, in float arithmetic: the
    values added up from the left, and the sum divided by their number. *)
Definition mean (values : list Q) : Q :=
  Double.div (fold_left Double.add values 0%Q)
    (Double.of_int (Z.of_nat (length values))).

(** The three channels of a list of pixels. *)
Definition channels (l : list pixel) : list Q * list Q * list Q :=
  (map (fun p => fst (fst p)) l, map (fun p => snd (fst p)) l, map snd l).

(** The pixels of [image] at the indices [top]. *)
Definition pixels_at (image : list pixel) (top : list nat) : list pixel :=
  omap (fun i => image !! i) top.

(** What an ascending argsort of [v] is: every index once, values
    non-decreasing along the result. *)
Definition is_argsort (v : list Q) (idx : list nat) : Prop :=
  Permutation idx (seq 0 (length v)) /\
  forall i j a b x y, (i < j)%nat ->
    idx !! i = Some a -> idx !! j = Some b ->
    v !! a = Some x -> v !! b = Some y -> (x <= y)%Q.

(** [top] holds [k] pixels of highest dark-channel value: distinct indices
    of [dark], and no index outside has a higher value than one inside. *)
Definition top_by (dark : list Q) (k : nat) (top : list nat) : Prop :=
  NoDup top /\ length top = k /\
  (forall i, i ∈ top -> (i < length dark)%nat) /\
  (forall i j x y, i ∈ top -> j ∉ top ->
     dark !! i = Some x -> dark !! j = Some y -> (y <= x)%Q).

(** An argsort for the examples: insertion of each index into the sorted
    prefix, after the entries that are not greater. *)
Fixpoint insert_sorted (v : list Q) (i : nat) (l : list nat) : list nat :=
  match l with
  | [] => [i]
  | j :: l' =>
      if Qle_bool (nth j v 0%Q) (nth i v 0%Q) then j :: insert_sorted v i l'
      else i :: l
  end.

Definition insertion_argsort (v : list Q) : list nat :=
  fold_left (fun acc i => insert_sorted v i acc) (seq 0 (length v)) [].

End DCP.

(** ** [pathlib] paths, as both runners and the dataset registration use
       them (POSIX flavour) *)

Module Pathlib.

Record path : Type := mk_path {
  absolute : bool;
  parts : list string
}.

#[global] Instance path_eq_dec : EqDecision path.
Proof. solve_decision. Defined.

(** [Path(s)]: the segments between slashes; empty segments and [.] are
    dropped. (A path that begins with exactly two slashes keeps them in
    [pathlib]; it is read here as beginning with one.) *)
Definition segment_kept (seg : string) : bool :=
  negb (String.eqb seg "") && negb (String.eqb seg ".").

Definition Path (s : string) : path :=
  mk_path (startswith s "/") (filter segment_kept (split "/" s)).

(** [p / s] *)
Definition div (p : path) (s : string) : path :=
  let q := Path s in
  if absolute q then q else mk_path (absolute p) (parts p ++ parts q).

(** [str(p)] *)
Definition str (p : path) : string :=
  match absolute p, parts p with
  | false, [] => "."
  | false, ps => join "/" ps
  | true, ps => "/" +:+ join "/" ps
  end.

(** [p.name] *)
Definition name (p : path) : string := List.last (parts p) "".

(** [n.rfind('.')]: the position of the last dot. *)
Fixpoint rfind_dot (n : string) : option nat :=
  match n with
  | EmptyString => None
  | String c n' =>
      match rfind_dot n' with
      | Some i => Some (S i)
      | None => if Ascii.eqb c "." then Some O else None
      end
  end.

(** Where [p.stem] ends and [p.suffix] begins: at the last dot of the name,
    when that is neither its first nor its last character. *)
Definition suffix_start (n : string) : option nat :=
  match rfind_dot n with
  | Some i =>
      if (0 <? i)%nat && (i <? String.length n - 1)%nat then Some i else None
  | None => None
  end.

Definition stem_of_name (n : string) : string :=
  match suffix_start n with
  | Some i => String.substring 0 i n
  | None => n
  end.

Definition suffix_of_name (n : string) : string :=
  match suffix_start n with
  | Some i => String.substring i (String.length n - i) n
  | None => ""
  end.

Definition stem (p : path) : string := stem_of_name (name p).
Definition suffix (p : path) : string := suffix_of_name (name p).

(** [p.parent] *)
Definition parent (p : path) : path :=
  mk_path (absolute p) (removelast (parts p)).

Fixpoint strip_prefix (pre l : list string) : option (list string) :=
  match pre, l with
  | [], _ => Some l
  | x :: pre', y :: l' => if String.eqb x y then strip_prefix pre' l' else None
  | _ :: _, [] => None
  end.

(** [p.relative_to(base)] *)
Definition relative_to (p base : path) : result path :=
  if Bool.eqb (absolute p) (absolute base) then
    match strip_prefix (parts base) (parts p) with
    | Some rest => Ok (mk_path false rest)
    | None => Raise ValueError
    end
  else Raise ValueError.

Definition lower_char (c : ascii) : ascii :=
  let n := nat_of_ascii c in
  if (65 <=? n)%nat && (n <=? 90)%nat then ascii_of_nat (n + 32) else c.

(** [s.lower()] *)
Fixpoint lower (s : string) : string :=
  match s with
  | EmptyString => EmptyString
  | String c s' => String (lower_char c) (lower s')
  end.

Definition valid_exts : list string :=
  [".jpg"; ".jpeg"; ".png"; ".bmp"; ".tif"; ".tiff"].

(** [p.suffix.lower() in VALID_EXTS] *)
Definition has_valid_ext (p : path) : bool :=
  existsb (String.eqb (lower (suffix p))) valid_exts.

End Pathlib.

(** ** CCNet/tools/run_inference.py: [preprocess_image] *)

Module CCNetPreprocess.

(** What [preprocess_image] returns, by the shapes: [(height, width)] of
    the array the tensor is made of, [original_size], and [scale]. *)
Record preprocessed : Type := mk_preprocessed {
  tensor_size : Z * Z;
  original_size : Z * Z;
  scale : Q
}.

(** [raw] is the [(height, width)] of what [cv2.imread] decodes, or
    [None]. [cv2.resize] to [(new_w, new_h)] gives an array of [new_h] rows
    and [new_w] columns, and fails with [cv2.error] when one of the two is
    not positive. *)
Definition preprocess_image (raw : option (Z * Z)) (long_side : Z)
  : result preprocessed :=
  match raw with
  | None => Raise RuntimeError
  | Some (h, w) =>
      let original_size := (h, w) in
      if negb (long_side =? 0)%Z && (0 <? long_side)%Z then
        let max_side := Z.max h w in
        if negb (max_side =? long_side)%Z then
          if (max_side =? 0)%Z then Raise ZeroDivisionError
          else
            let scale :=
              Qmin (Double.div (Double.of_int long_side)
                      (Double.of_int max_side)) 1 in
            if negb (Qeq_bool scale 1) then
              let new_w :=
                Double.round_half_even (Double.mul (Double.of_int w) scale) in
              let new_h :=
                Double.round_half_even (Double.mul (Double.of_int h) scale) in
              if (new_w <=? 0)%Z || (new_h <=? 0)%Z then Raise Cv2Error
              else Ok (mk_preprocessed (new_h, new_w) original_size scale)
            else Ok (mk_preprocessed (h, w) original_size scale)
        else Ok (mk_preprocessed (h, w) original_size 1)
      else Ok (mk_preprocessed (h, w) original_size 1)
  end.

(** The size of [prediction] when it is saved: the logits are interpolated
    to the size of the tensor, and the class map is resized to
    [original_size] when [scale != 1.0]. *)
Definition prediction_size (p : preprocessed) : Z * Z :=
  if negb (Qeq_bool (scale p) 1) then original_size p else tensor_size p.

End CCNetPreprocess.

(** ** CCNet/tools/run_inference.py *)

Module CCNetInference.

Import Pathlib CCNetPreprocess.

(** *** Where [run_inference] writes *)

(** The command-line arguments that decide which files are written. *)
Record args : Type := mk_args {
  image_dir : string;
  output_dir : string;
  long_side : Z;
  save_overlay : bool;
  save_labeled : bool
}.

Inductive output_kind : Type := Mask | Overlay | Labeled.

#[global] Instance output_kind_eq_dec : EqDecision output_kind.
Proof. solve_decision. Defined.

(** The [save] calls of one iteration of [for image_path in files]. *)
Definition outputs_for (a : args) (image_path : path)
  : result (list (output_kind * path)) :=
  rel_path ← relative_to image_path (Path (image_dir a));
  let stem := stem rel_path in
  let output_dir := Path (output_dir a) in
  let mask_path := div output_dir (stem +:+ "_mask.png") in
  let overlay_path := div output_dir (stem +:+ "_overlay.png") in
  let labeled_path := div output_dir (stem +:+ "_labeled.png") in
  Ok ([(Mask, mask_path)]
      ++ (if save_overlay a then [(Overlay, overlay_path)] else [])
      ++ (if save_labeled a then [(Labeled, labeled_path)] else [])).

Section RunInference.

(** [cv2.imread] on a file: the [(height, width)] of the image it
    decodes, or [None]. *)
Variable imread : path -> option (Z * Z).

(** [for image_path in files]: an image that [preprocess_image] rejects
    ends the run with its exception; the network and the drawing are taken
    to succeed. *)
Fixpoint run_loop (a : args) (files : list path)
    (written : list (output_kind * path))
  : list (output_kind * path) * option exn :=
  match files with
  | [] => (written, None)
  | image_path :: files' =>
      match preprocess_image (imread image_path) (long_side a) with
      | Ok _ =>
          match outputs_for a image_path with
          | Ok outs => run_loop a files' (written ++ outs)
          | Raise e => (written, Some e)
          end
      | Raise e => (written, Some e)
      end
  end.

(** [dir_exists] is [image_dir.exists()], [files] what [list_images] finds;
    building the model and loading its weights are taken to succeed. *)
Definition run_inference (a : args) (dir_exists : bool) (files : list path)
  : list (output_kind * path) * option exn :=
  if negb dir_exists then ([], Some SystemExit)
  else match files with
       | [] => ([], Some SystemExit)
       | _ => run_loop a files []
       end.

End RunInference.

(** The files of one image as the code lays them out: all of them directly
    in the output directory, named after the stem of the last segment of
    [rel], the path of the image below the image root. *)
Definition flat_outputs (a : args) (rel : string)
  : list (output_kind * path) :=
  let out := Path (output_dir a) in
  let file := fun ending =>
    mk_path (absolute out) (parts out ++ [stem (Path rel) +:+ ending]) in
  [(Mask, file "_mask.png")]
  ++ (if save_overlay a then [(Overlay, file "_overlay.png")] else [])
  ++ (if save_labeled a then [(Labeled, file "_labeled.png")] else []).

(** The path the specification describes for an output of [rel_path]: the
    subdirectories of the input below the image root, repeated below the
    output directory. *)
Definition mirrored (out : path) (rel_path : path) (file : string) : path :=
  mk_path (absolute out) (parts out ++ removelast (parts rel_path) ++ [file]).

(** *** [add_labels_to_image]: where labels are placed *)

(** A connected component of one class, as the libraries report it: its
    pixel count ([np.sum(labeled_array == i)]), and the anchor of its label,
    [(cx, cy)], computed from the moments (or the bounding box) of its
    largest contour; [None] when [cv2.findContours] finds no contour. *)
Record component : Type := mk_component {
  size : Z;
  anchor : option (Z * Z)
}.

(** [np.unique]: the distinct values, ascending. *)
Fixpoint insert_unique (x : Z) (l : list Z) : list Z :=
  match l with
  | [] => [x]
  | y :: l' =>
      if (x <? y)%Z then x :: l
      else if (x =? y)%Z then l
      else y :: insert_unique x l'
  end.

Definition np_unique (mask : list (list Z)) : list Z :=
  fold_right insert_unique [] (concat mask).

(** [l.sort(key=size, reverse=True)]: descending by size, components of
    equal size in their original order. *)
Fixpoint insert_desc (x : nat * Z) (l : list (nat * Z)) : list (nat * Z) :=
  match l with
  | [] => [x]
  | y :: l' =>
      if (snd y <? snd x)%Z then x :: l else y :: insert_desc x l'
  end.

Definition sort_desc (l : list (nat * Z)) : list (nat * Z) :=
  fold_left (fun acc x => insert_desc x acc) l [].

(** [l[:m]] *)
Definition slice_to {A : Type} (m : Z) (l : list A) : list A :=
  if (m <? 0)%Z then take (length l - Z.to_nat (- m)) l
  else take (Z.to_nat m) l.

(** [max(60, int(80 * (w / 1024.0)))] *)
Definition min_distance (w : Z) : Z :=
  Z.max 60
    (Sample.int_of_float
       (Double.mul (Double.of_int 80)
          (Double.div (Double.of_int w) (Double.of_int 1024)))).

Definition dist2 (p q : Z * Z) : Z :=
  ((fst p - fst q) ^ 2 + (snd p - snd q) ^ 2)%Z.

(** The loop over [label_positions]: is some placed label nearer than
    [min_distance]? [np.sqrt(d2) < min_distance] is decided on the squares,
    which is the same comparison for the coordinates of an image. *)
Definition too_close (w : Z) (label_positions : list (Z * Z)) (c : Z * Z)
  : bool :=
  existsb (fun e => (dist2 c e <? min_distance w ^ 2)%Z) label_positions.

Section AddLabels.

(** [ndimage.label] on the binary mask of one class, with the measurements
    of each component, in label order [1 .. num_features]. *)
Variable components : list (list bool) -> list component.

Definition class_mask (mask : list (list Z)) (class_id : Z)
  : list (list bool) :=
  map (map (fun x => (x =? class_id)%Z)) mask.

(** The components kept for one class: [(component_id, size)], sorted and
    cut to [max_labels_per_class]. *)
Definition component_sizes (comps : list component)
    (max_labels_per_class : Z) : list (nat * Z) :=
  slice_to max_labels_per_class
    (sort_desc (imap (fun i c => (S i, size c)) comps)).

(** The body of [for component_id, size in component_sizes]. *)
Definition place_component (w min_region_size : Z) (comps : list component)
    (label_positions : list (Z * Z)) (cs : nat * Z) : list (Z * Z) :=
  if (snd cs <? min_region_size)%Z then label_positions
  else
    match comps !! (fst cs - 1)%nat with
    | Some {| anchor := Some c |} =>
        if too_close w label_positions c then label_positions
        else label_positions ++ [c]
    | _ => label_positions
    end.

(** The body of [for class_id in unique_classes]. *)
Definition place_class (w min_region_size max_labels_per_class : Z)
    (num_names : nat) (mask : list (list Z))
    (label_positions : list (Z * Z)) (class_id : Z) : list (Z * Z) :=
  if (Z.of_nat num_names <=? class_id)%Z then label_positions
  else
    let comps := components (class_mask mask class_id) in
    fold_left (place_component w min_region_size comps)
      (component_sizes comps max_labels_per_class) label_positions.

(** [add_labels_to_image], by the [label_positions] it has when it
    returns (the drawing itself is OpenCV's); [w] is the width of [image],
    [num_names] is [len(class_names)]. *)
Definition add_labels_to_image (w : Z) (mask : list (list Z))
    (num_names : nat) (min_region_size max_labels_per_class : Z)
  : list (Z * Z) :=
  fold_left (place_class w min_region_size max_labels_per_class num_names mask)
    (np_unique mask) [].

(** The anchors offered to the placement, in the order the loops reach
    them: classes ascending, components of a class largest first. *)
Definition class_candidates (min_region_size max_labels_per_class : Z)
    (num_names : nat) (mask : list (list Z)) (class_id : Z) : list (Z * Z) :=
  if (Z.of_nat num_names <=? class_id)%Z then []
  else
    let comps := components (class_mask mask class_id) in
    omap (fun cs : nat * Z =>
            if (snd cs <? min_region_size)%Z then None
            else c ← comps !! (fst cs - 1)%nat; anchor c)
         (component_sizes comps max_labels_per_class).

Definition candidates (mask : list (list Z)) (num_names : nat)
    (min_region_size max_labels_per_class : Z) : list (Z * Z) :=
  concat (map (class_candidates min_region_size max_labels_per_class
                 num_names mask) (np_unique mask)).

End AddLabels.

(** First come, first placed: a candidate joins the placed labels unless
    one of them is nearer than [min_distance]. *)
Definition place (w : Z) (placed : list (Z * Z)) (c : Z * Z) : list (Z * Z) :=
  if too_close w placed c then placed else placed ++ [c].

(** Every two labels of the list are at least [min_distance] apart (on
    the squares). *)
Definition separated (w : Z) (l : list (Z * Z)) : Prop :=
  forall i j p q, i <> j -> l !! i = Some p -> l !! j = Some q ->
    (min_distance w ^ 2 <= dist2 p q)%Z.

(** The order of the components kept for a class. *)
Definition larger_first (a b : nat * Z) : Prop := (snd b <= snd a)%Z.

(** An image for the examples, 1000 pixels wide and 120 high: background
    of class 0, a 30 x 30 square of class 1 with its corner at (85, 85), and
    a 30 x 30 square of class 2 with its corner at (163, 85). *)
Definition two_squares_row : list Z :=
  repeat 0%Z 85 ++ repeat 1%Z 30 ++ repeat 0%Z 48 ++ repeat 2%Z 30
    ++ repeat 0%Z 807.

Definition two_squares_mask : list (list Z) :=
  repeat (repeat 0%Z 1000) 85 ++ repeat two_squares_row 30
    ++ repeat (repeat 0%Z 1000) 5.

(** What the libraries report on the class masks of that image: one
    component each, with its pixel count and the truncated centroid of its
    outer contour (the whole frame for the background). The class mask is
    recognised by the pixel it has at (99, 99) or at (177, 99). *)
Definition two_squares_components (m : list (list bool)) : list component :=
  let at_ x y := nth x (nth y m []) false in
  if at_ 99%nat 99%nat then [mk_component 900 (Some (99, 99)%Z)]
  else if at_ 177%nat 99%nat then [mk_component 900 (Some (177, 99)%Z)]
  else [mk_component 118200 (Some (499, 59)%Z)].

(** The distance the specification names, [max(60, 80 * width / 1024)],
    without the truncation. *)
Definition stated_distance (w : Z) : Q :=
  Qmax 60 (inject_Z (80 * w) / 1024).

End CCNetInference.

(** ** FasterRCNN/register_custom_dataset.py *)

Module RegisterDataset.

Import Pathlib.

(** One dataset record of [get_image_dicts]. *)
Record record : Type := mk_record {
  file_name : string;
  image_id : string;
  height : nat;
  width : nat
}.

(** A function registered in Detectron2's [DatasetCatalog]: the closure
    [get_image_dicts], given by the [image_files] it captured, or the COCO
    loader that [register_coco_instances] installs. *)
Inductive dataset_func : Type :=
  | GetImageDicts (image_files : list string)
  | CocoInstances (json_file image_root : string).

(** [DatasetCatalog] and, of [MetadataCatalog], the [thing_classes]
    attribute of each name that has one. *)
Record catalogs : Type := mk_catalogs {
  datasets : gmap string dataset_func;
  thing_classes_of : gmap string (list string)
}.

(** [DatasetCatalog.register(name, func)]: Detectron2 asserts that the name
    is not registered yet. *)
Definition catalog_register (cat : catalogs) (name : string)
    (func : dataset_func) : result catalogs :=
  _ ← assert (bool_decide (datasets cat !! name = None));
  Ok (mk_catalogs (<[name := func]> (datasets cat)) (thing_classes_of cat)).

(** [MetadataCatalog.get(name).thing_classes = classes]: Detectron2 asserts
    that an attribute already set is not given a different value. *)
Definition set_thing_classes (cat : catalogs) (name : string)
    (classes : list string) : result catalogs :=
  match thing_classes_of cat !! name with
  | Some old => _ ← assert (bool_decide (old = classes)); Ok cat
  | None =>
      Ok (mk_catalogs (datasets cat) (<[name := classes]> (thing_classes_of cat)))
  end.

Definition coco_classes : list string :=
  [ "person"; "bicycle"; "car"; "motorcycle"; "airplane"; "bus"; "train";
    "truck"; "boat"; "traffic light"; "fire hydrant"; "stop sign";
    "parking meter"; "bench"; "bird"; "cat"; "dog"; "horse"; "sheep"; "cow";
    "elephant"; "bear"; "zebra"; "giraffe"; "backpack"; "umbrella";
    "handbag"; "tie"; "suitcase"; "frisbee"; "skis"; "snowboard";
    "sports ball"; "kite"; "baseball bat"; "baseball glove"; "skateboard";
    "surfboard"; "tennis racket"; "bottle"; "wine glass"; "cup"; "fork";
    "knife"; "spoon"; "bowl"; "banana"; "apple"; "sandwich"; "orange";
    "broccoli"; "carrot"; "hot dog"; "pizza"; "donut"; "cake"; "chair";
    "couch"; "potted plant"; "bed"; "dining table"; "toilet"; "tv";
    "laptop"; "mouse"; "remote"; "keyboard"; "cell phone"; "microwave";
    "oven"; "toaster"; "sink"; "refrigerator"; "book"; "clock"; "vase";
    "scissors"; "teddy bear"; "hair drier"; "toothbrush" ].

(** [sorted] on strings. *)
Fixpoint insert_str (x : string) (l : list string) : list string :=
  match l with
  | [] => [x]
  | y :: l' => if String.ltb x y then x :: l else y :: insert_str x l'
  end.

Definition sorted (l : list string) : list string :=
  fold_left (fun acc x => insert_str x acc) l [].

(** The list comprehension over [image_dir.rglob("*")]; [found] is what
    [rglob] yields, each path with its [is_file()]. *)
Definition find_images (found : list (path * bool)) : list string :=
  sorted (map (fun e => str (fst e))
            (filter (fun e => has_valid_ext (fst e) && snd e) found)).

Definition register_image_folder_dataset (cat : catalogs) (name : string)
    (dir_exists : bool) (found : list (path * bool))
    (thing_classes : option (list string)) : result catalogs :=
  if negb dir_exists then Raise ValueError
  else
    let image_files := find_images found in
    match image_files with
    | [] => Raise ValueError
    | _ =>
        cat ← catalog_register cat name (GetImageDicts image_files);
        match thing_classes with
        | Some (c :: cs) => set_thing_classes cat name (c :: cs)
        | _ => set_thing_classes cat name coco_classes
        end
    end.

Section Materialize.

(** [cv2.imread(image_path)] when the dataset is materialized: the
    [(height, width)] of the decoded image, or [None]. *)
Variable imread : string -> option (nat * nat).
(** Detectron2's COCO loader, as [register_coco_instances] installs it for
    a name: called with the annotation file, the image root and the name,
    it may raise, and it may write to the catalogs (it records the
    categories of the file in the metadata of the name). *)
Variable load_coco_json :
  string -> string -> string -> catalogs -> result (list record * catalogs).

Definition get_image_dicts (image_files : list string) : list record :=
  omap (fun image_path =>
          hw ← imread image_path;
          Some (mk_record image_path (stem (Path image_path)) (fst hw) (snd hw)))
       image_files.

(** [DatasetCatalog.get(name)]: the registered function is called now; the
    result is its records, with the catalogs as the call leaves them. *)
Definition catalog_get (cat : catalogs) (name : string)
  : result (list record * catalogs) :=
  match datasets cat !! name with
  | Some (GetImageDicts image_files) => Ok (get_image_dicts image_files, cat)
  | Some (CocoInstances json_file image_root) =>
      load_coco_json json_file image_root name cat
  | None => Raise KeyError
  end.

End Materialize.

End RegisterDataset.

(** ** CCNet/utils/pyt_utils.py: the key report of [load_model] *)

Module LoadReport.

Import PytUtils.

(** [p in s] for strings. *)
Fixpoint is_substring (p s : string) : bool :=
  String.prefix p s ||
  match s with
  | EmptyString => false
  | String _ s' => is_substring p s'
  end.

(** What [load_model] computes after [load_state_dict]: the keys of the
    mapping it loaded, the model's own keys, and the two differences it
    logs. The missing keys that hold ['num_batches_tracked'] are not
    logged. *)
Record report : Type := mk_report {
  ckpt_keys : gset string;
  own_keys : gset string;
  missing_keys : gset string;
  unexpected_keys : gset string;
  missing_keys_filtered : gset string
}.

Definition load_report (model_state : gmap string tensor)
    (state_dict : list (string * tensor)) (is_restore : bool) : report :=
  let remapped_state_dict := load_model_mapping model_state state_dict is_restore in
  let ckpt_keys := dom remapped_state_dict in
  let own_keys := dom model_state in
  let missing_keys := own_keys ∖ ckpt_keys in
  let unexpected_keys := ckpt_keys ∖ own_keys in
  mk_report ckpt_keys own_keys missing_keys unexpected_keys
    (filter (fun k => is_substring "num_batches_tracked" k = false) missing_keys).

(** The keys under which the entries of a checkpoint are stored. *)
Definition targets (model_state : gmap string tensor)
    (state_dict : list (string * tensor)) : list string :=
  map (fun kv => remap_key model_state (fst kv) (snd kv)) state_dict.

End LoadReport.

(** ** custom_dataset/sample.py: the batch driver *)

Module SampleDriver.

Import Sample.

(** [s.rfind(c)]: the position of the last [c], if there is one. *)
Fixpoint rfind (c : ascii) (s : string) : option nat :=
  match s with
  | EmptyString => None
  | String x s' =>
      match rfind c s' with
      | Some i => Some (S i)
      | None => if Ascii.eqb x c then Some O else None
      end
  end.

Fixpoint has_non_dot (s : string) : bool :=
  match s with
  | EmptyString => false
  | String x s' => negb (Ascii.eqb x ".") || has_non_dot s'
  end.

(** [os.path.splitext(p)] on POSIX: the extension starts at the last dot,
    when that dot comes after the last slash and after a character of the
    file name that is not a dot. *)
Definition splitext (p : string) : string * string :=
  let name_start := match rfind "/" p with Some i => S i | None => O end in
  match rfind "." p with
  | Some dot =>
      if (name_start <=? dot)%nat
         && has_non_dot (String.substring name_start (dot - name_start) p)
      then (String.substring 0 dot p,
            String.substring dot (String.length p - dot) p)
      else (p, "")
  | None => (p, "")
  end.

(** [s.endswith(suffix)] *)
Definition ends_with (s suffix : string) : bool :=
  let n := String.length s in
  let m := String.length suffix in
  (m <=? n)%nat && String.eqb (String.substring (n - m) m s) suffix.

(** The list comprehension of the entry point: [entries] is what
    [os.listdir(raw_data_dir)] answers, each name with its [isfile]. *)
Definition mp4_files (entries : list (string * bool)) : list string :=
  map fst
    (filter (fun e => snd e && ends_with (Pathlib.lower (fst e)) ".mp4") entries).

Section Driver.

Context {frame : Type}.

(** [cv2.VideoCapture(path)] *)
Variable capture : string -> video frame.

(** The call of the loop body, with the defaults of [extract_frames]. *)
Definition extract_file (raw_data_dir file : string) : outcome frame :=
  extract_frames (capture (raw_data_dir +:+ "/" +:+ file))
    (fst (splitext file)) "raw_images" 5.

(** [for file in mp4_files]: an exception of a call ends the loop. *)
Fixpoint main_loop (raw_data_dir : string) (files : list string)
    (written : list (string * frame)) : outcome frame :=
  match files with
  | [] => (written, None)
  | file :: files' =>
      match extract_file raw_data_dir file with
      | (w, None) => main_loop raw_data_dir files' (written ++ w)
      | (w, Some e) => (written ++ w, Some e)
      end
  end.

Definition main (entries : list (string * bool)) : outcome frame :=
  main_loop "./raw_dataset" (mp4_files entries) [].

End Driver.

End SampleDriver.

(** ** CCNet/tools/run_inference.py: the palette *)

Module CCNetImages.

Import CCNetInference.

Definition CITYSCAPES_COLORS : list (Z * Z * Z) :=
  [ (128, 64, 128); (244, 35, 232); (70, 70, 70); (102, 102, 156);
    (190, 153, 153); (153, 153, 153); (250, 170, 30); (220, 220, 0);
    (107, 142, 35); (152, 251, 152); (70, 130, 180); (220, 20, 60);
    (255, 0, 0); (0, 0, 142); (0, 0, 70); (0, 60, 100); (0, 80, 100);
    (0, 0, 230); (119, 11, 32) ]%Z.

Definition CITYSCAPES_NAMES : list string :=
  [ "road"; "sidewalk"; "building"; "wall"; "fence"; "pole";
    "traffic light"; "traffic sign"; "vegetation"; "terrain"; "sky";
    "person"; "rider"; "car"; "truck"; "bus"; "train"; "motorcycle";
    "bicycle" ].

(** [l[a:b] = vals] for [0 <= a <= b]: the slice is cut to the list, and
    replaced by [vals] whatever their number. *)
Definition set_slice {A : Type} (a b : nat) (vals : list A) (l : list A)
  : list A :=
  take a l ++ vals ++ drop (Nat.max a b) l.

Definition build_palette (num_classes : Z) : list Z :=
  let palette := repeat 0%Z (256 * 3) in
  fold_left
    (fun palette '(idx, (r, g, b)) =>
       let base := (idx * 3)%nat in
       set_slice base (base + 3) [r; g; b] palette)
    (imap (fun idx color => (idx, color)) (slice_to num_classes CITYSCAPES_COLORS))
    palette.

End CCNetImages.

(** ** FasterRCNN/register_custom_dataset.py: [get_dataset_info] *)

Module DatasetInfo.

Import RegisterDataset.

(** The dictionary [get_dataset_info] returns. *)
Record info : Type := mk_info {
  num_images : nat;
  thing_classes : option (list string);
  num_classes : nat
}.

Section Info.

Variable imread : string -> option (nat * nat).
Variable load_coco_json :
  string -> string -> string -> catalogs -> result (list record * catalogs).

(** [MetadataCatalog.get(name)] gives the metadata of any name; the
    attribute [thing_classes] is there when it has been set. *)
Definition get_dataset_info (cat : catalogs) (name : string) : result info :=
  if negb (bool_decide (name ∈ dom (datasets cat))) then Raise ValueError
  else
    got ← catalog_get imread load_coco_json cat name;
    let dataset_dicts := fst got in
    let metadata := thing_classes_of (snd got) !! name in
    Ok (mk_info (length dataset_dicts) metadata
          (match metadata with
           | Some classes => length classes
           | None => 0%nat
           end)).

End Info.

End DatasetInfo.

(** ** FasterRCNN/run_inference.py *)

Module DetectronInference.

Import Pathlib.

(** The choices of [--save-format]. *)
Inductive save_format : Type := png | jpg | jpeg.

Definition format_text (f : save_format) : string :=
  match f with
  | png => "png"
  | jpg => "jpg"
  | jpeg => "jpeg"
  end.

Record args : Type := mk_args {
  image_dir : string;
  output_dir : string;
  format : save_format
}.

(** [resolve_device] *)
Definition resolve_device (cuda_available mps_available : bool)
    (device_name : string) : string :=
  if String.eqb device_name "auto" then
    if cuda_available then "cuda"
    else if mps_available then "mps"
    else "cpu"
  else device_name.

Section RunInference.

(** Whether [cv2.imread] decodes the file. *)
Variable readable : path -> bool.

(** [for image_path in image_files], by the files [cv2.imwrite] is asked
    to write; the predictor and the visualizer are taken to succeed. *)
Fixpoint run_loop (a : args) (files : list path) (written : list path)
  : list path * option exn :=
  match files with
  | [] => (written, None)
  | image_path :: files' =>
      if negb (readable image_path) then run_loop a files' written
      else
        match relative_to image_path (Path (image_dir a)) with
        | Ok rel_path =>
            let stem := stem rel_path in
            let output_path :=
              div (Path (output_dir a))
                (stem +:+ "_detections." +:+ format_text (format a)) in
            run_loop a files' (written ++ [output_path])
        | Raise e => (written, Some e)
        end
  end.

(** [dir_exists] is [image_dir.exists()], [files] what [list_images]
    finds, [setup_ok] whether [setup_config] returns. Registering the
    folder for its metadata is wrapped in [try] and changes no output. *)
Definition run_inference (a : args) (dir_exists : bool) (files : list path)
    (setup_ok : bool) : list path * option exn :=
  if negb dir_exists then ([], Some SystemExit)
  else match files with
       | [] => ([], Some SystemExit)
       | _ => if negb setup_ok then ([], Some SystemExit)
              else run_loop a files []
       end.

End RunInference.

(** The file of the detections of the image [rel] below the image root. *)
Definition detections_path (a : args) (rel : string) : path :=
  let out := Path (output_dir a) in
  mk_path (absolute out)
    (parts out ++ [stem (Path rel) +:+ "_detections." +:+ format_text (format a)]).

End DetectronInference.

(** ** FasterRCNN/train_custom.py *)

Module TrainCustom.

Import RegisterDataset.

(** The exceptions of this script: those of [Py], and the
    [AttributeError] of reading an attribute the namespace does not
    have. *)
Inductive error : Type :=
  | PyError (e : exn)
  | AttributeError.

Inductive outcome (A : Type) : Type :=
  | Done (a : A)
  | Failed (e : error).
Arguments Done {A} a.
Arguments Failed {A} e.

(** What [parse_args] returns; an option that was not given is
    [None]. *)
Record args : Type := mk_args {
  train_json : string;
  train_images : string;
  val_json : option string;
  val_images : option string;
  output_dir : string;
  num_classes : Z;
  thing_classes : option (list string);
  weights : option string;
  max_iter : Z
}.

(** The namespace with the two attributes [main] adds to it; an
    attribute that has not been set is [None]. *)
Record namespace : Type := mk_namespace {
  parsed : args;
  train_dataset_name : option string;
  val_dataset_name : option string
}.

(** The truth value of an optional string: given, and not empty. *)
Definition truthy (s : option string) : bool :=
  match s with
  | Some s' => negb (String.eqb s' "")
  | None => false
  end.

(** [register_custom_coco_dataset] (register_custom_dataset.py):
    [register_coco_instances] registers the loader under the name, then the
    classes are set when a non-empty list is given. *)
Definition register_custom_coco_dataset (cat : catalogs) (name : string)
    (json_file image_root : string) (thing_classes : option (list string))
  : result catalogs :=
  cat ← catalog_register cat name (CocoInstances json_file image_root);
  match thing_classes with
  | Some (c :: cs) => set_thing_classes cat name (c :: cs)
  | _ => Ok cat
  end.

(** The entries of the configuration that [setup_config] sets; [TEST] and
    [WEIGHTS] are [None] when they are left as the configuration file, or
    the model zoo, has them. *)
Record cfg : Type := mk_cfg {
  DATASETS_TRAIN : list string;
  DATASETS_TEST : option (list string);
  NUM_CLASSES : Z;
  WEIGHTS : option string;
  MAX_ITER : Z;
  STEPS : Z * Z;
  OUTPUT_DIR : string
}.

Definition setup_config (ns : namespace) : outcome cfg :=
  let a := parsed ns in
  match train_dataset_name ns with
  | None => Failed AttributeError
  | Some train_name =>
      let finish := fun test =>
        Done (mk_cfg [train_name] test (num_classes a)
                (if truthy (weights a) then weights a else None)
                (max_iter a)
                (Sample.int_of_float (inject_Z (max_iter a) * (6 # 10)),
                 Sample.int_of_float (inject_Z (max_iter a) * (8 # 10)))
                (output_dir a)) in
      if truthy (val_json a) then
        match val_dataset_name ns with
        | None => Failed AttributeError
        | Some val_name => finish (Some [val_name])
        end
      else finish None
  end.

Definition lift {A : Type} (r : result A) : outcome A :=
  match r with
  | Ok a => Done a
  | Raise e => Failed (PyError e)
  end.

(** [main] up to the configuration it hands to [DefaultTrainer]. *)
Definition main (cat : catalogs) (a : args) : outcome (catalogs * cfg) :=
  let ns := mk_namespace a (Some "custom_train") None in
  match lift (register_custom_coco_dataset cat "custom_train" (train_json a)
                (train_images a) (thing_classes a)) with
  | Failed e => Failed e
  | Done cat =>
      let registered :=
        match val_json a, val_images a with
        | Some json_file, Some image_root =>
            if truthy (val_json a) && truthy (val_images a) then
              match lift (register_custom_coco_dataset cat "custom_val"
                            json_file image_root (thing_classes a)) with
              | Done cat =>
                  Done (cat, mk_namespace a (train_dataset_name ns)
                               (Some "custom_val"))
              | Failed e => Failed e
              end
            else Done (cat, ns)
        | _, _ => Done (cat, ns)
        end in
      match registered with
      | Failed e => Failed e
      | Done (cat, ns) =>
          match setup_config ns with
          | Done c => Done (cat, c)
          | Failed e => Failed e
          end
      end
  end.

End TrainCustom.

(** ** FasterRCNN/download_model.py: the progress bar *)

Module DownloadModel.

(** [c * n] for a one-character string: empty when [n] is not positive. *)
Definition str_repeat (c : ascii) (n : Z) : string :=
  string_of_list_ascii (repeat c (Z.to_nat n)).

(** [show_progress], the hook given to [urlretrieve], by the bar and the
    percentage it prints. *)
Definition show_progress (block_num block_size total_size : Z)
  : result (string * Q) :=
  let downloaded := (block_num * block_size)%Z in
  if (total_size =? 0)%Z then Raise ZeroDivisionError
  else
    let percent := Qmin (Double.true_div (downloaded * 100) total_size) 100 in
    let bar_length := 40%Z in
    let filled :=
      Sample.int_of_float (Double.true_div (bar_length * downloaded) total_size) in
    let bar := str_repeat "=" filled +:+ str_repeat "-" (bar_length - filled) in
    Ok (bar, percent).

End DownloadModel.

(** ** FasterRCNN/run_inference.py: the metadata of a run *)

Module DetectronMetadata.

Import Pathlib RegisterDataset DatasetInfo.

Section Metadata.

Variable imread : string -> option (nat * nat).
Variable load_coco_json :
  string -> string -> string -> catalogs -> result (list record * catalogs).

(** [except Exception]: every exception of [exn] but [SystemExit]. *)
Definition is_Exception (e : exn) : bool :=
  match e with
  | SystemExit => false
  | _ => true
  end.

(** The [try] block that registers the image folder, and
    [MetadataCatalog.get(dataset_name)] after it: the [dataset_name] the
    run goes on with, and the [thing_classes] of its metadata, if it has
    any. [dataset] is [args.dataset]. *)
Definition run_metadata (cat : catalogs) (dataset : string)
    (dir_exists : bool) (found : list (path * bool))
  : result (string * option (list string)) :=
  let dataset_name := "custom_inference_" +:+ dataset in
  let registered :=
    cat ← register_image_folder_dataset cat dataset_name dir_exists found None;
    dataset_info ← get_dataset_info imread load_coco_json cat dataset_name;
    Ok cat in
  match registered with
  | Ok cat => Ok (dataset_name, thing_classes_of cat !! dataset_name)
  | Raise e =>
      if is_Exception e then Ok (dataset, thing_classes_of cat !! dataset)
      else Raise e
  end.

End Metadata.

End DetectronMetadata.

(** * Properties *)

(** ** Rounding to the nearest double *)

Section DoubleFacts.

Import Double.

Lemma round_half_even_comp (x y : Q) :
  (x == y)%Q -> round_half_even x = round_half_even y.
Proof.
  intros H. unfold round_half_even. rewrite (Qfloor_comp _ _ H).
  assert (x - inject_Z (Qfloor y) == y - inject_Z (Qfloor y))%Q as ->
    by (rewrite H; reflexivity).
  reflexivity.
Qed.

Lemma round_half_even_Z (n : Z) : round_half_even (inject_Z n) = n.
Proof.
  unfold round_half_even. rewrite Qfloor_Z.
  assert (inject_Z n - inject_Z n == 0)%Q as -> by ring.
  reflexivity.
Qed.

(** Rounding moves a number by at most one half. *)
Lemma round_half_even_near (x : Q) :
  (x - (1 # 2) <= inject_Z (round_half_even x))%Q /\
  (inject_Z (round_half_even x) <= x + (1 # 2))%Q.
Proof.
  unfold round_half_even.
  pose proof (Qfloor_le x) as Hlo. pose proof (Qlt_floor x) as Hhi.
  set (f := Qfloor x) in *.
  rewrite inject_Z_plus in Hhi. change (inject_Z 1) with 1%Q in Hhi.
  assert (forall b : bool, (x - inject_Z f == 1 # 2)%Q ->
            (x - (1 # 2) <= inject_Z (if b then f else (f + 1)%Z))%Q /\
            (inject_Z (if b then f else (f + 1)%Z) <= x + (1 # 2))%Q) as Htie.
  { intros b Heq. destruct b; rewrite ?inject_Z_plus;
      change (inject_Z 1) with 1%Q in *; split; lra. }
  destruct (Qcompare (x - inject_Z f) (1 # 2)) eqn:Hc.
  - apply Qeq_alt in Hc. apply Htie, Hc.
  - apply Qlt_alt in Hc. split; lra.
  - apply Qgt_alt in Hc. rewrite inject_Z_plus.
    change (inject_Z 1) with 1%Q. split; lra.
Qed.

(** A number less than one half away from an integer rounds to it. *)
Lemma round_half_even_unique (x : Q) (n : Z) :
  (inject_Z n - (1 # 2) < x)%Q -> (x < inject_Z n + (1 # 2))%Q ->
  round_half_even x = n.
Proof.
  intros Hlo Hhi. destruct (round_half_even_near x) as [Hr1 Hr2].
  assert (n + -1 < round_half_even x < n + 1)%Z; [|lia].
  rewrite !Zlt_Qlt, !inject_Z_plus.
  change (inject_Z 1) with 1%Q. change (inject_Z (-1)) with (-(1))%Q.
  split; lra.
Qed.

Lemma pow2_pos (e : Z) : (0 < pow2 e)%Q.
Proof. apply Qpower_0_lt. reflexivity. Qed.

Lemma pow2_add (a b : Z) : (pow2 (a + b) == pow2 a * pow2 b)%Q.
Proof. apply Qpower_plus. discriminate. Qed.

Lemma pow2_Z (e : Z) : (0 <= e)%Z -> (pow2 e == inject_Z (2 ^ e))%Q.
Proof. intros He. symmetry. apply (Zpower_Qpower 2 e He). Qed.

Lemma pow2_le (a b : Z) : (a <= b)%Z -> (pow2 a <= pow2 b)%Q.
Proof. intros H. apply Qpower_le_compat_l; [exact H|discriminate]. Qed.

Lemma pow2_lt (a b : Z) : (a < b)%Z -> (pow2 a < pow2 b)%Q.
Proof. intros H. apply Qpower_lt_compat_l; [exact H|reflexivity]. Qed.

Lemma pow2_succ (e : Z) : (pow2 (e + 1) == 2 * pow2 e)%Q.
Proof. rewrite pow2_add. change (pow2 1) with 2%Q. ring. Qed.

(** The leading bit of a positive number. *)
Lemma ilog2_spec (x : Q) :
  (0 < x)%Q -> (pow2 (ilog2 x) <= x)%Q /\ (x < pow2 (ilog2 x + 1))%Q.
Proof.
  intros Hx. unfold ilog2.
  destruct x as [n d]. cbn [Qnum Qden].
  assert (0 < n)%Z as Hn by (unfold Qlt in Hx; cbn in Hx; lia).
  set (a := Z.log2 n). set (b := Z.log2 (Z.pos d)).
  destruct (Z.log2_spec n Hn) as [Ha1 Ha2]. fold a in Ha1, Ha2.
  destruct (Z.log2_spec (Z.pos d) ltac:(lia)) as [Hb1 Hb2]. fold b in Hb1, Hb2.
  assert (0 <= a)%Z as Ha0 by apply Z.log2_nonneg.
  assert (0 <= b)%Z as Hb0 by apply Z.log2_nonneg.
  assert (n # d == inject_Z n / inject_Z (Z.pos d))%Q as Hnd
    by (rewrite Qmake_Qdiv; reflexivity).
  assert (0 < inject_Z (Z.pos d))%Q as HdQ by reflexivity.
  pose proof (pow2_pos a) as Hpa. pose proof (pow2_pos b) as Hpb.
  assert (pow2 a <= inject_Z n)%Q as Qa1
    by (rewrite pow2_Z by lia; rewrite <- Zle_Qle; exact Ha1).
  assert (inject_Z n < 2 * pow2 a)%Q as Qa2.
  { rewrite <- pow2_succ, pow2_Z by lia. rewrite <- Zlt_Qlt. exact Ha2. }
  assert (pow2 b <= inject_Z (Z.pos d))%Q as Qb1
    by (rewrite pow2_Z by lia; rewrite <- Zle_Qle; exact Hb1).
  assert (inject_Z (Z.pos d) < 2 * pow2 b)%Q as Qb2.
  { rewrite <- pow2_succ, pow2_Z by lia. rewrite <- Zlt_Qlt. exact Hb2. }
  assert (pow2 (a - b) * pow2 b == pow2 a)%Q as Hab.
  { rewrite <- pow2_add. replace (a - b + b)%Z with a by lia. reflexivity. }
  pose proof (pow2_pos (a - b)) as Hpab.
  set (x := (n # d)%Q) in *.
  assert (x * inject_Z (Z.pos d) == inject_Z n)%Q as Hxd
    by (rewrite Hnd; field; lra).
  assert (0 < x)%Q as Hx0 by exact Hx.
  destruct (Qle_bool (pow2 (a - b)) x) eqn:Hcmp.
  - apply Qle_bool_iff in Hcmp. split; [exact Hcmp|].
    rewrite pow2_succ.
    (* x * d = n < 2 * 2^a = 2 * 2^(a-b) * 2^b <= 2 * 2^(a-b) * d *)
    apply Qnot_le_lt. intros Hge.
    assert (2 * pow2 (a - b) * inject_Z (Z.pos d) <= x * inject_Z (Z.pos d))%Q
      by (apply Qmult_le_compat_r; lra).
    assert (2 * pow2 (a - b) * pow2 b <= 2 * pow2 (a - b) * inject_Z (Z.pos d))%Q
      by (apply Qmult_le_l; lra).
    nra.
  - assert (x < pow2 (a - b))%Q as Hlt.
    { apply Qnot_le_lt. intros Hle. apply Qle_bool_iff in Hle. congruence. }
    replace (a - b - 1 + 1)%Z with (a - b)%Z by lia.
    split; [|exact Hlt].
    assert (pow2 (a - b) == 2 * pow2 (a - b - 1))%Q as H2
      by (rewrite <- pow2_succ; replace (a - b - 1 + 1)%Z with (a - b)%Z by lia;
          reflexivity).
    (* 2^(a-b-1) * 2 * 2^b = 2^a <= n = x * d < x * 2 * 2^b *)
    apply Qnot_lt_le. intros Hlt'.
    assert (x * inject_Z (Z.pos d) < pow2 (a - b - 1) * inject_Z (Z.pos d))%Q
      by (apply Qmult_lt_compat_r; lra).
    pose proof (pow2_pos (a - b - 1)).
    assert (pow2 (a - b - 1) * inject_Z (Z.pos d)
            <= pow2 (a - b - 1) * (2 * pow2 b))%Q
      by (apply Qmult_le_l; lra).
    nra.
Qed.

Lemma ilog2_unique (x : Q) (e : Z) :
  (pow2 e <= x)%Q -> (x < pow2 (e + 1))%Q -> ilog2 x = e.
Proof.
  intros Hlo Hhi.
  assert (0 < x)%Q as Hx by (pose proof (pow2_pos e); lra).
  destruct (ilog2_spec x Hx) as [Hlo' Hhi'].
  destruct (Z_lt_le_dec (ilog2 x) e) as [Hlt|Hge].
  - exfalso. pose proof (pow2_le (ilog2 x + 1) e ltac:(lia)). lra.
  - destruct (Z_lt_le_dec e (ilog2 x)) as [Hlt|Hle]; [|lia].
    exfalso. pose proof (pow2_le (e + 1) (ilog2 x) ltac:(lia)). lra.
Qed.

Lemma ilog2_comp (x y : Q) : (x == y)%Q -> (0 < x)%Q -> ilog2 x = ilog2 y.
Proof.
  intros Heq Hx. destruct (ilog2_spec x Hx) as [Hlo Hhi].
  symmetry. apply ilog2_unique; rewrite <- Heq; assumption.
Qed.

Lemma quantum_pos (x : Q) : (0 < quantum x)%Q.
Proof. apply pow2_pos. Qed.

Lemma quantum_comp (x y : Q) : (x == y)%Q -> ~ (x == 0)%Q -> quantum x = quantum y.
Proof.
  intros Heq Hx. unfold quantum. do 3 f_equal.
  apply ilog2_comp; [rewrite Heq; reflexivity|].
  destruct (Qlt_le_dec 0 (Qabs x)) as [|Hle]; [assumption|].
  exfalso. apply Hx. pose proof (Qabs_nonneg x).
  assert (Qabs x == 0)%Q as H0 by lra.
  destruct (Qabs_Qle_condition x 0) as [Hc _].
  destruct (Hc ltac:(lra)). lra.
Qed.

(** Rounding is a function of the number, not of the fraction that
    denotes it. *)
Lemma nearest_comp (x y : Q) : (x == y)%Q -> nearest x = nearest y.
Proof.
  intros Heq. unfold nearest.
  destruct (Qeq_bool x 0) eqn:Hx.
  - apply Qeq_bool_eq in Hx.
    rewrite (Qeq_eq_bool y 0 (Qeq_trans _ _ _ (Qeq_sym _ _ Heq) Hx)).
    reflexivity.
  - assert (~ (x == 0)%Q) as Hx' by (intros H; apply Qeq_eq_bool in H; congruence).
    assert (Qeq_bool y 0 = false) as ->.
    { destruct (Qeq_bool y 0) eqn:Hy; [|reflexivity].
      apply Qeq_bool_eq in Hy. exfalso. apply Hx'.
      exact (Qeq_trans _ _ _ Heq Hy). }
    rewrite <- (quantum_comp x y Heq Hx').
    apply Qred_complete.
    rewrite (round_half_even_comp (x / quantum x) (y / quantum x))
      by (unfold Qdiv; apply Qmult_comp; [exact Heq|reflexivity]).
    reflexivity.
Qed.

(** A result is at most half the distance between doubles away from the
    number rounded. *)
Lemma nearest_error (x : Q) :
  (Qabs (nearest x - x) <= quantum x * (1 # 2))%Q.
Proof.
  pose proof (quantum_pos x) as Hq. unfold nearest.
  destruct (Qeq_bool x 0) eqn:Hx.
  - apply Qeq_bool_eq in Hx.
    assert (0 - x == 0)%Q as -> by (rewrite Hx; ring).
    change (Qabs 0) with 0%Q. lra.
  - rewrite Qred_correct.
    destruct (round_half_even_near (x / quantum x)) as [Hlo Hhi].
    set (r := inject_Z (round_half_even (x / quantum x))) in *.
    assert (x / quantum x * quantum x == x)%Q as Hxq by (field; lra).
    apply Qabs_Qle_condition. split.
    + assert ((x / quantum x - (1 # 2)) * quantum x <= r * quantum x)%Q
        by (apply Qmult_le_compat_r; lra).
      nra.
    + assert (r * quantum x <= (x / quantum x + (1 # 2)) * quantum x)%Q
        by (apply Qmult_le_compat_r; lra).
      nra.
Qed.

Lemma Qabs_pos_lt (x : Q) : ~ (x == 0)%Q -> (0 < Qabs x)%Q.
Proof.
  intros Hx. destruct (Qlt_le_dec 0 (Qabs x)) as [|Hle]; [assumption|].
  exfalso. apply Hx.
  destruct (Qabs_Qle_condition x 0) as [Hc _].
  destruct (Hc Hle). lra.
Qed.

(** In the normal range the distance between doubles is at most
    [2^-52] of the number. *)
Lemma quantum_normal (x : Q) :
  (pow2 (-1022) <= Qabs x)%Q -> (quantum x <= Qabs x * pow2 (-52))%Q.
Proof.
  intros Hx.
  assert (0 < Qabs x)%Q as Hpos by (pose proof (pow2_pos (-1022)); lra).
  destruct (ilog2_spec (Qabs x) Hpos) as [Hlo Hhi].
  assert (-1022 <= ilog2 (Qabs x))%Z as He.
  { destruct (Z_lt_le_dec (ilog2 (Qabs x)) (-1022)) as [Hlt|]; [|assumption].
    exfalso. pose proof (pow2_le (ilog2 (Qabs x) + 1) (-1022) ltac:(lia)). lra. }
  unfold quantum. rewrite Z.max_l by exact He.
  replace (ilog2 (Qabs x) - 52)%Z with (ilog2 (Qabs x) + -52)%Z by lia.
  rewrite pow2_add. pose proof (pow2_pos (-52)).
  apply Qmult_le_compat_r; lra.
Qed.

(** The relative error of an operation in the normal range. *)
Lemma nearest_rel (x : Q) :
  (pow2 (-1022) <= Qabs x)%Q ->
  (Qabs (nearest x - x) <= Qabs x * pow2 (-53))%Q.
Proof.
  intros Hx. pose proof (nearest_error x) as He.
  pose proof (quantum_normal x Hx) as Hq.
  assert (pow2 (-52) * (1 # 2) == pow2 (-53))%Q as H53 by reflexivity.
  rewrite <- H53. lra.
Qed.

Lemma ilog2_upper (y : Q) (e : Z) :
  (0 <= e)%Z -> (y < pow2 e)%Q -> (ilog2 y < e)%Z.
Proof.
  intros He Hy. destruct (Qlt_le_dec 0 y) as [Hpos|Hneg].
  - destruct (ilog2_spec y Hpos) as [Hlo _].
    destruct (Z_lt_le_dec (ilog2 y) e) as [|Hge]; [assumption|].
    exfalso. pose proof (pow2_le e (ilog2 y) Hge). lra.
  - unfold ilog2.
    assert (Qnum y <= 0)%Z as Hn
      by (unfold Qle in Hneg; cbn in Hneg; lia).
    rewrite (Z.log2_nonpos (Qnum y) Hn).
    pose proof (Z.log2_nonneg (Z.pos (Qden y))).
    destruct (Qle_bool _ y) eqn:Hc; [|lia].
    exfalso. apply Qle_bool_iff in Hc.
    pose proof (pow2_pos (0 - Z.log2 (Z.pos (Qden y)))). lra.
Qed.

(** Below [2^53] neighbouring doubles are at most 1 apart. *)
Lemma quantum_le_1 (x : Q) : (Qabs x < pow2 53)%Q -> (quantum x <= 1)%Q.
Proof.
  intros Hx. unfold quantum. change 1%Q with (pow2 0). apply pow2_le.
  pose proof (ilog2_upper (Qabs x) 53 ltac:(lia) Hx). lia.
Qed.

(** A number that is a whole multiple of the distance between doubles
    around it is a double. *)
Lemma nearest_multiple (x : Q) (k : Z) :
  (x == inject_Z k * quantum x)%Q -> nearest x = Qred x.
Proof.
  intros Hk. unfold nearest. pose proof (quantum_pos x) as Hq.
  destruct (Qeq_bool x 0) eqn:Hx.
  - apply Qeq_bool_eq in Hx. symmetry. apply (Qred_complete x 0 Hx).
  - apply Qred_complete.
    rewrite (round_half_even_comp (x / quantum x) (inject_Z k)).
    + rewrite round_half_even_Z. symmetry. exact Hk.
    + rewrite Hk at 1. field. lra.
Qed.

Lemma Qred_inject_Z (n : Z) : Qred (inject_Z n) = inject_Z n.
Proof.
  apply Qcanon.Qred_identity. cbn. apply Z.gcd_1_r.
Qed.

(** The integers up to [2^53] are doubles. *)
Lemma nearest_int (n : Z) :
  (Z.abs n <= 2 ^ 53)%Z -> nearest (inject_Z n) = inject_Z n.
Proof.
  intros Hn. destruct (Z.eq_dec n 0%Z) as [->|Hne]; [reflexivity|].
  set (x := inject_Z n).
  assert (Qabs x == inject_Z (Z.abs n))%Q as Habs by reflexivity.
  assert (1 <= Qabs x)%Q as H1.
  { rewrite Habs. change 1%Q with (inject_Z 1). rewrite <- Zle_Qle. lia. }
  assert (0 < Qabs x)%Q as Hpos by lra.
  destruct (ilog2_spec (Qabs x) Hpos) as [Hlo Hhi].
  set (e := ilog2 (Qabs x)) in *.
  assert (0 <= e)%Z as He0.
  { destruct (Z_lt_le_dec e 0) as [Hlt|]; [|assumption].
    exfalso. pose proof (pow2_le (e + 1) 0 ltac:(lia)) as H.
    change (pow2 0) with 1%Q in H. lra. }
  assert (e <= 53)%Z as He53.
  { destruct (Z_lt_le_dec 53 e) as [Hlt|]; [|lia].
    exfalso. pose proof (pow2_le 54 e ltac:(lia)) as H.
    assert (Qabs x <= pow2 53)%Q.
    { rewrite Habs, pow2_Z by lia. rewrite <- Zle_Qle. exact Hn. }
    pose proof (pow2_lt 53 54 ltac:(lia)). lra. }
  assert (quantum x = pow2 (e - 52)) as Hq
    by (unfold quantum; fold e; rewrite Z.max_l by lia; reflexivity).
  transitivity (Qred x); [|apply Qred_inject_Z].
  destruct (Z_le_gt_dec e 52) as [Hle|Hgt].
  - apply (nearest_multiple x (n * 2 ^ (52 - e))).
    rewrite Hq, inject_Z_mult, <- pow2_Z by lia.
    rewrite <- Qmult_assoc, <- pow2_add.
    replace (52 - e + (e - 52))%Z with 0%Z by lia.
    change (pow2 0) with 1%Q. unfold x. ring.
  - assert (e = 53%Z) as He by lia.
    assert (Z.abs n = 2 ^ 53)%Z as Hn53.
    { assert (2 ^ 53 <= Z.abs n)%Z; [|lia].
      rewrite Zle_Qle, <- pow2_Z by lia. rewrite <- Habs, <- He. exact Hlo. }
    apply (nearest_multiple x (n / 2)).
    rewrite Hq, He. change (pow2 (53 - 52)) with 2%Q.
    unfold x. change 2%Q with (inject_Z 2). rewrite <- inject_Z_mult.
    apply inject_Z_injective.
    destruct (Z.abs_spec n) as [[_ Hs]|[_ Hs]]; rewrite Hs in Hn53.
    + rewrite Hn53. reflexivity.
    + replace n with (- 2 ^ 53)%Z by lia. reflexivity.
Qed.

(** Rounding keeps the sign. *)
Lemma nearest_nonneg (x : Q) : (0 <= x)%Q -> (0 <= nearest x)%Q.
Proof.
  intros Hx. unfold nearest. pose proof (quantum_pos x) as Hq.
  destruct (Qeq_bool x 0); [lra|].
  rewrite Qred_correct.
  destruct (round_half_even_near (x / quantum x)) as [Hlo _].
  assert (0 <= x / quantum x)%Q as Hy
    by (apply Qle_shift_div_l; [exact Hq|lra]).
  assert (0 <= round_half_even (x / quantum x))%Z as Hr.
  { assert (-1 < round_half_even (x / quantum x))%Z; [|lia].
    rewrite Zlt_Qlt. change (inject_Z (-1)) with (-(1))%Q. lra. }
  apply Qmult_le_0_compat; [|lra].
  change 0%Q with (inject_Z 0). rewrite <- Zle_Qle. exact Hr.
Qed.

Local Notation "'u53'" := (1 # 9007199254740992)%Q.

Lemma normal_of_small (x : Q) :
  ((1 # 4194304) <= x)%Q -> (pow2 (-1022) <= x)%Q.
Proof.
  intros H. apply Qle_trans with (1 # 4194304)%Q; [|exact H].
  apply Qle_bool_iff. vm_compute. reflexivity.
Qed.

(** The relative error of rounding a positive number of the normal
    range. *)
Lemma nearest_bounds (x : Q) :
  (pow2 (-1022) <= x)%Q ->
  (x * (1 - u53) <= nearest x)%Q /\ (nearest x <= x * (1 + u53))%Q.
Proof.
  intros Hx. pose proof (pow2_pos (-1022)) as Hp.
  assert (Qabs x == x)%Q as Habs by (apply Qabs_pos; lra).
  assert (pow2 (-1022) <= Qabs x)%Q as Hx' by (rewrite Habs; exact Hx).
  pose proof (nearest_rel x Hx') as H.
  assert (pow2 (-53) == u53)%Q as Hu by (apply Qeq_bool_iff; vm_compute; reflexivity).
  rewrite Habs, Hu in H. apply Qabs_Qle_condition in H as [H1 H2]. split; lra.
Qed.

Lemma inject_Z_pos (x : Z) : (0 < x)%Z -> (0 < inject_Z x)%Q.
Proof. intros H. change 0%Q with (inject_Z 0). rewrite <- Zlt_Qlt. exact H. Qed.

Lemma of_int_exact (n : Z) :
  (Z.abs n <= 2 ^ 53)%Z -> Double.of_int n = inject_Z n.
Proof. apply nearest_int. Qed.

(** [int(n / d)] for two non-negative ints below [2 ^ 53]: rounding the
    quotient does not reach the next integer, and the result is [n // d]. *)
Lemma floor_true_div (n d : Z) :
  (0 <= n < 2 ^ 53)%Z -> (0 < d < 2 ^ 53)%Z ->
  (0 <= true_div n d)%Q /\ Qfloor (true_div n d) = (n / d)%Z.
Proof.
  intros Hn Hd. unfold true_div.
  pose proof (inject_Z_pos d ltac:(lia)) as HdQ.
  assert (0 <= inject_Z n)%Q as HnQ
    by (change 0%Q with (inject_Z 0); rewrite <- Zle_Qle; lia).
  assert (0 <= inject_Z n / inject_Z d)%Q as Hq0
    by (apply Qle_shift_div_l; [exact HdQ|lra]).
  split; [apply nearest_nonneg, Hq0|].
  pose proof (Z.div_mod n d ltac:(lia)) as Hdiv.
  pose proof (Z.mod_pos_bound n d ltac:(lia)) as Hmod.
  pose proof (Z.div_pos n d ltac:(lia) ltac:(lia)) as Hk0.
  assert (n / d <= n)%Z as Hkn by (apply Z.div_le_upper_bound; nia).
  set (k := (n / d)%Z) in *. set (r := (n mod d)%Z) in *.
  assert (inject_Z n == inject_Z d * inject_Z k + inject_Z r)%Q as HnQ'
    by (rewrite <- inject_Z_mult, <- inject_Z_plus, <- Hdiv; reflexivity).
  destruct (Z.eq_dec r 0%Z) as [Hr|Hr].
  - rewrite (nearest_comp _ (inject_Z k)).
    + rewrite nearest_int by lia. apply Qfloor_Z.
    + rewrite HnQ', Hr. field. lra.
  - set (q := (inject_Z n / inject_Z d)%Q) in *.
    assert (1 <= inject_Z r)%Q as Hr1
      by (change 1%Q with (inject_Z 1); rewrite <- Zle_Qle; lia).
    assert (inject_Z r + 1 <= inject_Z d)%Q as Hr2.
    { change 1%Q with (inject_Z 1). rewrite <- inject_Z_plus, <- Zle_Qle. lia. }
    assert (inject_Z d <= 9007199254740992)%Q as Hd2.
    { change 9007199254740992%Q with (inject_Z (2 ^ 53)).
      rewrite <- Zle_Qle. lia. }
    assert (inject_Z n <= 9007199254740992 - 1)%Q as Hn2.
    { change (9007199254740992 - 1)%Q with (inject_Z (2 ^ 53) + inject_Z (- (1)))%Q.
      rewrite <- inject_Z_plus, <- Zle_Qle. lia. }
    assert (1 <= inject_Z n)%Q as Hn1
      by (change 1%Q with (inject_Z 1); rewrite <- Zle_Qle; nia).
    assert (q * inject_Z d == inject_Z n)%Q as Hqd by (unfold q; field; lra).
    assert (u53 <= q)%Q as Hqlo by (unfold q; apply Qle_shift_div_l; lra).
    destruct (nearest_bounds q) as [Hlo Hhi].
    { apply Qle_trans with u53; [|exact Hqlo].
      apply Qle_bool_iff. vm_compute. reflexivity. }
    set (y := nearest q) in *.
    assert (inject_Z k <= y)%Q as Hky.
    { apply Qmult_le_r with (inject_Z d); [exact HdQ|].
      apply Qle_trans with (q * (1 - u53) * inject_Z d)%Q.
      - assert (q * (1 - u53) * inject_Z d == inject_Z n * (1 - u53))%Q as ->
          by (rewrite <- Hqd; ring).
        lra.
      - apply Qmult_le_compat_r; lra. }
    assert (y < inject_Z k + 1)%Q as Hyk.
    { apply Qmult_lt_r with (inject_Z d); [exact HdQ|].
      apply Qle_lt_trans with (q * (1 + u53) * inject_Z d)%Q.
      - apply Qmult_le_compat_r; lra.
      - assert (q * (1 + u53) * inject_Z d == inject_Z n * (1 + u53))%Q as ->
          by (rewrite <- Hqd; ring).
        lra. }
    apply Z.le_antisymm.
    + assert (Qfloor y < k + 1)%Z; [|lia].
      rewrite Zlt_Qlt, inject_Z_plus. change (inject_Z 1) with 1%Q.
      apply Qle_lt_trans with y; [apply Qfloor_le|exact Hyk].
    + rewrite <- (Qfloor_Z k). apply Qfloor_resp_le, Hky.
Qed.

End DoubleFacts.

(** ** Checkpoint loading: the key remapping *)

Section LoadModelFacts.

Import PytUtils.

Variable model_state : gmap string tensor.
Variable v : tensor.

Lemma try_pattern_Some parts i head part new_key :
  try_pattern model_state v parts i head part = Some new_key ->
  head part = true /\
  (exists next_part,
      parts !! (i + 1)%nat = Some next_part /\ mem next_part bn_params = true) /\
  new_key = insert_zero parts i /\ fits model_state new_key v = true.
Proof.
  unfold try_pattern.
  destruct (head part); cbn [andb]; [|discriminate].
  destruct (i + 1 <? length parts)%nat; [|discriminate].
  destruct (parts !! (i + 1)%nat) as [next_part|] eqn:Hnext; [|discriminate].
  destruct (mem next_part bn_params) eqn:Hmem; [|discriminate].
  destruct (fits model_state (insert_zero parts i) v) eqn:Hfit; [|discriminate].
  intros [= <-]. repeat split; eauto.
Qed.

Lemma try_pattern_None parts i head part next_part :
  try_pattern model_state v parts i head part = None ->
  head part = true ->
  parts !! (i + 1)%nat = Some next_part ->
  mem next_part bn_params = true ->
  fits model_state (insert_zero parts i) v = false.
Proof.
  unfold try_pattern. intros H Hhead Hnext Hmem.
  pose proof (lookup_lt_Some _ _ _ Hnext) as Hlt.
  apply Nat.ltb_lt in Hlt.
  rewrite Hhead, Hlt, Hnext, Hmem in H. cbn [andb] in H.
  destruct (fits model_state (insert_zero parts i) v); [discriminate|reflexivity].
Qed.

(** What the scan from position [i] finds: the first eligible position
    whose rewritten key fits the model, or nothing when there is none. *)
Lemma scan_parts_first parts :
  forall todo i, drop i parts = todo ->
    match scan_parts model_state v parts i todo with
    | Some new_key =>
        exists j, (i <= j)%nat /\ eligible parts j /\
          new_key = insert_zero parts j /\
          fits model_state new_key v = true /\
          (forall j', (i <= j' < j)%nat -> eligible parts j' ->
             fits model_state (insert_zero parts j') v = false)
    | None =>
        forall j, (i <= j)%nat -> eligible parts j ->
          fits model_state (insert_zero parts j) v = false
    end.
Proof.
  induction todo as [|part todo' IH]; intros i Hdrop; cbn [scan_parts].
  - intros j Hij (p & n & Hp & _).
    apply lookup_lt_Some in Hp.
    assert (length (drop i parts) = 0%nat) as Hlen by (rewrite Hdrop; reflexivity).
    rewrite length_drop in Hlen. lia.
  - assert (parts !! i = Some part) as Hpart.
    { rewrite <- (Nat.add_0_r i), <- lookup_drop. rewrite Hdrop. reflexivity. }
    assert (drop (i + 1) parts = todo') as Hdrop'.
    { rewrite <- drop_drop, Hdrop. reflexivity. }
    destruct (try_pattern model_state v parts i (fun p => mem p bn_names) part)
      as [k1|] eqn:H1.
    { apply try_pattern_Some in H1 as (Hh & (n & Hn & Hm) & -> & Hfit).
      exists i. split; [lia|]. split; [exists part, n; auto|].
      repeat split; auto. intros; lia. }
    destruct (try_pattern model_state v parts i isdigit part) as [k2|] eqn:H2.
    { apply try_pattern_Some in H2 as (Hh & (n & Hn & Hm) & -> & Hfit).
      exists i. split; [lia|]. split; [exists part, n; auto|].
      repeat split; auto. intros; lia. }
    assert (eligible parts i -> fits model_state (insert_zero parts i) v = false)
      as Hhere.
    { intros (p & n & Hp & Hn & Hhead & Hm).
      rewrite Hpart in Hp. injection Hp as <-.
      destruct Hhead as [Hbn|Hdig].
      - eapply try_pattern_None; [exact H1| | |]; eauto.
      - eapply try_pattern_None; [exact H2| | |]; eauto. }
    specialize (IH (i + 1)%nat Hdrop').
    destruct (scan_parts model_state v parts (i + 1) todo') as [k|].
    + destruct IH as (j & Hij & Hel & -> & Hfit & Hfirst).
      exists j. split; [lia|]. do 3 (split; [auto|]).
      intros j' Hj' Hel'.
      destruct (decide (j' = i)) as [->|Hne]; [auto|].
      apply Hfirst; [lia|auto].
    + intros j Hij Hel.
      destruct (decide (j = i)) as [->|Hne]; [auto|].
      apply IH; [lia|auto].
Qed.

(** Later entries that are stored under other keys leave a key as it
    is. *)
Lemma remap_fold_other (key : string) (state_dict : list (string * tensor)) :
  forall remapped_state_dict : gmap string tensor,
    Forall (fun kv => remap_key model_state (fst kv) (snd kv) <> key) state_dict ->
    fold_left (remap_entry model_state) state_dict remapped_state_dict !! key
    = remapped_state_dict !! key.
Proof.
  induction state_dict as [|kv state_dict IH]; intros remapped Hother;
    [reflexivity|].
  inversion Hother as [|? ? Hkv Hrest]; subst. cbn [fold_left].
  rewrite (IH _ Hrest). unfold remap_entry. apply lookup_insert_ne, Hkv.
Qed.

(** C2. A checkpoint key that is not in the model with the value's shape is
    stored under the rewritten key of the first eligible position (a
    [bn1]/[bn2]/[bn3] or numeric segment followed by a normalization
    parameter suffix, with a ['0'] segment inserted after it) whose
    rewritten key is in the model with equal shape; when no position gives
    such a key, it is stored under the original key. The mapping handed to
    the model holds the value under that key, unless a later entry of the
    checkpoint is stored under the same key. *)
Theorem load_model_remaps_first_fitting_key
    (remapped_state_dict : gmap string tensor) (k : string) :
  fits model_state k v = false ->
  let parts := split "." k in
  let loaded := remap_entry model_state remapped_state_dict (k, v) in
  ((exists i, eligible parts i /\
      fits model_state (insert_zero parts i) v = true /\
      (forall j, (j < i)%nat -> eligible parts j ->
         fits model_state (insert_zero parts j) v = false) /\
      loaded = <[insert_zero parts i := v]> remapped_state_dict)
   \/
   ((forall i, eligible parts i ->
       fits model_state (insert_zero parts i) v = false) /\
    loaded = <[k := v]> remapped_state_dict))
  /\ loaded !! remap_key model_state k v = Some v
  /\ (forall before after : list (string * tensor),
        Forall (fun kv => remap_key model_state (fst kv) (snd kv)
                            <> remap_key model_state k v) after ->
        remap_state_dict model_state (before ++ (k, v) :: after)
          !! remap_key model_state k v = Some v).
Proof.
  intros Hk parts loaded. split; [|split].
  - subst loaded. unfold remap_entry, remap_key. simpl. rewrite Hk.
    fold parts.
    pose proof (scan_parts_first parts parts 0%nat eq_refl) as Hscan.
    destruct (scan_parts model_state v parts 0 parts) as [new_key|].
    + left. destruct Hscan as (j & _ & Hel & -> & Hfit & Hfirst).
      exists j. do 2 (split; [auto|]). split; [|reflexivity].
      intros j' Hj'. apply Hfirst. lia.
    + right. split; [|reflexivity].
      intros i. apply Hscan. lia.
  - subst loaded. unfold remap_entry. simpl. apply lookup_insert_eq.
  - intros before after Hafter. unfold remap_state_dict.
    rewrite fold_left_app. cbn [fold_left].
    rewrite (remap_fold_other _ _ _ Hafter).
    unfold remap_entry. simpl. apply lookup_insert_eq.
Qed.

End LoadModelFacts.

Lemma load_model_remaps_first_fitting_key_witness :
  let model_state : gmap string PytUtils.tensor :=
    {[ "layer1.0.bn1.0.weight" := PytUtils.mk_ndarray [64%nat] [] ]} in
  let v : PytUtils.tensor := PytUtils.mk_ndarray [64%nat] [] in
  PytUtils.fits model_state "layer1.0.bn1.weight" v = false /\
  PytUtils.remap_entry model_state ∅ ("layer1.0.bn1.weight", v)
    !! "layer1.0.bn1.0.weight" = Some v.
Proof.
  intros model_state v.
  assert (PytUtils.fits model_state "layer1.0.bn1.weight" v = false) as Hk
    by (vm_compute; reflexivity).
  split; [exact Hk|].
  exact (proj1 (proj2 (load_model_remaps_first_fitting_key model_state v ∅
                         "layer1.0.bn1.weight" Hk))).
Defined.

(** ** Strings: [split], [join] and [int] *)

Section StringFacts.

Lemma contains_app c a b :
  contains c (a +:+ b) = contains c a || contains c b.
Proof.
  induction a as [|x a IH]; simpl; [reflexivity|].
  rewrite IH. apply orb_assoc.
Qed.

Lemma split_go_no_sep sep s :
  contains sep s = false -> split_go sep s = (s, []).
Proof.
  induction s as [|c s IH]; simpl; [reflexivity|].
  intros H. apply orb_false_iff in H as [Hc Hs].
  rewrite (IH Hs), Hc. reflexivity.
Qed.

Lemma split_no_sep sep s : contains sep s = false -> split sep s = [s].
Proof. intros H. unfold split. rewrite (split_go_no_sep _ _ H). reflexivity. Qed.

Lemma split_app_sep sep a b :
  contains sep a = false ->
  split sep (a +:+ String sep b) = a :: split sep b.
Proof.
  unfold split. induction a as [|c a IH]; simpl.
  - intros _. destruct (split_go sep b) as [h t]. rewrite Ascii.eqb_refl.
    reflexivity.
  - intros H. apply orb_false_iff in H as [Hc Ha].
    specialize (IH Ha).
    destruct (split_go sep (a +:+ String sep b)) as [h t].
    destruct (split_go sep b) as [h' t'].
    rewrite Hc. injection IH as -> ->. reflexivity.
Qed.

Lemma split_join sep l :
  l <> [] -> Forall (fun s => contains sep s = false) l ->
  split sep (join (String sep "") l) = l.
Proof.
  induction l as [|x l IH]; [congruence|].
  intros _ Hall. inversion Hall as [|? ? Hx Hl]; subst.
  destruct l as [|y l].
  - simpl. apply split_no_sep, Hx.
  - change (join (String sep "") (x :: y :: l))
      with (x +:+ String sep (join (String sep "") (y :: l))).
    rewrite (split_app_sep _ _ _ Hx), IH; [reflexivity|congruence|assumption].
Qed.

Lemma contains_join c sep l :
  contains c sep = false -> Forall (fun s => contains c s = false) l ->
  contains c (join sep l) = false.
Proof.
  intros Hsep. induction 1 as [|x l Hx Hl IH]; [reflexivity|].
  destruct l as [|y l]; [exact Hx|].
  change (join sep (x :: y :: l)) with (x +:+ sep +:+ join sep (y :: l)).
  rewrite !contains_app, Hx, Hsep, IH. reflexivity.
Qed.

Lemma endswith_contains s c : endswith s c = true -> contains c s = true.
Proof.
  induction s as [|x s IH]; simpl; [discriminate|].
  destruct s as [|y s].
  - intros ->. reflexivity.
  - intros H. rewrite (IH H). apply orb_true_r.
Qed.

Lemma all_digits_contains c s :
  is_digit c = false -> all_digits s = true -> contains c s = false.
Proof.
  intros Hc. induction s as [|x s IH]; simpl; [reflexivity|].
  intros H. apply andb_true_iff in H as [Hx Hs].
  rewrite (IH Hs), orb_false_r.
  destruct (Ascii.eqb_spec x c) as [->|]; [congruence|reflexivity].
Qed.

Lemma isdigit_all_digits s : isdigit s = true -> all_digits s = true.
Proof. destruct s; [discriminate|auto]. Qed.

Lemma is_digit_not_space c : is_digit c = true -> is_space c = false.
Proof.
  unfold is_digit, is_space. intros H.
  apply andb_true_iff in H as [H1 H2].
  apply Nat.leb_le in H1, H2.
  repeat match goal with
         | |- context [(?a =? ?b)%nat] => destruct (Nat.eqb_spec a b)
         | |- context [(?a <=? ?b)%nat] => destruct (Nat.leb_spec a b)
         end; simpl; try reflexivity; lia.
Qed.

Lemma rstrip_digits s : all_digits s = true -> rstrip s = s.
Proof.
  induction s as [|c s IH]; simpl; [reflexivity|].
  intros H. apply andb_true_iff in H as [Hc Hs].
  rewrite (IH Hs), (is_digit_not_space _ Hc). destruct s; reflexivity.
Qed.

(** [int] reads a string of digits as the number it denotes. *)
Lemma int_digits s : isdigit s = true -> int s = Ok (digits_value s).
Proof.
  intros H. pose proof (isdigit_all_digits _ H) as Hall.
  destruct s as [|c s]; [discriminate|].
  simpl in Hall. apply andb_true_iff in Hall as [Hc Hs].
  unfold int.
  assert (lstrip (String c s) = String c s) as ->.
  { simpl. rewrite (is_digit_not_space _ Hc). reflexivity. }
  rewrite rstrip_digits by (simpl; rewrite Hc, Hs; reflexivity).
  assert (int_unsigned (String c s) = Ok (digits_value (String c s))) as Hu.
  { unfold int_unsigned. rewrite split_no_sep.
    - simpl forallb. cbn [isdigit all_digits]. rewrite Hc, Hs. reflexivity.
    - apply all_digits_contains; [reflexivity|].
      simpl; rewrite Hc, Hs; reflexivity. }
  destruct (Ascii.eqb_spec c "-") as [->|Hm]; [discriminate|].
  destruct (Ascii.eqb_spec c "+") as [->|Hp]; [discriminate|].
  destruct c as [[] [] [] [] [] [] [] []]; try exact Hu; congruence.
Qed.

End StringFacts.

(** ** [parse_devices] *)

Section ParseDevicesFacts.

Import PytUtils.

Lemma isdigit_nonempty s : isdigit s = true -> String.eqb s "" = false.
Proof. destruct s; [discriminate|reflexivity]. Qed.

Lemma isdigit_no c s :
  is_digit c = false -> isdigit s = true -> contains c s = false.
Proof. intros Hc H. apply all_digits_contains, isdigit_all_digits; assumption. Qed.

(** One element of the specification string: its devices when it passes
    the assertions, an [AssertionError] when it does not. *)
Lemma parse_device_item device_count it :
  item_digits it = true ->
  parse_device device_count (item_text it) =
    if item_ok device_count it then Ok (item_members it)
    else Raise AssertionError.
Proof.
  destruct it as [a|a b]; simpl; intros H.
  - unfold parse_device.
    rewrite (isdigit_no "-" a eq_refl H), (int_digits a H). simpl.
    destruct (digits_value a <? device_count)%Z; reflexivity.
  - apply andb_true_iff in H as [Ha Hb].
    unfold parse_device.
    rewrite contains_app, (isdigit_no "-" a eq_refl Ha). simpl contains.
    cbn [orb].
    change (a +:+ "-" +:+ b) with (a +:+ String "-" b).
    rewrite (split_app_sep "-" a b (isdigit_no "-" a eq_refl Ha)).
    rewrite (split_no_sep "-" b (isdigit_no "-" b eq_refl Hb)).
    cbn [index length]. simpl.
    rewrite (isdigit_nonempty a Ha), (isdigit_nonempty b Hb). simpl.
    rewrite (int_digits a Ha), (int_digits b Hb). simpl.
    destruct (digits_value a <? digits_value b)%Z; simpl; [|reflexivity].
    destruct (digits_value b <? device_count)%Z; reflexivity.
Qed.

Lemma parse_device_loop_items device_count its : forall devices,
  forallb item_digits its = true ->
  parse_device_loop device_count (map item_text its) devices =
    if forallb (item_ok device_count) its
    then Ok (devices ++ concat (map item_members its))
    else Raise AssertionError.
Proof.
  induction its as [|it its IH]; intros devices H; simpl.
  - rewrite app_nil_r. reflexivity.
  - simpl in H. apply andb_true_iff in H as [Hit Hits].
    rewrite (parse_device_item _ _ Hit).
    destruct (item_ok device_count it); simpl; [|reflexivity].
    rewrite (IH _ Hits), app_assoc. reflexivity.
Qed.

Lemma item_text_no c it :
  is_digit c = false -> Ascii.eqb "-" c = false ->
  item_digits it = true -> contains c (item_text it) = false.
Proof.
  intros Hc Hm. destruct it as [a|a b]; simpl; intros H.
  - apply isdigit_no; assumption.
  - apply andb_true_iff in H as [Ha Hb].
    rewrite contains_app. change ("-" +:+ b) with (String "-" b).
    cbn [contains].
    rewrite (isdigit_no c a Hc Ha), (isdigit_no c b Hc Hb), Hm. reflexivity.
Qed.

Lemma spec_text_no c its :
  is_digit c = false -> Ascii.eqb "-" c = false -> Ascii.eqb "," c = false ->
  forallb item_digits its = true -> contains c (spec_text its) = false.
Proof.
  intros Hc Hm Hcomma H. apply contains_join.
  - cbn [contains]. rewrite Hcomma. reflexivity.
  - apply Forall_map, Forall_forall. intros it Hin.
    apply item_text_no; try assumption.
    rewrite forallb_forall in H. apply H, list_elem_of_In, Hin.
Qed.

(** C3, as the code has it. For a specification string that lists
    integers and ranges [a-b] (written in decimal digits, separated by
    commas), [parse_devices] returns the integers and the members of every
    range, in order and with repetitions, when every range has [a < b] and
    [b] below the device count and every single integer is below the device
    count too; when some element fails this, it raises an
    [AssertionError]. *)
Theorem parse_devices_items (device_count : Z) (its : list device_item) :
  its <> [] ->
  forallb item_digits its = true ->
  parse_devices device_count (spec_text its) =
    if forallb (item_ok device_count) its
    then Ok (concat (map item_members its))
    else Raise AssertionError.
Proof.
  intros Hne Hdig. unfold parse_devices.
  destruct (endswith (spec_text its) "*") eqn:Hstar.
  { apply endswith_contains in Hstar.
    rewrite (spec_text_no "*" its) in Hstar by (reflexivity || assumption).
    discriminate. }
  unfold spec_text. rewrite split_join.
  - apply (parse_device_loop_items device_count its []), Hdig.
  - destruct its; [congruence|discriminate].
  - apply Forall_map, Forall_forall. intros it Hin.
    apply item_text_no; try reflexivity.
    rewrite forallb_forall in Hdig. apply Hdig, list_elem_of_In, Hin.
Qed.

Lemma parse_devices_items_witness :
  parse_devices 4 "0-2,3" = Ok [0; 1; 2; 3]%Z /\
  parse_devices 2 "0-2" = Raise AssertionError.
Proof.
  split.
  - apply (parse_devices_items 4 [Span "0" "2"; Single "3"]);
      [discriminate|reflexivity].
  - apply (parse_devices_items 2 [Span "0" "2"]); [discriminate|reflexivity].
Defined.

(** C3 as the specification states it asks nothing of a single
    integer; on ["5"] with two devices every range condition holds, and the
    call raises instead of returning [[5]]. *)
Lemma parse_devices_single_out_of_bounds :
  forallb item_digits [Single "5"] = true /\
  forallb (span_ok 2) [Single "5"] = true /\
  parse_devices 2 (spec_text [Single "5"]) = Raise AssertionError /\
  parse_devices 2 (spec_text [Single "5"])
    <> Ok (concat (map item_members [Single "5"])).
Proof. repeat split; discriminate. Qed.

End ParseDevicesFacts.

(** ** The decoding helpers of pyt_utils.py *)

Section DecodeFacts.

Import PytUtils.

Variable np_concatenate : list tensor -> result tensor.
Variable np_argmax : tensor -> result (ndarray Z).
Variable np_restore : nat * nat * nat -> list Q -> list Q -> result (list Z).

(** Neither [np] nor [Image] is bound in the module. *)
Lemma resolve_np : resolve pyt_utils_globals "np" = Raise NameError.
Proof. reflexivity. Qed.

Lemma resolve_Image : resolve pyt_utils_globals "Image" = Raise NameError.
Proof. reflexivity. Qed.

Lemma decode_batch_raises mask num_images num_classes :
  decode_batch pyt_utils_globals mask num_images num_classes =
    match shape mask with
    | [n; _; _] =>
        if (num_images <=? Z.of_nat n)%Z then Raise NameError
        else Raise AssertionError
    | _ => Raise ValueError
    end.
Proof.
  unfold decode_batch, unpack3.
  destruct (shape mask) as [|n [|h [|w [|]]]]; try reflexivity.
  cbn [mbind result_bind]. unfold assert.
  destruct (num_images <=? Z.of_nat n)%Z; reflexivity.
Qed.

(** Every [pred[-1]] exists when no element of the list is empty;
    otherwise the first empty one is an [IndexError]. *)
Lemma mapM_last_raises (preds : list (list tensor)) :
  if forallb (fun pred => negb (bool_decide (pred = []))) preds
  then exists l, mapM (fun pred => index pred (-1)) preds = Ok l
  else mapM (fun pred => index pred (-1)) preds = Raise IndexError.
Proof.
  induction preds as [|pred preds IH]; simpl; [eauto|].
  destruct pred as [|t pred]; [reflexivity|].
  assert (exists x, index (t :: pred) (-1) = Ok x) as [x Hx].
  { unfold index. cbn [Z.ltb Z.compare length].
    destruct (Z.ltb_spec (-1 + Z.of_nat (S (List.length pred))) 0) as [|_]; [lia|].
    destruct (lookup_lt_is_Some_2 (t :: pred)
                (Z.to_nat (-1 + Z.of_nat (S (List.length pred)))))
      as [x Hx]; [simpl; lia|].
    rewrite Hx. eauto. }
  rewrite Hx, (bool_decide_eq_false_2 (t :: pred = [])) by discriminate.
  cbn [negb andb mbind result_bind].
  destruct (forallb (fun pred => negb (bool_decide (pred = []))) preds).
  - destruct IH as [l ->]. eexists. reflexivity.
  - rewrite IH. reflexivity.
Qed.

(** C8, as the code has it. No call of [decode_labels],
    [decode_predictions] or [inv_preprocess] returns a batch: each raises.
    The exception is the [NameError] of the unbound [np] once the
    statements before the first use of [np] have passed; a call whose
    shape does not unpack raises [ValueError], one whose batch is smaller
    than [num_images] raises [AssertionError], and [decode_predictions] on
    a list with an empty element raises [IndexError], all before [np] is
    looked up. *)
Theorem decode_functions_raise :
  (forall mask num_images num_classes,
     decode_labels pyt_utils_globals mask num_images num_classes =
       match shape mask with
       | [n; _; _] =>
           if (num_images <=? Z.of_nat n)%Z then Raise NameError
           else Raise AssertionError
       | _ => Raise ValueError
       end) /\
  (forall preds num_images num_classes,
     decode_predictions np_concatenate np_argmax pyt_utils_globals
       (PredTensor preds) num_images num_classes = Raise NameError) /\
  (forall preds num_images num_classes,
     decode_predictions np_concatenate np_argmax pyt_utils_globals
       (PredList preds) num_images num_classes =
       if forallb (fun pred => negb (bool_decide (pred = []))) preds
       then Raise NameError else Raise IndexError) /\
  (forall imgs num_images img_mean,
     inv_preprocess np_restore pyt_utils_globals imgs num_images img_mean =
       match shape imgs with
       | [n; _; _; _] =>
           if (num_images <=? Z.of_nat n)%Z then Raise NameError
           else Raise AssertionError
       | _ => Raise ValueError
       end).
Proof.
  split; [|split; [|split]].
  - intros. apply decode_batch_raises.
  - reflexivity.
  - intros preds num_images num_classes.
    unfold decode_predictions.
    pose proof (mapM_last_raises preds) as H.
    destruct (forallb (fun pred => negb (bool_decide (pred = []))) preds).
    + destruct H as [l ->]. reflexivity.
    + rewrite H. reflexivity.
  - intros imgs num_images img_mean.
    unfold inv_preprocess, unpack4.
    destruct (shape imgs) as [|n [|c [|h [|w [|]]]]]; try reflexivity.
    cbn [mbind result_bind]. unfold assert.
    destruct (num_images <=? Z.of_nat n)%Z; reflexivity.
Qed.

End DecodeFacts.

(** C8 as stated has a [NameError] for every input; a batch of one
    mask decoded with [num_images = 2] fails the assertion first. *)
Lemma decode_labels_assertion_first :
  PytUtils.decode_labels PytUtils.pyt_utils_globals
    (PytUtils.mk_ndarray [1; 2; 2]%nat [0; 0; 0; 0]%Z) 2 21
  = Raise AssertionError.
Proof. reflexivity. Qed.

(** ** The video frame sampler *)

Section ExtractFramesFacts.

Import Sample.

Context {frame : Type}.
Variable output_dir filename : string.

Lemma multiples_S fi n :
  multiples fi (S n) =
    multiples fi n ++ (if decide (Z.of_nat n mod fi = 0)%Z then [n] else []).
Proof.
  unfold multiples. rewrite seq_S, filter_app. f_equal.
Qed.

Lemma multiples_lt fi n i : i ∈ multiples fi n -> (i < n)%nat.
Proof.
  unfold multiples. rewrite list_elem_of_filter, elem_of_seq. lia.
Qed.

Lemma omap_Forall_ext {A B : Type} (f g : A -> option B) l :
  Forall (fun x => f x = g x) l -> omap f l = omap g l.
Proof.
  induction 1 as [|x l Hx _ IH]; [reflexivity|].
  change (omap f (x :: l))
    with (match f x with Some y => y :: omap f l | None => omap f l end).
  change (omap g (x :: l))
    with (match g x with Some y => y :: omap g l | None => omap g l end).
  rewrite Hx, IH. reflexivity.
Qed.

Lemma saved_files_more (fs : list frame) fr saved :
  (forall i, i ∈ saved -> (i < length fs)%nat) ->
  saved_files output_dir filename (fs ++ [fr]) saved =
  saved_files output_dir filename fs saved.
Proof.
  intros Hlt. unfold saved_files. apply omap_Forall_ext, Forall_forall.
  intros [j i] Hin. apply elem_of_lookup_imap in Hin as (j' & i' & [= -> ->] & Hi).
  simpl. rewrite lookup_app_l; [reflexivity|].
  apply Hlt. eapply list_elem_of_lookup_2, Hi.
Qed.

Lemma saved_files_snoc (fs : list frame) fr saved :
  (forall i, i ∈ saved -> (i < length fs)%nat) ->
  saved_files output_dir filename (fs ++ [fr]) (saved ++ [length fs]) =
  saved_files output_dir filename fs saved
    ++ [(img_name output_dir filename (length saved), fr)].
Proof.
  intros Hlt. rewrite <- (saved_files_more fs fr saved Hlt).
  unfold saved_files. rewrite imap_app, omap_app. f_equal.
  simpl. rewrite Nat.add_0_r, list_lookup_middle by reflexivity. reflexivity.
Qed.

(** The loop, from any point of the scan: [done] are the frames read so
    far. *)
Lemma read_loop_saves fi : (0 < fi)%Z ->
  forall todo done : list frame,
    read_loop output_dir filename fi todo (Z.of_nat (length done))
      (length (multiples fi (length done)))
      (saved_files output_dir filename done (multiples fi (length done)))
    = (saved_files output_dir filename (done ++ todo)
         (multiples fi (length (done ++ todo))), None).
Proof.
  intros Hfi. induction todo as [|fr todo IH]; intros done; simpl.
  - rewrite app_nil_r. reflexivity.
  - destruct (Z.eqb_spec fi 0) as [|_]; [lia|].
    specialize (IH (done ++ [fr])).
    rewrite <- app_assoc in IH. simpl in IH. rewrite <- IH.
    rewrite length_app. simpl length. rewrite Nat.add_1_r, multiples_S.
    replace (Z.of_nat (S (length done))) with (Z.of_nat (length done) + 1)%Z
      by lia.
    destruct (Z.eqb_spec (Z.of_nat (length done) mod fi) 0) as [Hm|Hm];
      destruct (decide (Z.of_nat (length done) mod fi = 0)%Z); try contradiction.
    + rewrite length_app, Nat.add_1_r. simpl length.
      rewrite saved_files_snoc by (intros i; apply multiples_lt). reflexivity.
    + rewrite app_nil_r.
      rewrite saved_files_more by (intros i; apply multiples_lt). reflexivity.
Qed.

Lemma int_of_float_floor x : (0 <= x)%Q -> int_of_float x = Qfloor x.
Proof.
  destruct x as [n d]. unfold Qle, int_of_float, Qfloor. simpl.
  intros H. apply Z.quot_div_nonneg; lia.
Qed.

Lemma filter_none {A : Type} (P : A -> Prop) `{forall x, Decision (P x)} l :
  Forall (fun x => ~ P x) l -> filter P l = [].
Proof.
  induction 1 as [|x l Hx _ IH]; [reflexivity|].
  rewrite filter_cons_False by exact Hx. exact IH.
Qed.

(** Among [f] consecutive indices starting at a multiple of [f], only the
    first is a multiple. *)
Lemma multiples_block (f k : nat) :
  (0 < f)%nat ->
  filter (fun i : nat => (Z.of_nat i mod Z.of_nat f = 0)%Z) (seq (k * f) f)
  = [(k * f)%nat].
Proof.
  intros Hf. destruct f as [|m]; [lia|].
  cbn [seq]. rewrite filter_cons_True.
  2:{ rewrite Nat2Z.inj_mul. apply Z_mod_mult. }
  f_equal. apply filter_none, Forall_forall. intros i Hi.
  apply elem_of_seq in Hi. intros Hmod.
  apply Z.mod_divide in Hmod; [|lia]. destruct Hmod as [q Hq].
  assert (Z.of_nat k < q < Z.of_nat k + 1)%Z; [nia|lia].
Qed.

Lemma multiples_three fi :
  (0 < fi)%Z ->
  multiples fi (3 * Z.to_nat fi) = [0; Z.to_nat fi; 2 * Z.to_nat fi]%nat.
Proof.
  intros Hfi. unfold multiples.
  remember (Z.to_nat fi) as f eqn:Hf.
  assert (fi = Z.of_nat f) as -> by lia.
  assert (0 < f)%nat as Hpos by lia.
  replace (3 * f)%nat with (f + (f + f))%nat by lia.
  rewrite !seq_app, !filter_app.
  pose proof (multiples_block f 0 Hpos) as H0.
  pose proof (multiples_block f 1 Hpos) as H1.
  pose proof (multiples_block f 2 Hpos) as H2.
  rewrite Nat.mul_0_l in H0. rewrite Nat.mul_1_l in H1.
  replace (0 + f)%nat with f by lia.
  replace (f + f)%nat with (2 * f)%nat by lia.
  rewrite H0, H1, H2. reflexivity.
Qed.

(** Away from a zero interval the sampler does what C4 describes. When the
    video opens with [fps > 0] and [floor(fps * interval_sec)] is at least
    1, that floor is the frame interval, the call ends normally, and the
    files written are the frames whose index is a multiple of the interval,
    in order, the [j]-th of them under the zero-padded counter [j]. When
    moreover [fps * interval_sec] is a whole number and the video has
    [fps * interval_sec * 3] frames, the frames saved are those of index
    [0], [frame_interval] and [2 * frame_interval]. *)
Theorem extract_frames_saves_multiples (v : video frame) (interval_sec : Q) :
  is_opened v = true ->
  (0 < fps v)%Q ->
  (1 <= Qfloor (Double.mul (fps v) interval_sec))%Z ->
  let frame_interval := frame_interval_of v interval_sec in
  let n := length (frames v) in
  frame_interval = Qfloor (Double.mul (fps v) interval_sec) /\
  extract_frames v filename output_dir interval_sec =
    (saved_files output_dir filename (frames v) (multiples frame_interval n),
     None) /\
  ((Double.mul (fps v) interval_sec == inject_Z frame_interval)%Q ->
   (inject_Z (Z.of_nat n) == Double.mul (fps v) interval_sec * 3)%Q ->
   multiples frame_interval n =
     [0; Z.to_nat frame_interval; 2 * Z.to_nat frame_interval]%nat).
Proof.
  intros Hopen Hfps Hfloor frame_interval n.
  assert (frame_interval = Qfloor (Double.mul (fps v) interval_sec)) as Hfi.
  { apply int_of_float_floor.
    destruct (Qlt_le_dec (Double.mul (fps v) interval_sec) 0) as [Hneg|]; [|assumption].
    apply Qlt_le_weak, (Qfloor_resp_le _ 0) in Hneg.
    change (Qfloor 0) with 0%Z in Hneg. exfalso. lia. }
  split; [exact Hfi|]. split.
  - unfold extract_frames. rewrite Hopen. cbn [negb].
    destruct (Qeq_bool (fps v) 0) eqn:Hz.
    { apply Qeq_bool_eq in Hz. rewrite Hz in Hfps.
      exfalso. exact (Qlt_irrefl 0 Hfps). }
    fold frame_interval.
    apply (read_loop_saves frame_interval ltac:(lia) (frames v) []).
  - intros Hwhole Hn.
    assert (Z.of_nat n = 3 * frame_interval)%Z as Hlen.
    { rewrite Hwhole in Hn.
      change 3%Q with (inject_Z 3) in Hn. rewrite <- inject_Z_mult in Hn.
      apply (proj1 (inject_Z_injective _ _)) in Hn. lia. }
    replace n with (3 * Z.to_nat frame_interval)%nat by lia.
    apply multiples_three. lia.
Qed.

End ExtractFramesFacts.

Lemma extract_frames_saves_multiples_witness :
  Sample.extract_frames (Sample.mk_video true 2 [10; 11; 12; 13; 14; 15]%Z)
    "clip" "raw_images" 1
  = ([("raw_images/clip_frame_00000.jpg", 10%Z);
      ("raw_images/clip_frame_00001.jpg", 12%Z);
      ("raw_images/clip_frame_00002.jpg", 14%Z)], None).
Proof.
  refine (proj1 (proj2 (extract_frames_saves_multiples "raw_images" "clip"
            (Sample.mk_video true 2 [10; 11; 12; 13; 14; 15]%Z) 1 _ _ _))).
  - reflexivity.
  - reflexivity.
  - vm_compute. discriminate.
Defined.

(** C4 at an input where the code fails it. The video opens with
    [fps > 0]: 1/8 frame per second, sampled every 4 seconds. The frame
    interval is the floor of the product, 0; frame 0 is a multiple of it,
    and the sampler should save it. The modulo by the zero interval raises
    a [ZeroDivisionError] at that first frame instead, and nothing is
    saved: the check before the loop is on [fps == 0] only. *)
Lemma extract_frames_zero_interval :
  let v := Sample.mk_video true (1 # 8) [10%Z] in
  Sample.is_opened v = true /\ (0 < Sample.fps v)%Q /\
  Sample.frame_interval_of v 4 = Qfloor (Sample.fps v * 4) /\
  Sample.multiples (Sample.frame_interval_of v 4) 1 = [0%nat] /\
  Sample.saved_files "raw_images" "clip" (Sample.frames v) [0%nat]
    = [("raw_images/clip_frame_00000.jpg", 10%Z)] /\
  Sample.extract_frames v "clip" "raw_images" 4
    = ([], Some ZeroDivisionError).
Proof. vm_compute. repeat split. Qed.

Section FrameIntervalZeroFacts.

Import Sample.

Context {frame : Type}.
Variable output_dir filename : string.

Lemma int_of_float_small x : (- (1) < x)%Q -> (x < 1)%Q -> int_of_float x = 0%Z.
Proof.
  destruct x as [n d]. unfold Qlt, int_of_float. simpl. intros Hlo Hhi.
  destruct (Z_le_gt_dec 0 n).
  - apply Z.quot_small. lia.
  - rewrite <- (Z.opp_involutive n), Z.quot_opp_l, Z.quot_small by lia.
    reflexivity.
Qed.

(** The loop never raises the error of the explicit checks. *)
Lemma read_loop_no_runtime_error fi (todo : list frame) :
  forall count saved written,
    snd (read_loop output_dir filename fi todo count saved written)
    <> Some RuntimeError.
Proof.
  induction todo as [|fr todo IH]; intros count saved written; simpl.
  - discriminate.
  - destruct (fi =? 0)%Z; [discriminate|].
    destruct (count mod fi =? 0)%Z; apply IH.
Qed.

(** C9, as the code has it. When the video opens with [fps > 0], delivers
    at least one frame, and [fps * interval_sec], the double the program
    computes, lies strictly between -1 and 1, the frame interval is 0 and
    the call ends in a [ZeroDivisionError] at the first frame, with nothing
    saved. The explicit check is on [fps == 0] alone: an opened video ends
    in its [RuntimeError] exactly when [fps] is 0. *)
Theorem extract_frames_zero_division :
  (forall (v : video frame) (interval_sec : Q),
     is_opened v = true ->
     (0 < fps v)%Q ->
     (- (1) < Double.mul (fps v) interval_sec)%Q ->
     (Double.mul (fps v) interval_sec < 1)%Q ->
     frames v <> [] ->
     frame_interval_of v interval_sec = 0%Z /\
     extract_frames v filename output_dir interval_sec
       = ([], Some ZeroDivisionError)) /\
  (forall (v : video frame) (interval_sec : Q),
     is_opened v = true ->
     (snd (extract_frames v filename output_dir interval_sec)
        = Some RuntimeError <-> (fps v == 0)%Q)).
Proof.
  split.
  - intros v interval_sec Hopen Hfps Hlo Hhi Hframes.
    assert (frame_interval_of v interval_sec = 0%Z) as Hfi
      by (apply int_of_float_small; assumption).
    split; [exact Hfi|].
    unfold extract_frames. rewrite Hopen, Hfi. cbn [negb].
    destruct (Qeq_bool (fps v) 0) eqn:Hz.
    { apply Qeq_bool_eq in Hz. rewrite Hz in Hfps.
      exfalso. exact (Qlt_irrefl 0 Hfps). }
    destruct (frames v); [congruence|reflexivity].
  - intros v interval_sec Hopen. unfold extract_frames.
    rewrite Hopen. cbn [negb].
    destruct (Qeq_bool (fps v) 0) eqn:Hz.
    + apply Qeq_bool_eq in Hz. split; [auto|reflexivity].
    + split.
      * intros H. exfalso. eapply read_loop_no_runtime_error, H.
      * intros H. apply Qeq_eq_bool in H. congruence.
Qed.

End FrameIntervalZeroFacts.

Lemma extract_frames_zero_division_witness :
  Sample.extract_frames (Sample.mk_video true (1 # 8) [10; 11]%Z)
    "clip" "raw_images" 4
  = ([], Some ZeroDivisionError).
Proof.
  refine (proj2 (proj1 (extract_frames_zero_division "raw_images" "clip")
            (Sample.mk_video true (1 # 8) [10; 11]%Z) 4%Q _ _ _ _ _)).
  - reflexivity.
  - reflexivity.
  - reflexivity.
  - reflexivity.
  - discriminate.
Defined.

(** C9 as stated asks only [fps * interval_sec < 1]. With a
    negative interval the product is below 1 and the frame interval is not
    0: frame 0 is saved and nothing is raised. A video that opens but
    delivers no frame ends normally, its zero interval never used. And the
    product that counts is the double the program computes: at 30 frames
    per second and the double nearest to 1/30, the product of the two
    numbers is below 1, the double is 1, and every frame is saved. *)
Lemma extract_frames_small_product_no_error :
  (let v := Sample.mk_video true 30 [10%Z] in
   Sample.is_opened v = true /\ (0 < Sample.fps v)%Q /\
   (Sample.fps v * - (5) < 1)%Q /\
   (Double.mul (Sample.fps v) (- (5)) < 1)%Q /\
   Sample.frame_interval_of v (- (5)) = (-150)%Z /\
   Sample.extract_frames v "clip" "raw_images" (- (5))
     = ([("raw_images/clip_frame_00000.jpg", 10%Z)], None)) /\
  (let v := Sample.mk_video true (1 # 8) ([] : list Z) in
   Sample.is_opened v = true /\ (0 < Sample.fps v)%Q /\
   (Sample.fps v * 4 < 1)%Q /\
   (Double.mul (Sample.fps v) 4 < 1)%Q /\
   Sample.extract_frames v "clip" "raw_images" 4 = ([], None)) /\
  (let v := Sample.mk_video true 30 [10; 11]%Z in
   let interval_sec := Double.nearest (1 # 30) in
   Sample.is_opened v = true /\ (0 < Sample.fps v)%Q /\
   (0 < Sample.fps v * interval_sec)%Q /\
   (Sample.fps v * interval_sec < 1)%Q /\
   Double.mul (Sample.fps v) interval_sec = 1%Q /\
   Sample.frame_interval_of v interval_sec = 1%Z /\
   Sample.extract_frames v "clip" "raw_images" interval_sec
     = ([("raw_images/clip_frame_00000.jpg", 10%Z);
         ("raw_images/clip_frame_00001.jpg", 11%Z)], None)).
Proof. vm_compute. repeat split. Qed.

(** ** The Wavelet/CLAHE fusion *)

Section FusionFacts.

Import DefogPipeline.

Lemma byte_to_Q_range b : (0 <= byte_to_Q b)%Q /\ (byte_to_Q b <= 255)%Q.
Proof.
  unfold byte_to_Q. pose proof (Byte.to_N_bounded b) as H.
  split.
  - change 0%Q with (inject_Z 0). rewrite <- Zle_Qle. lia.
  - change 255%Q with (inject_Z 255). rewrite <- Zle_Qle. lia.
Qed.

(** Clipping and casting a value that is a byte gives the byte back. *)
Lemma astype_clip_byte x b :
  (x == byte_to_Q b)%Q -> astype_uint8 (clip_0_255 x) = b.
Proof.
  intros Hx. destruct (byte_to_Q_range b) as [Hlo Hhi].
  assert (clip_0_255 x == byte_to_Q b)%Q as Hclip.
  { unfold clip_0_255. rewrite Hx.
    rewrite (Q.max_l _ _ Hlo). apply Q.min_r, Hhi. }
  unfold astype_uint8.
  rewrite int_of_float_floor by (rewrite Hclip; exact Hlo).
  rewrite Hclip. unfold byte_to_Q. rewrite Qfloor_Z.
  pose proof (Byte.to_N_bounded b) as Hb.
  rewrite Z.mod_small by lia.
  rewrite N2Z.id, Byte.of_to_N. reflexivity.
Qed.

Lemma nearest_byte (b : Byte.byte) (x : Q) :
  (x == byte_to_Q b)%Q -> Double.nearest x = byte_to_Q b.
Proof.
  intros Hx. rewrite (nearest_comp _ _ Hx). unfold byte_to_Q.
  apply nearest_int. pose proof (Byte.to_N_bounded b). lia.
Qed.

Lemma nearest_zero (x : Q) : (x == 0)%Q -> Double.nearest x = 0%Q.
Proof. intros Hx. rewrite (nearest_comp _ _ Hx). reflexivity. Qed.

Lemma fuse_pixel_one c d : fuse_pixel 1 c d = c.
Proof.
  apply astype_clip_byte. unfold Double.add, Double.mul, Double.sub.
  rewrite (nearest_byte c (1 * byte_to_Q c)) by ring.
  rewrite (nearest_zero (1 - 1)) by ring.
  rewrite (nearest_zero (0 * byte_to_Q d)) by ring.
  rewrite (nearest_byte c (byte_to_Q c + 0)) by ring. reflexivity.
Qed.

Lemma fuse_pixel_zero c d : fuse_pixel 0 c d = d.
Proof.
  apply astype_clip_byte. unfold Double.add, Double.mul, Double.sub.
  rewrite (nearest_zero (0 * byte_to_Q c)) by ring.
  rewrite (nearest_comp (1 - 0) (inject_Z 1)) by ring.
  rewrite nearest_int by lia.
  rewrite (nearest_byte d (inject_Z 1 * byte_to_Q d)) by ring.
  rewrite (nearest_byte d (0 + byte_to_Q d)) by ring. reflexivity.
Qed.

Lemma fuse_row_one r : forall r', length r = length r' -> fuse_row 1 r r' = Ok r.
Proof.
  induction r as [|c r IH]; intros [|d r'] Hlen; try discriminate; simpl.
  - reflexivity.
  - rewrite (IH r') by (simpl in Hlen; lia). simpl.
    rewrite fuse_pixel_one. reflexivity.
Qed.

Lemma fuse_row_zero r : forall r', length r = length r' -> fuse_row 0 r r' = Ok r'.
Proof.
  induction r as [|c r IH]; intros [|d r'] Hlen; try discriminate; simpl.
  - reflexivity.
  - rewrite (IH r') by (simpl in Hlen; lia). simpl.
    rewrite fuse_pixel_zero. reflexivity.
Qed.

Lemma fuse_one a : forall b, map length a = map length b -> fuse 1 a b = Ok a.
Proof.
  induction a as [|r a IH]; intros [|r' b] Hshape; try discriminate; simpl.
  - reflexivity.
  - injection Hshape as Hr Hrest.
    rewrite (fuse_row_one r r' Hr). simpl. rewrite (IH b Hrest). reflexivity.
Qed.

Lemma fuse_zero a : forall b, map length a = map length b -> fuse 0 a b = Ok b.
Proof.
  induction a as [|r a IH]; intros [|r' b] Hshape; try discriminate; simpl.
  - reflexivity.
  - injection Hshape as Hr Hrest.
    rewrite (fuse_row_zero r r' Hr). simpl. rewrite (IH b Hrest). reflexivity.
Qed.

Lemma fuse_row_mismatch fw r : forall r',
  length r <> length r' -> fuse_row fw r r' = Raise ValueError.
Proof.
  induction r as [|c r IH]; intros [|d r'] Hlen; simpl in *;
    try reflexivity; try congruence.
  rewrite IH by lia. reflexivity.
Qed.

Lemma fuse_row_defined fw r r' :
  length r = length r' -> exists row, fuse_row fw r r' = Ok row.
Proof.
  revert r'. induction r as [|c r IH]; intros [|d r'] Hlen; simpl in *;
    try discriminate; [eauto|].
  destruct (IH r') as [row ->]; [lia|]. simpl. eauto.
Qed.

(** Operands of different shapes cannot be fused, whatever the weight. *)
Lemma fuse_mismatch fw a : forall b,
  map length a <> map length b -> fuse fw a b = Raise ValueError.
Proof.
  induction a as [|r a IH]; intros [|r' b] Hshape; simpl in *;
    try reflexivity; try congruence.
  destruct (decide (length r = length r')) as [Hr|Hr].
  - destruct (fuse_row_defined fw r r' Hr) as [row ->]. simpl.
    rewrite IH by congruence. reflexivity.
  - rewrite (fuse_row_mismatch fw r r' Hr). reflexivity.
Qed.
Context {image : Type}.
Variable dcp_dehaze : image -> image.
Variable to_hsv : image -> channel * channel * channel.
Variable from_hsv : channel * channel * channel -> image.
Variable clahe : channel -> channel.
Variable dwt : channel -> channel.

(** C5. When the CLAHE result and the cropped wavelet result have the same
    shape (as the libraries give them; without it the element-wise fusion
    is not defined for any weight), the fused value channel is the CLAHE
    result for [fusion_weight = 1.0] and the wavelet result for
    [fusion_weight = 0.0]; the image returned is rebuilt from that channel
    alone. *)
Theorem fusion_weight_extremes (img : image) :
  map length (v_clahe dcp_dehaze to_hsv clahe img)
    = map length (v_dwt dcp_dehaze to_hsv dwt img) ->
  v_fused dcp_dehaze to_hsv clahe dwt 1 img
    = Ok (v_clahe dcp_dehaze to_hsv clahe img) /\
  v_fused dcp_dehaze to_hsv clahe dwt 0 img
    = Ok (v_dwt dcp_dehaze to_hsv dwt img) /\
  dehaze dcp_dehaze to_hsv from_hsv clahe dwt 1 img
    = Ok (from_hsv (fst (to_hsv (dcp_dehaze img)),
                    v_clahe dcp_dehaze to_hsv clahe img)) /\
  dehaze dcp_dehaze to_hsv from_hsv clahe dwt 0 img
    = Ok (from_hsv (fst (to_hsv (dcp_dehaze img)),
                    v_dwt dcp_dehaze to_hsv dwt img)).
Proof.
  intros Hshape.
  assert (v_fused dcp_dehaze to_hsv clahe dwt 1 img
            = Ok (v_clahe dcp_dehaze to_hsv clahe img)) as H1
    by (apply fuse_one, Hshape).
  assert (v_fused dcp_dehaze to_hsv clahe dwt 0 img
            = Ok (v_dwt dcp_dehaze to_hsv dwt img)) as H0
    by (apply fuse_zero, Hshape).
  repeat split; try assumption.
  - unfold dehaze. rewrite H1.
    destruct (to_hsv (dcp_dehaze img)) as [[h s] v]. reflexivity.
  - unfold dehaze. rewrite H0.
    destruct (to_hsv (dcp_dehaze img)) as [[h s] v]. reflexivity.
Qed.

End FusionFacts.

Lemma fusion_weight_extremes_witness :
  let dwt := fun v : DefogPipeline.channel => map (fun r => r ++ [Byte.x01]) v in
  let img : DefogPipeline.channel * DefogPipeline.channel * DefogPipeline.channel :=
    ([[Byte.x00; Byte.x00]], [[Byte.x00; Byte.x00]], [[Byte.x0a; Byte.xff]]) in
  DefogPipeline.v_fused id id id dwt 1 img = Ok [[Byte.x0a; Byte.xff]].
Proof.
  intros dwt img.
  refine (proj1 (fusion_weight_extremes id id id id dwt img _)).
  reflexivity.
Defined.

(** ** The atmospheric light of the Dark Channel Prior *)

Section AtmosphericLightFacts.

Import DCP.

(** Adding up from the left, as the loop does, adds up each channel
    from the left. *)
Lemma fold_left_padd l : forall acc,
  fold_left padd l acc
  = (fold_left Double.add (map (fun p => fst (fst p)) l) (fst (fst acc)),
     fold_left Double.add (map (fun p => snd (fst p)) l) (snd (fst acc)),
     fold_left Double.add (map snd l) (snd acc)).
Proof.
  induction l as [|x l IH]; intros [[r g] b]; [reflexivity|].
  cbn [fold_left map]. rewrite IH. reflexivity.
Qed.

Lemma accumulate_fold image l : forall acc,
  Forall (fun i => (i < length image)%nat) l ->
  accumulate image l acc = Ok (fold_left padd (pixels_at image l) acc).
Proof.
  induction l as [|i l IH]; intros acc Hall; [reflexivity|].
  inversion Hall as [|? ? Hi Hl]; subst.
  destruct (lookup_lt_is_Some_2 image i Hi) as [px Hpx].
  unfold pixels_at. cbn [accumulate omap list_omap]. rewrite Hpx.
  apply IH, Hl.
Qed.

Lemma pixels_at_length image l :
  Forall (fun i => (i < length image)%nat) l ->
  length (pixels_at image l) = length l.
Proof.
  induction 1 as [|i l Hi _ IH]; [reflexivity|].
  destruct (lookup_lt_is_Some_2 image i Hi) as [px Hpx].
  unfold pixels_at. cbn [omap list_omap]. rewrite Hpx. simpl.
  f_equal. exact IH.
Qed.

(** The last [k] entries of an ascending argsort are [k] indices of
    highest value. *)
Lemma argsort_top (dark : list Q) (idx : list nat) (k : nat) :
  is_argsort dark idx -> (k <= length dark)%nat ->
  top_by dark k (drop (length idx - k) idx).
Proof.
  intros [Hperm Hsorted] Hk.
  assert (length idx = length dark) as Hlen
    by (rewrite (Permutation_length Hperm); apply length_seq).
  assert (NoDup idx) as Hnd
    by (rewrite Hperm; apply NoDup_seq).
  set (cut := (length idx - k)%nat).
  rewrite <- (take_drop cut idx) in Hnd.
  apply NoDup_app in Hnd as (_ & Hdisj & Hnd).
  repeat split.
  - exact Hnd.
  - rewrite length_drop. lia.
  - intros i Hi.
    assert (i ∈ idx) as Hin
      by (rewrite <- (take_drop cut idx); apply elem_of_app; auto).
    rewrite Hperm in Hin. apply elem_of_seq in Hin. lia.
  - intros i j x y Hi Hj Hx Hy.
    apply list_elem_of_lookup in Hi as [pi Hpi].
    rewrite lookup_drop in Hpi.
    assert (j ∈ idx) as Hjin.
    { rewrite Hperm. apply elem_of_seq.
      apply lookup_lt_Some in Hy. lia. }
    rewrite <- (take_drop cut idx) in Hjin.
    apply elem_of_app in Hjin as [Hjt|Hjd]; [|contradiction].
    apply list_elem_of_lookup in Hjt as [pj Hpj].
    pose proof (lookup_lt_Some _ _ _ Hpj) as Hlt.
    rewrite length_take in Hlt.
    rewrite lookup_take_lt in Hpj by lia.
    apply (Hsorted pj (cut + pi)%nat j i y x); auto. lia.
Qed.

(** For an image with at least one pixel and a percentile between 0 and
    1, the number of pixels averaged does not exceed the pixel count. *)
Lemma num_pixels_le (img_size : nat) (atm_percentile : Q) :
  (0 < img_size)%nat -> (Z.of_nat img_size < 2 ^ 53)%Z ->
  (0 <= atm_percentile)%Q -> (atm_percentile <= 1)%Q ->
  (num_pixels_of img_size atm_percentile <= Z.of_nat img_size)%Z.
Proof.
  intros Hn Hbig Hp0 Hp1. unfold num_pixels_of.
  apply Z.max_lub; [|lia].
  unfold Double.of_int, Double.mul. rewrite nearest_int by lia.
  set (N := Z.of_nat img_size) in *.
  set (x := (inject_Z N * atm_percentile)%Q).
  assert (0 < inject_Z N)%Q as HN
    by (change 0%Q with (inject_Z 0); rewrite <- Zlt_Qlt; lia).
  assert (0 <= x)%Q as Hx0 by (unfold x; nra).
  assert (x <= inject_Z N)%Q as HxN by (unfold x; nra).
  assert (Qabs x < Double.pow2 53)%Q as Hx53.
  { rewrite Qabs_pos by exact Hx0. rewrite pow2_Z by lia.
    apply Qle_lt_trans with (inject_Z N); [exact HxN|].
    rewrite <- Zlt_Qlt. exact Hbig. }
  pose proof (nearest_error x) as Herr.
  pose proof (quantum_le_1 x Hx53) as Hq.
  pose proof (quantum_pos x) as Hq0.
  apply Qabs_Qle_condition in Herr as [_ Herr].
  pose proof (Qfloor_le (Double.nearest x)) as Hfl.
  assert (Qfloor (Double.nearest x) < N + 1)%Z; [|lia].
  rewrite Zlt_Qlt, inject_Z_plus. change (inject_Z 1) with 1%Q. lra.
Qed.

Variable argsort : list Q -> list nat.

(** C7. For an image of [h * w] pixels with its dark channel, when the
    number [max(floor(h * w * atm_percentile), 1)] does not exceed the
    pixel count (as for every image with a pixel and a percentile between 0
    and 1), the atmospheric light is, channel by channel, the arithmetic
    mean of the pixels of the image at that many indices of highest
    dark-channel value. The product and the mean are those of float
    arithmetic. *)
Theorem atmospheric_light_is_top_mean (atm_percentile : Q) (h w : nat)
    (image : list pixel) (dark : list Q) :
  length image = (h * w)%nat ->
  length dark = (h * w)%nat ->
  is_argsort dark (argsort dark) ->
  (top_count (h * w) atm_percentile <= Z.of_nat (h * w))%Z ->
  exists (top : list nat) (A : pixel),
    top_by dark (Z.to_nat (top_count (h * w) atm_percentile)) top /\
    length (pixels_at image top)
      = Z.to_nat (top_count (h * w) atm_percentile) /\
    _compute_atmospheric_light argsort atm_percentile h w image dark = Ok A /\
    let '(reds, greens, blues) := channels (pixels_at image top) in
    A = (mean reds, mean greens, mean blues).
Proof.
  intros Himg Hdark Hsort Hk.
  change (top_count (h * w) atm_percentile)
    with (num_pixels_of (h * w) atm_percentile) in *.
  set (k := num_pixels_of (h * w) atm_percentile) in *.
  assert (1 <= k)%Z as Hk1 by (unfold k, num_pixels_of; lia).
  set (top := drop (length (argsort dark) - Z.to_nat k) (argsort dark)).
  assert (top_by dark (Z.to_nat k) top) as Htop
    by (apply argsort_top; [exact Hsort|lia]).
  assert (Forall (fun i => (i < length image)%nat) top) as Hvalid.
  { apply Forall_forall. intros i Hi.
    destruct Htop as (_ & _ & Hlt & _). rewrite Himg, <- Hdark. auto. }
  assert (length (pixels_at image top) = Z.to_nat k) as Hlen.
  { rewrite pixels_at_length by exact Hvalid. apply Htop. }
  exists top, (pdiv (fold_left padd (pixels_at image top) pzero) k).
  split; [exact Htop|]. split; [exact Hlen|]. split.
  - unfold _compute_atmospheric_light, reshape.
    rewrite Hdark, Himg, Nat.eqb_refl. cbn [mbind result_bind].
    fold k. unfold last_n. fold top.
    rewrite (accumulate_fold image top pzero Hvalid). reflexivity.
  - unfold channels, mean. rewrite !length_map, Hlen, Z2Nat.id by lia.
    rewrite fold_left_padd. reflexivity.
Qed.

End AtmosphericLightFacts.

Lemma atmospheric_light_is_top_mean_witness :
  let image : list DCP.pixel :=
    [(0, 0, 0); (1 # 4, 1 # 4, 1 # 4); (1 # 2, 1 # 2, 1 # 2); (1 # 2, 1, 0);
     (1, 1, 1)]%Q in
  let dark := [0; 1 # 4; 1 # 2; 3 # 4; 1]%Q in
  let atm_percentile := Double.nearest (6 # 10) in
  exists (top : list nat) (A : DCP.pixel),
    DCP.top_by dark (Z.to_nat (DCP.top_count (1 * 5) atm_percentile)) top /\
    length (DCP.pixels_at image top)
      = Z.to_nat (DCP.top_count (1 * 5) atm_percentile) /\
    DCP._compute_atmospheric_light DCP.insertion_argsort atm_percentile 1 5
      image dark = Ok A /\
    let '(reds, greens, blues) := DCP.channels (DCP.pixels_at image top) in
    A = (DCP.mean reds, DCP.mean greens, DCP.mean blues).
Proof.
  intros image dark atm_percentile.
  refine (atmospheric_light_is_top_mean DCP.insertion_argsort atm_percentile
            1 5 image dark _ _ _ _).
  - reflexivity.
  - reflexivity.
  - split.
    + vm_compute. reflexivity.
    + intros i j a b x y Hij Ha Hb Hx Hy.
      destruct i as [|[|[|[|[|i]]]]], j as [|[|[|[|[|j]]]]];
        try lia; try discriminate;
        vm_compute in Ha, Hb; injection Ha as <-; injection Hb as <-;
        vm_compute in Hx, Hy; injection Hx as <-; injection Hy as <-;
        vm_compute; discriminate.
  - vm_compute. discriminate.
Defined.

(** ** Where the segmentation runner writes *)

Section OutputPathFacts.

Import Pathlib CCNetPreprocess CCNetInference.

Lemma split_go_pieces sep s :
  contains sep (fst (split_go sep s)) = false /\
  Forall (fun p => contains sep p = false) (snd (split_go sep s)).
Proof.
  induction s as [|c s [IHh IHt]]; simpl; [auto|].
  destruct (split_go sep s) as [h t]. simpl in IHh, IHt.
  destruct (Ascii.eqb c sep) eqn:Hc; simpl.
  - split; [reflexivity|]. constructor; assumption.
  - rewrite Hc, IHh. auto.
Qed.

(** No piece of a split holds the separator. *)
Lemma split_pieces sep s :
  Forall (fun p => contains sep p = false) (split sep s).
Proof.
  unfold split. pose proof (split_go_pieces sep s) as [Hh Ht].
  destruct (split_go sep s) as [h t]. constructor; assumption.
Qed.

Lemma Path_parts_no_slash s :
  Forall (fun p => contains "/" p = false) (parts (Path s)).
Proof.
  unfold Path. cbn [parts].
  pose proof (split_pieces "/" s) as H. rewrite Forall_forall in H.
  apply Forall_forall. intros p Hp.
  apply list_elem_of_filter in Hp as [_ Hp]. apply H, Hp.
Qed.

Lemma contains_substring c s : forall i n,
  contains c s = false -> contains c (String.substring i n s) = false.
Proof.
  induction s as [|x s IH]; intros i n H.
  - destruct i, n; reflexivity.
  - simpl in H. apply orb_false_iff in H as [Hx Hs].
    destruct i as [|i]; [destruct n as [|n]|]; simpl.
    + reflexivity.
    + rewrite Hx. apply IH, Hs.
    + apply IH, Hs.
Qed.

Lemma stem_of_name_no c n :
  contains c n = false -> contains c (stem_of_name n) = false.
Proof.
  intros H. unfold stem_of_name.
  destruct (suffix_start n); [apply contains_substring|]; exact H.
Qed.

Lemma last_Forall {A : Type} (P : A -> Prop) (l : list A) d :
  l <> [] -> Forall P l -> P (List.last l d).
Proof.
  intros Hne H. induction H as [|x l Hx Hl IH]; [congruence|].
  destruct l as [|y l]; [exact Hx|]. apply IH. discriminate.
Qed.

Lemma startswith_contains s c : startswith s c = true -> contains c s = true.
Proof. destruct s as [|x s]; simpl; [discriminate|]. intros ->. reflexivity. Qed.

Lemma segment_kept_long x y s : segment_kept (String x (String y s)) = true.
Proof.
  unfold segment_kept. simpl. destruct (Ascii.eqb x "."); reflexivity.
Qed.

(** A file name made of a stem without slash and one of the three endings
    is one path segment. *)
Lemma Path_file stem ending :
  contains "/" stem = false -> contains "/" ending = false ->
  (2 <= String.length ending)%nat ->
  Path (stem +:+ ending) = mk_path false [stem +:+ ending].
Proof.
  intros Hs He Hlen.
  assert (contains "/" (stem +:+ ending) = false) as Hno
    by (rewrite contains_app, Hs, He; reflexivity).
  unfold Path. f_equal.
  - destruct (startswith (stem +:+ ending) "/") eqn:H; [|reflexivity].
    apply startswith_contains in H. congruence.
  - rewrite (split_no_sep _ _ Hno). cbn [filter list_filter].
    assert (segment_kept (stem +:+ ending) = true) as ->; [|reflexivity].
    destruct stem as [|x [|y stem]]; simpl.
    + destruct ending as [|x [|y e]]; simpl in Hlen; try lia.
      apply segment_kept_long.
    + destruct ending as [|y e]; simpl in Hlen; try lia.
      apply segment_kept_long.
    + apply segment_kept_long.
Qed.

Lemma strip_prefix_app pre l : strip_prefix pre (pre ++ l) = Some l.
Proof.
  induction pre as [|x pre IH]; simpl.
  - destruct l; reflexivity.
  - rewrite String.eqb_refl. exact IH.
Qed.

Lemma div_relative p s :
  absolute (Path s) = false ->
  div p s = mk_path (absolute p) (parts p ++ parts (Path s)).
Proof. intros H. unfold div. rewrite H. reflexivity. Qed.

(** The files written for one image below the image root. *)
Lemma outputs_for_flat (a : args) (rel : string) :
  absolute (Path rel) = false ->
  parts (Path rel) <> [] ->
  outputs_for a (div (Path (image_dir a)) rel) = Ok (flat_outputs a rel).
Proof.
  intros Hrel Hne.
  unfold outputs_for. rewrite (div_relative _ rel Hrel).
  unfold relative_to. cbn [absolute parts].
  rewrite Bool.eqb_reflx, strip_prefix_app. cbn [mbind result_bind].
  change (stem {| absolute := false; parts := parts (Path rel) |})
    with (stem (Path rel)).
  assert (contains "/" (stem (Path rel)) = false) as Hstem.
  { apply stem_of_name_no.
    apply (last_Forall (fun p => contains "/" p = false)); [exact Hne|].
    apply Path_parts_no_slash. }
  assert (forall ending, contains "/" ending = false ->
            (2 <= String.length ending)%nat ->
            div (Path (output_dir a)) (stem (Path rel) +:+ ending)
            = mk_path (absolute (Path (output_dir a)))
                (parts (Path (output_dir a)) ++ [stem (Path rel) +:+ ending]))
    as Hfile.
  { intros ending He Hlen. unfold div.
    rewrite (Path_file _ _ Hstem He Hlen). reflexivity. }
  rewrite !Hfile by (reflexivity || (simpl; lia)). reflexivity.
Qed.

Variable imread : path -> option (Z * Z).

(** The loop writes the files of the images in turn, up to the first
    image that [preprocess_image] rejects, and ends with the exception of
    that image. *)
Lemma run_loop_flat (a : args) (rels : list string) (rest : list path) :
  forall written,
    Forall (fun rel => absolute (Path rel) = false /\ parts (Path rel) <> []) rels ->
    Forall (fun rel =>
              exists p, preprocess_image (imread (div (Path (image_dir a)) rel))
                          (long_side a) = Ok p) rels ->
    run_loop imread a (map (div (Path (image_dir a))) rels ++ rest) written
    = (match rest with
       | [] => (written ++ concat (map (flat_outputs a) rels), None)
       | image_path :: _ =>
           match preprocess_image (imread image_path) (long_side a) with
           | Raise e => (written ++ concat (map (flat_outputs a) rels), Some e)
           | Ok _ =>
               run_loop imread a rest
                 (written ++ concat (map (flat_outputs a) rels))
           end
       end).
Proof.
  induction rels as [|rel rels IH]; intros written Hrel Hread;
    cbn [map app concat run_loop].
  - rewrite app_nil_r. destruct rest as [|p rest]; [reflexivity|].
    cbn [run_loop]. destruct (preprocess_image _ _); reflexivity.
  - inversion Hrel as [|? ? [Habs Hne] Hrels]; subst.
    inversion Hread as [|? ? [p Hp] Hreads]; subst.
    rewrite Hp, (outputs_for_flat a rel Habs Hne), (IH _ Hrels Hreads).
    rewrite <- !app_assoc. reflexivity.
Qed.

(** What the code does where C1 expects mirroring. When every image found
    below the image root is accepted by [preprocess_image], the run ends
    normally and has written, for each image in turn, the mask as
    [<stem>_mask.png] directly in the output directory, where [<stem>] is
    the stem of the image's file name, and next to it [<stem>_overlay.png]
    and [<stem>_labeled.png] when they are enabled: the subdirectories of
    the image below the image root do not appear in the output paths. *)
Lemma outputs_flat_in_output_dir (a : args) (rels : list string) :
  rels <> [] ->
  Forall (fun rel => absolute (Path rel) = false /\ parts (Path rel) <> []) rels ->
  Forall (fun rel =>
            exists p, preprocess_image (imread (div (Path (image_dir a)) rel))
                        (long_side a) = Ok p) rels ->
  run_inference imread a true (map (div (Path (image_dir a))) rels)
  = (concat (map (flat_outputs a) rels), None) /\
  Forall (fun rel =>
            Forall (fun out => parent (snd out) = Path (output_dir a))
                   (flat_outputs a rel)) rels.
Proof.
  intros Hne Hrel Hread. split.
  - unfold run_inference. cbn [negb].
    destruct rels as [|rel rels]; [congruence|].
    pose proof (run_loop_flat a (rel :: rels) [] [] Hrel Hread) as H.
    rewrite app_nil_r in H. exact H.
  - apply Forall_forall. intros rel _. unfold flat_outputs.
    assert (forall ending,
      parent (mk_path (absolute (Path (output_dir a)))
                (parts (Path (output_dir a)) ++ [stem (Path rel) +:+ ending]))
      = Path (output_dir a)) as Hparent.
    { intros ending. unfold parent. cbn [absolute parts].
      rewrite removelast_last. destruct (Path (output_dir a)); reflexivity. }
    destruct (save_overlay a), (save_labeled a);
      repeat constructor; apply Hparent.
Qed.

End OutputPathFacts.

(** A run on two subdirectories, with the overlay enabled. *)
Lemma outputs_flat_in_output_dir_example :
  CCNetInference.run_inference (fun _ => Some (480, 640)%Z)
    (CCNetInference.mk_args "images" "outputs/custom" 1024 true false) true
    [Pathlib.Path "images/city/a/x.jpg"; Pathlib.Path "images/y.png"]
  = ([(CCNetInference.Mask, Pathlib.Path "outputs/custom/x_mask.png");
      (CCNetInference.Overlay, Pathlib.Path "outputs/custom/x_overlay.png");
      (CCNetInference.Mask, Pathlib.Path "outputs/custom/y_mask.png");
      (CCNetInference.Overlay, Pathlib.Path "outputs/custom/y_overlay.png")],
     None).
Proof.
  refine (proj1 (outputs_flat_in_output_dir (fun _ => Some (480, 640)%Z)
            (CCNetInference.mk_args "images" "outputs/custom" 1024 true false)
            ["city/a/x.jpg"; "y.png"] _ _ _)).
  - discriminate.
  - repeat constructor; discriminate.
  - repeat constructor; eexists; vm_compute; reflexivity.
Qed.

(** C1 fails on the code: the loop computes the path of the image below
    the image root and then keeps only its stem. With two images of the
    same name in two subdirectories, [images/city/x.jpg] and
    [images/town/x.jpg], both decodable, the mirrored masks would be
    [outputs/city/x_mask.png] and [outputs/town/x_mask.png]; the run writes
    [outputs/x_mask.png] twice, the second over the first, and ends
    normally. *)
Lemma outputs_do_not_mirror :
  let a := CCNetInference.mk_args "images" "outputs" 1024 false false in
  let imread := fun _ : Pathlib.path => Some (480, 640)%Z in
  let mirrored_mask := fun rel =>
    CCNetInference.mirrored (Pathlib.Path "outputs") (Pathlib.Path rel)
      "x_mask.png" in
  Pathlib.str (mirrored_mask "city/x.jpg") = "outputs/city/x_mask.png" /\
  Pathlib.str (mirrored_mask "town/x.jpg") = "outputs/town/x_mask.png" /\
  CCNetInference.run_inference imread a true
    [Pathlib.Path "images/city/x.jpg"; Pathlib.Path "images/town/x.jpg"]
  = ([(CCNetInference.Mask, Pathlib.Path "outputs/x_mask.png");
      (CCNetInference.Mask, Pathlib.Path "outputs/x_mask.png")], None) /\
  CCNetInference.run_inference imread a true
    [Pathlib.Path "images/city/x.jpg"; Pathlib.Path "images/town/x.jpg"]
  <> ([(CCNetInference.Mask, mirrored_mask "city/x.jpg");
       (CCNetInference.Mask, mirrored_mask "town/x.jpg")], None).
Proof. vm_compute. repeat split; discriminate. Qed.

(** ** Label placement *)

Section LabelPlacementFacts.

Import CCNetInference.

Variable components : list (list bool) -> list component.

Lemma dist2_sym p q : dist2 p q = dist2 q p.
Proof. unfold dist2. ring. Qed.

Lemma too_close_false w l c :
  too_close w l c = false ->
  forall e, e ∈ l -> (min_distance w ^ 2 <= dist2 c e)%Z.
Proof.
  unfold too_close. intros H e He.
  destruct (Z.ltb_spec (dist2 c e) (min_distance w ^ 2)) as [Hlt|]; [|assumption].
  assert (existsb (fun e => (dist2 c e <? min_distance w ^ 2)%Z) l = true);
    [|congruence].
  apply existsb_exists. exists e. split; [apply list_elem_of_In, He|].
  apply Z.ltb_lt, Hlt.
Qed.

Lemma place_separated w l c : separated w l -> separated w (place w l c).
Proof.
  intros Hsep. unfold place.
  destruct (too_close w l c) eqn:Hc; [exact Hsep|].
  pose proof (too_close_false w l c Hc) as Hfar.
  intros i j p q Hij Hp Hq.
  apply lookup_snoc_Some in Hp as [[Hi Hp]|[Hi <-]];
    apply lookup_snoc_Some in Hq as [[Hj Hq]|[Hj <-]].
  - eapply Hsep; eauto.
  - rewrite dist2_sym. apply Hfar. eapply list_elem_of_lookup_2, Hp.
  - apply Hfar. eapply list_elem_of_lookup_2, Hq.
  - lia.
Qed.

Lemma fold_place_separated w cands : forall l,
  separated w l -> separated w (fold_left (place w) cands l).
Proof.
  induction cands as [|c cands IH]; intros l Hl; simpl; [exact Hl|].
  apply IH, place_separated, Hl.
Qed.

(** The loop over the components of a class offers its anchors in
    order. *)
Lemma place_components_fold w min_region_size comps css : forall l,
  fold_left (place_component w min_region_size comps) css l =
  fold_left (place w)
    (omap (fun cs : nat * Z =>
             if (snd cs <? min_region_size)%Z then None
             else c ← comps !! (fst cs - 1)%nat; anchor c) css) l.
Proof.
  induction css as [|cs css IH]; intros l; [reflexivity|].
  cbn [fold_left omap list_omap]. rewrite IH.
  unfold place_component at 1.
  destruct (snd cs <? min_region_size)%Z; [reflexivity|].
  destruct (comps !! (fst cs - 1)%nat) as [[sz [c|]]|]; reflexivity.
Qed.

Lemma place_classes_fold w mask num_names min_region_size max_labels classes :
  forall l,
    fold_left (place_class components w min_region_size max_labels num_names mask)
      classes l =
    fold_left (place w)
      (concat (map (class_candidates components min_region_size max_labels
                      num_names mask) classes)) l.
Proof.
  induction classes as [|class_id classes IH]; intros l; [reflexivity|].
  cbn [fold_left map concat]. rewrite fold_left_app, IH. f_equal.
  unfold place_class, class_candidates.
  destruct (Z.of_nat num_names <=? class_id)%Z; [reflexivity|].
  apply place_components_fold.
Qed.

Lemma insert_unique_sorted x l :
  StronglySorted Z.lt l -> StronglySorted Z.lt (insert_unique x l) /\
  forall y, y ∈ insert_unique x l -> y = x \/ y ∈ l.
Proof.
  induction 1 as [|y l Hl IH Hy]; simpl.
  - split; [repeat constructor|]. intros y Hy.
    apply list_elem_of_singleton in Hy. auto.
  - destruct IH as [IHs IHin].
    destruct (Z.ltb_spec x y) as [Hxy|Hxy].
    + split.
      * constructor; [constructor; assumption|].
        constructor; [exact Hxy|].
        eapply Forall_impl; [exact Hy|]. simpl. intros; lia.
      * intros z Hz. apply elem_of_cons in Hz as [->|Hz]; auto.
    + destruct (Z.eqb_spec x y) as [->|Hne].
      * split; [constructor; assumption|auto].
      * split.
        -- constructor; [exact IHs|].
           apply Forall_forall. intros z Hz.
           destruct (IHin z Hz) as [->|Hz']; [lia|].
           rewrite Forall_forall in Hy. apply Hy, Hz'.
        -- intros z Hz. apply elem_of_cons in Hz as [->|Hz].
           ++ right. left.
           ++ destruct (IHin z Hz) as [->|Hz']; [auto|]. right. right. exact Hz'.
Qed.

(** [np.unique] answers the classes in ascending order. *)
Lemma np_unique_sorted mask : StronglySorted Z.lt (np_unique mask).
Proof.
  unfold np_unique. induction (concat mask) as [|x l IH]; simpl.
  - constructor.
  - apply insert_unique_sorted, IH.
Qed.

Lemma insert_desc_sorted x l :
  StronglySorted larger_first l ->
  StronglySorted larger_first (insert_desc x l) /\
  forall y, y ∈ insert_desc x l -> y = x \/ y ∈ l.
Proof.
  induction 1 as [|y l Hl IH Hy]; simpl.
  - split; [repeat constructor|]. intros y Hy.
    apply list_elem_of_singleton in Hy. auto.
  - destruct IH as [IHs IHin].
    destruct (Z.ltb_spec (snd y) (snd x)) as [Hyx|Hyx].
    + split.
      * constructor; [constructor; assumption|].
        constructor; [unfold larger_first; lia|].
        eapply Forall_impl; [exact Hy|]. unfold larger_first. simpl. intros; lia.
      * intros z Hz. apply elem_of_cons in Hz as [->|Hz]; auto.
    + split.
      * constructor; [exact IHs|].
        apply Forall_forall. intros z Hz.
        destruct (IHin z Hz) as [->|Hz']; [unfold larger_first; lia|].
        rewrite Forall_forall in Hy. apply Hy, Hz'.
      * intros z Hz. apply elem_of_cons in Hz as [->|Hz].
        -- right. left.
        -- destruct (IHin z Hz) as [->|Hz']; [auto|]. right. right. exact Hz'.
Qed.

Lemma sort_desc_sorted l : StronglySorted larger_first (sort_desc l).
Proof.
  unfold sort_desc.
  assert (forall acc, StronglySorted larger_first acc ->
            StronglySorted larger_first
              (fold_left (fun acc x => insert_desc x acc) l acc)) as H.
  { induction l as [|x l IH]; intros acc Hacc; simpl; [exact Hacc|].
    apply IH, insert_desc_sorted, Hacc. }
  apply H. constructor.
Qed.

Lemma StronglySorted_take {A : Type} (R : A -> A -> Prop) n l :
  StronglySorted R l -> StronglySorted R (take n l).
Proof.
  intros H. revert n. induction H as [|x l Hl IH Hx]; intros [|n]; simpl;
    try constructor.
  - apply IH.
  - apply Forall_take, Hx.
Qed.

(** The components kept for a class come largest first. *)
Lemma component_sizes_sorted comps max_labels :
  StronglySorted larger_first (component_sizes comps max_labels).
Proof.
  unfold component_sizes, slice_to.
  destruct (max_labels <? 0)%Z; apply StronglySorted_take, sort_desc_sorted.
Qed.

(** C6, as the code has it. Every two labels placed by
    [add_labels_to_image] are at Euclidean distance at least
    [max(60, floor(80 * width / 1024))] from each other. The labels are
    what the first-come rule keeps of the candidate anchors: each candidate,
    in the order the loops reach it, is placed unless a label placed before
    it is nearer than that distance; the classes come in ascending index
    order, and the components of a class largest first. *)
Theorem labels_keep_min_distance (w : Z) (mask : list (list Z))
    (num_names : nat) (min_region_size max_labels_per_class : Z) :
  let placed :=
    add_labels_to_image components w mask num_names min_region_size
      max_labels_per_class in
  let cands :=
    candidates components mask num_names min_region_size
      max_labels_per_class in
  separated w placed /\
  placed = fold_left (place w) cands [] /\
  (forall k c, cands !! k = Some c ->
     fold_left (place w) (take (S k) cands) [] =
       let before := fold_left (place w) (take k cands) [] in
       if too_close w before c then before else before ++ [c]) /\
  StronglySorted Z.lt (np_unique mask) /\
  (forall comps,
     StronglySorted larger_first
       (component_sizes comps max_labels_per_class)).
Proof.
  intros placed cands.
  assert (placed = fold_left (place w) cands []) as Hfold
    by apply place_classes_fold.
  split; [|split; [exact Hfold|split; [|split]]].
  - rewrite Hfold. apply fold_place_separated.
    intros i j p q _ Hp. rewrite lookup_nil in Hp. discriminate.
  - intros k c Hk. rewrite (take_S_r _ _ _ Hk), fold_left_app. reflexivity.
  - apply np_unique_sorted.
  - intros comps. apply component_sizes_sorted.
Qed.

End LabelPlacementFacts.

(** C6 as stated has the labels [max(60, 80 * width / 1024)] apart,
    without the truncation. In an image 1000 pixels wide that is 78.125
    pixels; the code compares with 78, and places the labels of two squares
    whose anchors are exactly 78 pixels apart. *)
Lemma labels_closer_than_stated :
  CCNetInference.add_labels_to_image CCNetInference.two_squares_components
    1000 CCNetInference.two_squares_mask 19 500 3
  = [(499, 59); (99, 99); (177, 99)]%Z /\
  CCNetInference.min_distance 1000 = 78%Z /\
  (inject_Z (CCNetInference.dist2 (99, 99)%Z (177, 99)%Z)
     < CCNetInference.stated_distance 1000 * CCNetInference.stated_distance 1000)%Q.
Proof. vm_compute. repeat split. Qed.

(** ** Registration of an image folder *)

Section RegisterFacts.

Import Pathlib RegisterDataset.

Lemma insert_str_perm x l : insert_str x l ≡ₚ x :: l.
Proof.
  induction l as [|y l IH]; simpl; [reflexivity|].
  destruct (String.ltb x y); [reflexivity|].
  rewrite IH. apply perm_swap.
Qed.

(** [sorted] rearranges, it neither drops nor adds. *)
Lemma sorted_perm l : sorted l ≡ₚ l.
Proof.
  unfold sorted.
  assert (forall acc, fold_left (fun acc x => insert_str x acc) l acc ≡ₚ acc ++ l)
    as H.
  { induction l as [|x l IH]; intros acc; simpl.
    - rewrite app_nil_r. reflexivity.
    - rewrite IH, insert_str_perm. apply Permutation_middle. }
  apply (H []).
Qed.




End RegisterFacts.


(** * Further properties of the code *)

(** ** Results of the error monad *)

Section ResultFacts.

Lemma bind_Ok {A B : Type} (r : result A) (k : A -> result B) (b : B) :
  (r ≫= k) = Ok b -> exists a, r = Ok a /\ k a = Ok b.
Proof. destruct r as [a|e]; [eauto|discriminate]. Qed.

Lemma assert_Ok (cond : bool) (u : unit) : assert cond = Ok u -> cond = true.
Proof. destruct cond; [reflexivity|discriminate]. Qed.

End ResultFacts.

(** ** [parse_devices]: the devices it returns *)

Section ParseDevicesBounds.

Import PytUtils.

Lemma contains_lstrip c s : contains c s = false -> contains c (lstrip s) = false.
Proof.
  induction s as [|x s IH]; simpl; [reflexivity|].
  intros H. apply orb_false_iff in H as [Hx Hs].
  destruct (is_space x); [auto|]. simpl. rewrite Hx. exact Hs.
Qed.

Lemma contains_rstrip c s : contains c s = false -> contains c (rstrip s) = false.
Proof.
  induction s as [|x s IH]; simpl; [reflexivity|].
  intros H. apply orb_false_iff in H as [Hx Hs]. specialize (IH Hs).
  destruct (rstrip s) as [|y r].
  - destruct (is_space x); [reflexivity|]. simpl. rewrite Hx. reflexivity.
  - cbn [contains]. cbn [contains] in IH. rewrite Hx. exact IH.
Qed.

Lemma is_digit_val c : is_digit c = true -> (0 <= digit_val c <= 9)%Z.
Proof.
  unfold is_digit, digit_val. intros H.
  apply andb_true_iff in H as [H1 H2].
  apply Nat.leb_le in H1, H2. lia.
Qed.

Lemma digits_acc_nonneg s : forall acc,
  all_digits s = true -> (0 <= acc)%Z -> (0 <= digits_acc acc s)%Z.
Proof.
  induction s as [|c s IH]; intros acc H Hacc; simpl; [exact Hacc|].
  simpl in H. apply andb_true_iff in H as [Hc Hs].
  apply IH; [exact Hs|]. pose proof (is_digit_val c Hc). lia.
Qed.

Lemma all_digits_app a b :
  all_digits (a +:+ b) = all_digits a && all_digits b.
Proof.
  induction a as [|c a IH]; simpl; [reflexivity|].
  rewrite IH. apply andb_assoc.
Qed.

Lemma all_digits_join groups :
  forallb isdigit groups = true -> all_digits (join "" groups) = true.
Proof.
  induction groups as [|g groups IH]; [reflexivity|].
  intros H. simpl in H. apply andb_true_iff in H as [Hg Hgs].
  apply isdigit_all_digits in Hg.
  destruct groups as [|g' groups]; [exact Hg|].
  change (join "" (g :: g' :: groups)) with (g +:+ "" +:+ join "" (g' :: groups)).
  rewrite !all_digits_app, Hg, (IH Hgs). reflexivity.
Qed.

Lemma int_unsigned_nonneg body n : int_unsigned body = Ok n -> (0 <= n)%Z.
Proof.
  unfold int_unsigned.
  destruct (forallb isdigit (split "_" body)) eqn:H; [|discriminate].
  intros [= <-]. apply digits_acc_nonneg; [|lia].
  apply all_digits_join, H.
Qed.

(** [int] of a text without a minus sign is not negative. *)
Lemma int_nonneg s n : contains "-" s = false -> int s = Ok n -> (0 <= n)%Z.
Proof.
  intros Hs. unfold int.
  pose proof (contains_rstrip "-" _ (contains_lstrip "-" _ Hs)) as Hno.
  destruct (rstrip (lstrip s)) as [|c body] eqn:Hstripped.
  - apply int_unsigned_nonneg.
  - destruct (Ascii.eqb_spec c "-") as [->|Hm].
    { simpl in Hno. discriminate. }
    destruct (Ascii.eqb_spec c "+") as [->|Hp].
    { apply int_unsigned_nonneg. }
    destruct c as [[] [] [] [] [] [] [] []];
      try apply int_unsigned_nonneg; congruence.
Qed.

Lemma range_bounds a b x : x ∈ range a b -> (a <= x < b)%Z.
Proof.
  unfold range. rewrite list_elem_of_fmap. intros (i & -> & Hi).
  apply elem_of_seq in Hi. lia.
Qed.

Lemma index_elem {A : Type} (l : list A) (i : Z) (x : A) :
  index l i = Ok x -> x ∈ l.
Proof.
  unfold index.
  destruct (_ <? 0)%Z; [discriminate|].
  destruct (l !! _) as [y|] eqn:Hl; [|discriminate].
  intros [= <-]. eapply list_elem_of_lookup_2, Hl.
Qed.

Lemma parse_device_in_bounds device_count d l :
  parse_device device_count d = Ok l ->
  Forall (fun x => (0 <= x < device_count)%Z) l.
Proof.
  unfold parse_device. destruct (contains "-" d) eqn:Hd.
  - intros H.
    apply bind_Ok in H as (sd & Hsd & H).
    apply bind_Ok in H as (ed & Hed & H).
    apply bind_Ok in H as (? & _ & H).
    apply bind_Ok in H as (? & _ & H).
    apply bind_Ok in H as (a & Ha & H).
    apply bind_Ok in H as (b & Hb & H).
    apply bind_Ok in H as (? & Hab & H).
    apply bind_Ok in H as (? & Hbn & H).
    injection H as <-.
    apply assert_Ok, Z.ltb_lt in Hab, Hbn.
    assert (contains "-" sd = false) as Hno.
    { pose proof (split_pieces "-" d) as Hp. rewrite Forall_forall in Hp.
      apply Hp, (index_elem _ _ _ Hsd). }
    pose proof (int_nonneg sd a Hno Ha).
    apply Forall_forall. intros dev Hdev. apply range_bounds in Hdev. lia.
  - intros H.
    apply bind_Ok in H as (v & Hv & H).
    apply bind_Ok in H as (? & Hvn & H).
    injection H as <-. apply assert_Ok, Z.ltb_lt in Hvn.
    pose proof (int_nonneg d v Hd Hv).
    constructor; [lia|constructor].
Qed.

Lemma parse_device_loop_in_bounds device_count ds : forall devices l,
  Forall (fun x => (0 <= x < device_count)%Z) devices ->
  parse_device_loop device_count ds devices = Ok l ->
  Forall (fun x => (0 <= x < device_count)%Z) l.
Proof.
  induction ds as [|d ds IH]; intros devices l Hdev; simpl.
  - intros [= <-]. exact Hdev.
  - intros H. apply bind_Ok in H as (more & Hmore & H).
    apply (IH _ _ (Forall_app_2 _ _ _ Hdev (parse_device_in_bounds _ _ _ Hmore)) H).
Qed.

(** X1. Whatever the specification string, the devices [parse_devices]
    returns are indices of available devices: each is at least 0 and below
    the device count. *)
Theorem parse_devices_in_bounds (device_count : Z) (input_devices : string)
    (devices : list Z) :
  parse_devices device_count input_devices = Ok devices ->
  Forall (fun d => (0 <= d < device_count)%Z) devices.
Proof.
  unfold parse_devices. destruct (endswith input_devices "*").
  - intros [= <-]. apply Forall_forall. intros x Hx.
    apply range_bounds in Hx. exact Hx.
  - apply parse_device_loop_in_bounds. constructor.
Qed.

End ParseDevicesBounds.

Lemma parse_devices_in_bounds_witness :
  Forall (fun d => (0 <= d < 4)%Z) [1; 2; 3; 0]%Z.
Proof.
  apply (parse_devices_in_bounds 4 " 1,2-3,+0" [1; 2; 3; 0]%Z).
  reflexivity.
Defined.

(** ** [load_model]: what is loaded and what is reported *)

Section LoadReportFacts.

Import PytUtils LoadReport.

Variable model_state : gmap string tensor.

Lemma fits_in_model key v :
  fits model_state key v = true -> key ∈ dom model_state.
Proof.
  unfold fits. destruct (model_state !! key) eqn:H; [|discriminate].
  intros _. apply elem_of_dom. eauto.
Qed.

Lemma try_pattern_in_model v parts i head part new_key :
  try_pattern model_state v parts i head part = Some new_key ->
  fits model_state new_key v = true.
Proof.
  unfold try_pattern.
  destruct (head part && _); [|discriminate].
  destruct (parts !! _); [|discriminate].
  destruct (mem _ _); [|discriminate].
  destruct (fits model_state (insert_zero parts i) v) eqn:Hfit; [|discriminate].
  intros [= <-]. exact Hfit.
Qed.

Lemma scan_parts_in_model v parts : forall todo i new_key,
  scan_parts model_state v parts i todo = Some new_key ->
  fits model_state new_key v = true.
Proof.
  induction todo as [|part todo IH]; intros i new_key; cbn [scan_parts];
    [discriminate|].
  destruct (try_pattern model_state v parts i _ part) eqn:H1.
  { intros [= <-]. eapply try_pattern_in_model, H1. }
  destruct (try_pattern model_state v parts i isdigit part) eqn:H2.
  { intros [= <-]. eapply try_pattern_in_model, H2. }
  apply IH.
Qed.

(** The key an entry is stored under is a key of the model that fits the
    value, or the entry's own key. *)
Lemma remap_key_cases k v :
  fits model_state (remap_key model_state k v) v = true \/
  remap_key model_state k v = k.
Proof.
  unfold remap_key. destruct (fits model_state k v) eqn:Hk; [auto|].
  destruct (scan_parts model_state v (split "." k) 0 (split "." k)) eqn:Hs;
    [|auto].
  left. eapply scan_parts_in_model, Hs.
Qed.

Lemma remap_fold_dom state_dict : forall remapped : gmap string tensor,
  dom (fold_left (remap_entry model_state) state_dict remapped)
  = dom remapped ∪ list_to_set (targets model_state state_dict).
Proof.
  induction state_dict as [|kv sd IH]; intros remapped; cbn [fold_left].
  - unfold targets. cbn [map list_to_set]. rewrite union_empty_r_L. reflexivity.
  - rewrite IH. unfold remap_entry, targets. cbn [map list_to_set].
    rewrite dom_insert_L, (comm_L (∪) {[_]}), (assoc_L (∪)). reflexivity.
Qed.

Lemma remap_dom state_dict :
  dom (remap_state_dict model_state state_dict)
  = list_to_set (targets model_state state_dict).
Proof.
  unfold remap_state_dict.
  rewrite remap_fold_dom, dom_empty_L, union_empty_l_L. reflexivity.
Qed.

(** X2. The keys [load_model] reports, with or without the ['module.']
    prefix of [is_restore]. A key is missing exactly when it is a key of
    the model under which no checkpoint entry is stored. A key is
    unexpected only if it is the key of a checkpoint entry, as the
    checkpoint has it (after prefixing), and not a key of the model: a
    rewritten key is never reported. Among the missing keys, those that
    hold ['num_batches_tracked'] are not logged. *)
Theorem load_report_keys (state_dict : list (string * tensor))
    (is_restore : bool) :
  let r := load_report model_state state_dict is_restore in
  let entries := if is_restore then restore_keys state_dict else state_dict in
  (forall k, k ∈ missing_keys r <->
     k ∈ dom model_state /\ k ∉ targets model_state entries) /\
  (forall k, k ∈ unexpected_keys r ->
     (k ∉ dom model_state) /\
     (exists v, (k, v) ∈ entries /\ remap_key model_state k v = k)) /\
  (forall k, k ∈ missing_keys_filtered r <->
     k ∈ missing_keys r /\ is_substring "num_batches_tracked" k = false).
Proof.
  intros r entries. subst r. unfold load_report, load_model_mapping.
  fold entries.
  cbn [missing_keys unexpected_keys missing_keys_filtered].
  rewrite remap_dom. split; [|split].
  - intros k. rewrite elem_of_difference, elem_of_list_to_set. reflexivity.
  - intros k. rewrite elem_of_difference, elem_of_list_to_set.
    intros [Hin Hown]. split; [exact Hown|].
    unfold targets in Hin. apply list_elem_of_fmap in Hin as ([k' v] & -> & Hkv).
    simpl in *. destruct (remap_key_cases k' v) as [Hfit|Heq].
    + exfalso. apply Hown. eapply fits_in_model, Hfit.
    + exists v. rewrite Heq in *. auto.
  - intros k. rewrite elem_of_filter. tauto.
Qed.

Lemma remap_key_fits k v :
  fits model_state k v = true -> remap_key model_state k v = k.
Proof. intros H. unfold remap_key. rewrite H. reflexivity. Qed.

(** X3. A checkpoint whose entries all fit the model as they are (each key
    in the model with the same shape, no key twice) is loaded as it is:
    the mapping handed to the model is the checkpoint, and no key is
    reported as unexpected. *)
Theorem load_model_fitting_checkpoint (state_dict : list (string * tensor)) :
  NoDup (map fst state_dict) ->
  Forall (fun kv => fits model_state (fst kv) (snd kv) = true) state_dict ->
  load_model_mapping model_state state_dict false = list_to_map state_dict /\
  unexpected_keys (load_report model_state state_dict false) = ∅.
Proof.
  intros Hnd Hfit.
  assert (targets model_state state_dict = map fst state_dict) as Htargets.
  { unfold targets. apply map_ext_Forall.
    eapply Forall_impl; [exact Hfit|]. intros kv. apply remap_key_fits. }
  split.
  - unfold load_model_mapping. apply map_eq. intros k.
    destruct (decide (k ∈ map fst state_dict)) as [Hin|Hout].
    + apply list_elem_of_fmap in Hin as ([k' v] & -> & Hkv). simpl.
      rewrite (proj1 (elem_of_list_to_map _ _ _ Hnd) Hkv).
      apply list_elem_of_split in Hkv as (before & after & ->).
      unfold remap_state_dict. rewrite fold_left_app. cbn [fold_left].
      rewrite remap_fold_other.
      * unfold remap_entry. cbn [fst snd].
        rewrite remap_key_fits; [apply lookup_insert_eq|].
        rewrite Forall_app, Forall_cons in Hfit. apply Hfit.
      * rewrite map_app in Hnd. apply NoDup_app in Hnd as (_ & _ & Hnd).
        cbn [map fst] in Hnd. apply NoDup_cons in Hnd as [Hk' _].
        rewrite Forall_app, Forall_cons in Hfit.
        destruct Hfit as (_ & _ & Hafter).
        apply Forall_forall. intros kv Hkv.
        rewrite Forall_forall in Hafter.
        rewrite (remap_key_fits _ _ (Hafter kv Hkv)).
        intros Heq. apply Hk'. rewrite <- Heq.
        apply list_elem_of_fmap. eauto.
    + rewrite (proj1 (not_elem_of_list_to_map _ _) Hout).
      apply not_elem_of_dom. rewrite remap_dom, Htargets.
      rewrite elem_of_list_to_set. exact Hout.
  - unfold load_report, load_model_mapping. cbn [unexpected_keys].
    rewrite remap_dom, Htargets. apply set_eq. intros k.
    rewrite elem_of_difference, elem_of_list_to_set.
    split; [|intros H; apply elem_of_empty in H; contradiction].
    intros [Hin Hown]. exfalso. apply Hown.
    apply list_elem_of_fmap in Hin as (kv & -> & Hkv).
    rewrite Forall_forall in Hfit. eapply fits_in_model, Hfit, Hkv.
Qed.

Lemma try_pattern_form v parts i head part new_key :
  try_pattern model_state v parts i head part = Some new_key ->
  new_key = insert_zero parts i /\ (i + 1 < length parts)%nat.
Proof.
  unfold try_pattern.
  destruct (head part); cbn [andb]; [|discriminate].
  destruct (Nat.ltb_spec (i + 1) (length parts)) as [Hlt|]; [|discriminate].
  destruct (parts !! _); [|discriminate].
  destruct (mem _ _); [|discriminate].
  destruct (fits _ _ _); [|discriminate].
  intros [= <-]. auto.
Qed.

Lemma scan_parts_form v parts : forall todo i new_key,
  scan_parts model_state v parts i todo = Some new_key ->
  exists j, new_key = insert_zero parts j /\ (j + 1 < length parts)%nat.
Proof.
  induction todo as [|part todo IH]; intros i new_key; cbn [scan_parts];
    [discriminate|].
  destruct (try_pattern model_state v parts i _ part) eqn:H1.
  { intros [= <-]. eexists. eapply try_pattern_form, H1. }
  destruct (try_pattern model_state v parts i isdigit part) eqn:H2.
  { intros [= <-]. eexists. eapply try_pattern_form, H2. }
  apply IH.
Qed.

(** X4. The key an entry is stored under is the checkpoint key itself, or
    the checkpoint key with one segment ['0'] put between two of its
    segments and nothing else changed: split at the dots, it is the
    segments of the checkpoint key up to some position, then ['0'], then
    the remaining segments (at least one). Such a rewritten key is a key of
    the model with the shape of the value. *)
Theorem remap_key_inserts_one_segment (k : string) (v : tensor) :
  remap_key model_state k v = k \/
  (exists i, (i + 1 < length (split "." k))%nat /\
     split "." (remap_key model_state k v)
       = take (i + 1) (split "." k) ++ ["0"] ++ drop (i + 1) (split "." k) /\
     fits model_state (remap_key model_state k v) v = true).
Proof.
  unfold remap_key. destruct (fits model_state k v) eqn:Hk; [auto|].
  destruct (scan_parts model_state v (split "." k) 0 (split "." k))
    as [new_key|] eqn:Hs; [|auto].
  right. pose proof (scan_parts_in_model _ _ _ _ _ Hs) as Hfit.
  apply scan_parts_form in Hs as (i & -> & Hi).
  exists i. split; [exact Hi|]. split; [|exact Hfit].
  unfold insert_zero. apply split_join.
  - destruct (take (i + 1) (split "." k)); discriminate.
  - pose proof (split_pieces "." k) as Hp.
    rewrite !Forall_app. split; [apply Forall_take, Hp|].
    split; [repeat constructor|apply Forall_drop, Hp].
Qed.

End LoadReportFacts.

Lemma load_model_fitting_checkpoint_witness :
  let model_state : gmap string PytUtils.tensor :=
    {[ "conv1.weight" := PytUtils.mk_ndarray [2%nat] [];
       "conv1.bias" := PytUtils.mk_ndarray [3%nat] [] ]} in
  let state_dict := [("conv1.weight", PytUtils.mk_ndarray [2%nat] [1; 2]%Q)] in
  PytUtils.load_model_mapping model_state state_dict false
    = list_to_map state_dict /\
  LoadReport.unexpected_keys (LoadReport.load_report model_state state_dict false)
    = ∅.
Proof.
  intros model_state state_dict.
  apply (load_model_fitting_checkpoint model_state state_dict).
  - apply NoDup_singleton.
  - repeat constructor.
Defined.

(** ** The names of the saved frames *)

Section FrameNameFacts.

Import Sample.

Lemma digits_acc_app s1 s2 acc :
  digits_acc acc (s1 +:+ s2) = digits_acc (digits_acc acc s1) s2.
Proof.
  revert acc. induction s1 as [|c s1 IH]; intros acc; [reflexivity|].
  change (String c s1 +:+ s2) with (String c (s1 +:+ s2)).
  cbn [digits_acc]. apply IH.
Qed.

Lemma string_app_cons (c : ascii) (a b : string) :
  String c a +:+ b = String c (a +:+ b).
Proof. reflexivity. Qed.

Lemma string_app_assoc (a b c : string) : (a +:+ b) +:+ c = a +:+ (b +:+ c).
Proof.
  induction a as [|x a IH]; [reflexivity|].
  rewrite !string_app_cons, IH. reflexivity.
Qed.

Lemma append_length (a b : string) :
  String.length (a +:+ b) = (String.length a + String.length b)%nat.
Proof.
  induction a as [|c a IH]; [reflexivity|].
  rewrite string_app_cons. cbn [String.length]. rewrite IH. reflexivity.
Qed.

Lemma string_app_nil_r (a : string) : a +:+ "" = a.
Proof.
  induction a as [|c a IH]; [reflexivity|].
  rewrite string_app_cons, IH. reflexivity.
Qed.

Lemma digit_char (d : nat) :
  (d < 10)%nat ->
  is_digit (ascii_of_nat (48 + d)) = true /\
  digit_val (ascii_of_nat (48 + d)) = Z.of_nat d.
Proof.
  intros Hd. unfold is_digit, digit_val.
  rewrite nat_ascii_embedding by lia.
  split; [|lia].
  apply andb_true_iff. split; apply Nat.leb_le; lia.
Qed.

(** The digits [decimal_go] puts before [acc] are those of [n]. *)
Lemma decimal_go_spec fuel : forall n acc,
  (n < fuel)%nat ->
  exists ds,
    decimal_go fuel n acc = ds +:+ acc /\
    all_digits ds = true /\ ds <> "" /\
    forall a, exists k : nat,
      digits_acc a ds = (a * 10 ^ Z.of_nat k + Z.of_nat n)%Z.
Proof.
  induction fuel as [|fuel IH]; intros n acc Hn; [lia|].
  cbn [decimal_go].
  pose proof (Nat.mod_upper_bound n 10 ltac:(lia)) as Hd.
  destruct (digit_char (n mod 10) Hd) as [Hdig Hval].
  pose proof (Nat.div_mod_eq n 10) as Hdm.
  destruct (Nat.eqb_spec (n / 10) 0) as [Hz|Hnz].
  - exists (String (ascii_of_nat (48 + n mod 10)) "").
    split; [reflexivity|]. split; [cbn [all_digits]; rewrite Hdig; reflexivity|].
    split; [discriminate|].
    intros a. exists 1%nat. cbn [digits_acc]. rewrite Hval. lia.
  - destruct (IH (n / 10)%nat
                (String (ascii_of_nat (48 + n mod 10)) acc)) as (ds & Hgo & Hall & _ & Hv).
    { assert (n / 10 < n)%nat by (apply Nat.div_lt; lia). lia. }
    exists (ds +:+ String (ascii_of_nat (48 + n mod 10)) "").
    split.
    { rewrite Hgo, string_app_assoc. reflexivity. }
    split.
    { rewrite all_digits_app, Hall. cbn [all_digits]. rewrite Hdig. reflexivity. }
    split.
    { destruct ds; discriminate. }
    intros a. destruct (Hv a) as [k Hk]. exists (S k).
    rewrite digits_acc_app, Hk. cbn [digits_acc]. rewrite Hval.
    rewrite Nat2Z.inj_succ, Z.pow_succ_r by lia. lia.
Qed.

Lemma zeros_digits m : all_digits (zeros m) = true /\
  forall s, digits_acc 0 (zeros m +:+ s) = digits_acc 0 s.
Proof.
  induction m as [|m [IHa IHv]]; [split; reflexivity|].
  split; [exact IHa|]. intros s.
  change (zeros (S m) +:+ s) with (String "0" (zeros m +:+ s)).
  cbn [digits_acc]. apply IHv.
Qed.

Lemma decimal_digits (n : nat) :
  all_digits (decimal n) = true /\ decimal n <> "" /\
  digits_value (decimal n) = Z.of_nat n.
Proof.
  destruct (decimal_go_spec (S n) n "" ltac:(lia)) as (ds & Hgo & Hall & Hne & Hv).
  assert (decimal n = ds) as ->
    by (unfold decimal; rewrite Hgo; apply string_app_nil_r).
  repeat split; [exact Hall|exact Hne|].
  unfold digits_value. destruct (Hv 0%Z) as [k ->]. lia.
Qed.

Lemma pad5_digits (n : nat) :
  all_digits (pad5 n) = true /\ digits_value (pad5 n) = Z.of_nat n.
Proof.
  destruct (decimal_digits n) as (Hall & _ & Hv).
  destruct (zeros_digits (5 - String.length (decimal n))) as [Hz Hzv].
  unfold pad5. cbv zeta. split.
  - rewrite all_digits_app, Hz, Hall. reflexivity.
  - unfold digits_value in *. rewrite Hzv. exact Hv.
Qed.

Lemma zeros_length (m : nat) : String.length (zeros m) = m.
Proof. induction m as [|m IH]; [reflexivity|]. cbn. rewrite IH. reflexivity. Qed.

(** X5. The counter in a frame name reads back as the number of frames
    saved before it: [f"{n:05d}"] is made of decimal digits, at least five
    of them, and [int] of it is [n]. *)
Theorem pad5_round_trip (n : nat) :
  isdigit (pad5 n) = true /\
  (5 <= String.length (pad5 n))%nat /\
  int (pad5 n) = Ok (Z.of_nat n).
Proof.
  destruct (pad5_digits n) as [Hall Hv].
  destruct (decimal_digits n) as (_ & Hne & _).
  assert (5 <= String.length (pad5 n))%nat as Hlen.
  { unfold pad5. cbv zeta. rewrite append_length, zeros_length. lia. }
  assert (isdigit (pad5 n) = true) as Hdigit.
  { unfold isdigit. destruct (pad5 n); [cbn in Hlen; lia|exact Hall]. }
  split; [exact Hdigit|]. split; [exact Hlen|].
  rewrite (int_digits _ Hdigit), Hv. reflexivity.
Qed.

Lemma pad5_inj (n m : nat) : pad5 n = pad5 m -> n = m.
Proof.
  intros H. destruct (pad5_digits n) as [_ Hn].
  destruct (pad5_digits m) as [_ Hm].
  rewrite H, Hm in Hn. lia.
Qed.

Lemma append_inv_head (a x y : string) : a +:+ x = a +:+ y -> x = y.
Proof.
  induction a as [|c a IH]; [auto|].
  rewrite !string_app_cons. intros [= H]. auto.
Qed.

Lemma append_inv_tail (t x : string) : forall y, x +:+ t = y +:+ t -> x = y.
Proof.
  induction x as [|c x IH]; intros [|d y] H.
  - reflexivity.
  - apply (f_equal String.length) in H.
    rewrite !append_length in H. cbn [String.length] in H. lia.
  - apply (f_equal String.length) in H.
    rewrite !append_length in H. cbn [String.length] in H. lia.
  - rewrite !string_app_cons in H. injection H as <- H. f_equal. apply IH, H.
Qed.

Lemma startswith_app (a b b' : string) (c : ascii) :
  a <> "" -> startswith (a +:+ b) c = startswith (a +:+ b') c.
Proof. destruct a; [congruence|reflexivity]. Qed.

(** Within one output directory and one prefix, the frame name determines
    the counter. *)
Lemma img_name_inj (output_dir filename : string) (j j' : nat) :
  img_name output_dir filename j = img_name output_dir filename j' -> j = j'.
Proof.
  unfold img_name, path_join.
  set (b := fun j => filename +:+ "_frame_" +:+ pad5 j +:+ ".jpg").
  change (filename +:+ "_frame_" +:+ pad5 j +:+ ".jpg") with (b j).
  change (filename +:+ "_frame_" +:+ pad5 j' +:+ ".jpg") with (b j').
  assert (startswith (b j) "/" = startswith (b j') "/") as Hsw.
  { unfold b. destruct filename as [|c f]; reflexivity. }
  assert (b j = b j' -> j = j') as Hb.
  { unfold b. intros H. apply append_inv_head in H.
    change ("_frame_" +:+ pad5 j +:+ ".jpg")
      with ("_frame_" +:+ (pad5 j +:+ ".jpg")) in H.
    apply append_inv_head, append_inv_tail in H. apply pad5_inj, H. }
  rewrite <- Hsw. destruct (startswith (b j) "/"); [exact Hb|].
  destruct (String.eqb output_dir "" || endswith output_dir "/").
  - intros H. apply append_inv_head in H. auto.
  - intros H. apply append_inv_head in H.
    change ("/" +:+ b j) with (String "/" (b j)) in H.
    change ("/" +:+ b j') with (String "/" (b j')) in H.
    injection H as H. auto.
Qed.

Context {frame : Type}.

(** The loop names the files it writes with consecutive counters. *)
Lemma read_loop_names output_dir filename fi (todo : list frame) :
  forall count saved written,
  exists k,
    (k <= length todo)%nat /\
    map fst (fst (read_loop output_dir filename fi todo count saved written))
    = map fst written ++ map (img_name output_dir filename) (seq saved k).
Proof.
  induction todo as [|fr todo IH]; intros count saved written; cbn [read_loop].
  - exists 0%nat. split; [reflexivity|]. simpl. rewrite app_nil_r. reflexivity.
  - destruct (fi =? 0)%Z.
    + exists 0%nat. split; [simpl; lia|]. simpl. rewrite app_nil_r. reflexivity.
    + destruct (count mod fi =? 0)%Z.
      * destruct (IH (count + 1)%Z (S saved)
                    (written ++ [(img_name output_dir filename saved, fr)]))
          as (k & Hk & ->).
        exists (S k). split; [simpl; lia|].
        rewrite map_app, <- app_assoc. reflexivity.
      * destruct (IH (count + 1)%Z saved written) as (k & Hk & ->).
        exists k. split; [simpl; lia|reflexivity].
Qed.

(** X6. Whatever the video and the interval, the files one call of
    [extract_frames] writes have pairwise different names, so no saved
    frame overwrites another one of the same call; and there are at most
    as many files as the video has frames. *)
Theorem extract_frames_distinct_names (v : video frame)
    (filename output_dir : string) (interval_sec : Q) :
  let written := fst (extract_frames v filename output_dir interval_sec) in
  NoDup (map fst written) /\ (length written <= length (frames v))%nat.
Proof.
  intros written. subst written. unfold extract_frames.
  destruct (negb (is_opened v)); [split; [constructor|simpl; lia]|].
  destruct (Qeq_bool (fps v) 0); [split; [constructor|simpl; lia]|].
  destruct (read_loop_names output_dir filename
              (frame_interval_of v interval_sec) (frames v) 0%Z 0%nat [])
    as (k & Hk & Hnames).
  split.
  - rewrite Hnames. simpl. apply NoDup_fmap_2; [|apply NoDup_seq].
    intros j j'. apply img_name_inj.
  - rewrite <- (length_map fst), Hnames. simpl.
    rewrite length_map, length_seq. exact Hk.
Qed.

End FrameNameFacts.
(** ** The batch driver of sample.py *)

Section SampleDriverFacts.

Import Sample SampleDriver.

(** A counter is preceded by an underscore, which is no digit: of two
    equal names, the counters and what precedes them are equal. *)
Lemma digits_suffix_inj (c : ascii) (x : string) : forall x' d d',
  is_digit c = false -> all_digits d = true -> all_digits d' = true ->
  x +:+ String c d = x' +:+ String c d' -> x = x' /\ d = d'.
Proof.
  induction x as [|a x IH]; intros [|a' x'] d d' Hc Hd Hd' H.
  - injection H as H. auto.
  - exfalso. change ("" +:+ String c d) with (String c d) in H.
    rewrite string_app_cons in H. injection H as _ H.
    rewrite H, all_digits_app in Hd. cbn [all_digits] in Hd.
    rewrite Hc in Hd. destruct (all_digits x'); discriminate.
  - exfalso. change ("" +:+ String c d') with (String c d') in H.
    rewrite string_app_cons in H. injection H as _ H.
    rewrite <- H, all_digits_app in Hd'. cbn [all_digits] in Hd'.
    rewrite Hc in Hd'. destruct (all_digits x); discriminate.
  - rewrite !string_app_cons in H. injection H as <- H.
    destruct (IH x' d d' Hc Hd Hd' H) as [-> ->]. auto.
Qed.

(** The base name of a frame determines the prefix and the counter. *)
Lemma frame_base_inj (f f' : string) (j j' : nat) :
  f +:+ "_frame_" +:+ pad5 j +:+ ".jpg" = f' +:+ "_frame_" +:+ pad5 j' +:+ ".jpg" ->
  f = f' /\ j = j'.
Proof.
  assert (forall g k, g +:+ "_frame_" +:+ pad5 k +:+ ".jpg"
                      = ((g +:+ "_frame") +:+ String "_" (pad5 k)) +:+ ".jpg")
    as Hshape by (intros g k; rewrite !string_app_assoc; reflexivity).
  rewrite !Hshape. intros H. apply append_inv_tail in H.
  destruct (pad5_digits j) as [Hj _]. destruct (pad5_digits j') as [Hj' _].
  destruct (digits_suffix_inj "_" _ _ _ _ eq_refl Hj Hj' H) as [Hf Hp].
  split; [exact (append_inv_tail _ _ _ Hf)|exact (pad5_inj _ _ Hp)].
Qed.

Lemma img_name_raw_images_inj (f f' : string) (j j' : nat) :
  img_name "raw_images" f j = img_name "raw_images" f' j' -> f = f' /\ j = j'.
Proof.
  unfold img_name, path_join.
  set (b := f +:+ "_frame_" +:+ pad5 j +:+ ".jpg").
  set (b' := f' +:+ "_frame_" +:+ pad5 j' +:+ ".jpg").
  change (String.eqb "raw_images" "" || endswith "raw_images" "/") with false.
  cbv iota.
  destruct (startswith b "/") eqn:Hb, (startswith b' "/") eqn:Hb'; intros H.
  - apply frame_base_inj, H.
  - exfalso. rewrite H in Hb. discriminate Hb.
  - exfalso. rewrite <- H in Hb'. discriminate Hb'.
  - apply append_inv_head in H. injection H as H. apply frame_base_inj, H.
Qed.

Context {frame : Type}.
Variable capture : string -> video frame.


(** What the loop has written is what the calls have written, one after
    the other, up to and including the first call that raises. *)
Lemma main_loop_app raw_data_dir (pre : list string) : forall post written,
  Forall (fun g => snd (extract_file capture raw_data_dir g) = None) pre ->
  main_loop capture raw_data_dir (pre ++ post) written
  = main_loop capture raw_data_dir post
      (written ++ concat (map (fun g => fst (extract_file capture raw_data_dir g)) pre)).
Proof.
  induction pre as [|g pre IH]; intros post written Hpre.
  - simpl. rewrite app_nil_r. reflexivity.
  - inversion Hpre as [|? ? Hg Hpre']; subst.
    cbn [app SampleDriver.main_loop map concat].
    destruct (extract_file capture raw_data_dir g) as [w [e|]] eqn:Hw;
      [discriminate Hg|].
    rewrite IH by exact Hpre'. rewrite app_assoc. reflexivity.
Qed.

(** X7. A video whose extraction raises ends the batch: the exception
    leaves the loop, the files written are those of the videos before it
    and of the failing call itself, and no later video is opened. *)
Theorem batch_stops_at_first_failure (raw_data_dir : string)
    (pre post : list string) (file : string) (e : exn) :
  Forall (fun g => snd (extract_file capture raw_data_dir g) = None) pre ->
  snd (extract_file capture raw_data_dir file) = Some e ->
  main_loop capture raw_data_dir (pre ++ file :: post) []
  = (concat (map (fun g => fst (extract_file capture raw_data_dir g)) (pre ++ [file])),
     Some e).
Proof.
  intros Hpre Hfile. rewrite main_loop_app by exact Hpre.
  rewrite map_app, concat_app. cbn [SampleDriver.main_loop app map concat].
  rewrite app_nil_r.
  destruct (extract_file capture raw_data_dir file) as [w [e'|]] eqn:Hw;
    [|discriminate Hfile].
  injection Hfile as ->. reflexivity.
Qed.

Lemma extract_file_names raw_data_dir file :
  exists k, map fst (fst (extract_file capture raw_data_dir file))
            = map (img_name "raw_images" (fst (splitext file))) (seq 0 k).
Proof.
  unfold SampleDriver.extract_file, extract_frames.
  destruct (negb (is_opened _)); [exists 0%nat; reflexivity|].
  destruct (Qeq_bool _ 0); [exists 0%nat; reflexivity|].
  destruct (read_loop_names "raw_images" (fst (splitext file))
              (frame_interval_of (capture (raw_data_dir +:+ "/" +:+ file)) 5)
              (frames (capture (raw_data_dir +:+ "/" +:+ file))) 0%Z 0%nat [])
    as (k & _ & Hk).
  exists k. exact Hk.
Qed.

Lemma main_loop_distinct raw_data_dir (files : list string) :
  forall written (stems : list string),
  NoDup (map fst written) ->
  (forall n, n ∈ map fst written ->
     exists s j, s ∈ stems /\ n = img_name "raw_images" s j) ->
  NoDup (map (fun f => fst (splitext f)) files) ->
  (forall f, f ∈ files -> fst (splitext f) ∉ stems) ->
  NoDup (map fst (fst (main_loop capture raw_data_dir files written))).
Proof.
  induction files as [|file files IH]; intros written stems Hnd Hold Hfiles Hnew;
    [exact Hnd|].
  cbn [SampleDriver.main_loop].
  destruct (extract_file_names raw_data_dir file) as [k Hk].
  apply NoDup_cons in Hfiles as [Hfile Hfiles]. fold (map (fun f => fst (splitext f)) files) in *.
  assert (NoDup (map fst (written ++ fst (extract_file capture raw_data_dir file))))
    as Hnd'.
  { rewrite map_app, Hk. apply NoDup_app. split; [exact Hnd|]. split.
    - intros n Hn Hn'. apply Hold in Hn as (s & j & Hs & ->).
      apply list_elem_of_fmap in Hn' as (j' & Heq & _).
      apply img_name_raw_images_inj in Heq as [-> _].
      exact (Hnew file (list_elem_of_here _ _) Hs).
    - apply NoDup_fmap_2; [|apply NoDup_seq].
      intros j j' Heq. apply img_name_raw_images_inj in Heq as [_ Heq]. exact Heq. }
  destruct (extract_file capture raw_data_dir file) as [w [e|]] eqn:Hw;
    cbn [fst] in *; [exact Hnd'|].
  apply (IH (written ++ w) (fst (splitext file) :: stems)); [exact Hnd'| |exact Hfiles|].
  - intros n Hn. rewrite map_app, Hk in Hn.
    apply elem_of_app in Hn as [Hn|Hn].
    + apply Hold in Hn as (s & j & Hs & ->).
      exists s, j. split; [apply list_elem_of_further, Hs|reflexivity].
    + apply list_elem_of_fmap in Hn as (j & -> & _).
      exists (fst (splitext file)), j. split; [apply list_elem_of_here|reflexivity].
  - intros f Hf Hin. apply elem_of_cons in Hin as [Heq|Hin].
    + apply Hfile. rewrite <- Heq.
      apply (list_elem_of_fmap_2 (fun f => fst (splitext f))), Hf.
    + apply (Hnew f); [apply list_elem_of_further, Hf|exact Hin].
Qed.

(** X8. When the video files of the batch differ in the part of their
    name before the extension, no frame of the batch overwrites another:
    all names written by the loop are different. *)
Theorem batch_names_distinct (raw_data_dir : string) (files : list string) :
  NoDup (map (fun f => fst (splitext f)) files) ->
  NoDup (map fst (fst (main_loop capture raw_data_dir files []))).
Proof.
  intros Hfiles.
  apply (main_loop_distinct raw_data_dir files [] []);
    [constructor| |exact Hfiles|].
  - intros n Hn. simpl in Hn. apply elem_of_nil in Hn as [].
  - intros f _ Hin. apply elem_of_nil in Hin as [].
Qed.

End SampleDriverFacts.

Lemma batch_stops_at_first_failure_witness :
  let capture := fun p : string =>
    if String.eqb p "./raw_dataset/b.mp4" then Sample.mk_video false 0 []
    else Sample.mk_video true 1 [tt] in
  SampleDriver.main_loop capture "./raw_dataset" (["a.mp4"] ++ "b.mp4" :: ["c.mp4"]) []
  = (concat (map (fun g => fst (SampleDriver.extract_file capture "./raw_dataset" g))
               (["a.mp4"] ++ ["b.mp4"])),
     Some RuntimeError).
Proof.
  intros capture.
  apply (batch_stops_at_first_failure capture "./raw_dataset"
           ["a.mp4"] ["c.mp4"] "b.mp4" RuntimeError).
  - repeat constructor.
  - reflexivity.
Defined.

Lemma batch_names_distinct_witness :
  let capture := fun _ : string => Sample.mk_video true 1 [tt; tt] in
  NoDup (map fst (fst (SampleDriver.main_loop capture "./raw_dataset"
                         ["a.mp4"; "b.MP4"] []))).
Proof.
  intros capture.
  apply (batch_names_distinct capture "./raw_dataset" ["a.mp4"; "b.MP4"]).
  apply (bool_decide_unpack _). vm_compute. exact I.
Defined.
(** ** CCNet: the size of what is segmented, and the palette *)

Section CCNetImageFacts.

Import CCNetInference CCNetImages CCNetPreprocess Double.

Local Notation "'u53'" := (1 # 9007199254740992)%Q.

(** The scale of an image that is shrunk: [long_side / float(max_side)]
    for [0 < long_side < max_side <= 2 ^ 20]. *)
Lemma scale_down (L M : Z) :
  (0 < L < M)%Z -> (M <= 2 ^ 20)%Z ->
  let q := (inject_Z L / inject_Z M)%Q in
  let s := Double.div (Double.of_int L) (Double.of_int M) in
  ((1 # 1048576) <= q)%Q /\ (q <= 1 - (1 # 1048576))%Q /\
  (q * (1 - u53) <= s)%Q /\ (s <= q * (1 + u53))%Q /\
  (Qmin s 1 == s)%Q /\ Qeq_bool (Qmin s 1) 1 = false.
Proof.
  intros HL HM q s.
  pose proof (inject_Z_pos M ltac:(lia)) as HMQ.
  pose proof (inject_Z_pos L ltac:(lia)) as HLQ.
  assert (inject_Z M <= 1048576)%Q as HM'
    by (change 1048576%Q with (inject_Z (2 ^ 20)); rewrite <- Zle_Qle; exact HM).
  assert (inject_Z L + 1 <= inject_Z M)%Q as HL'.
  { change 1%Q with (inject_Z 1). rewrite <- inject_Z_plus, <- Zle_Qle. lia. }
  assert (1 <= inject_Z L)%Q as HL1
    by (change 1%Q with (inject_Z 1); rewrite <- Zle_Qle; lia).
  assert ((1 # 1048576) <= q)%Q as Hq0
    by (unfold q; apply Qle_shift_div_l; [exact HMQ|lra]).
  assert (q <= 1 - (1 # 1048576))%Q as Hq1
    by (unfold q; apply Qle_shift_div_r; [exact HMQ|lra]).
  assert (s = nearest q) as Hs.
  { unfold s, Double.div. rewrite !of_int_exact by lia. reflexivity. }
  destruct (nearest_bounds q) as [Hlo Hhi]; [apply normal_of_small; lra|].
  rewrite <- Hs in Hlo, Hhi.
  assert (s < 1)%Q as Hs1 by lra.
  assert (Qmin s 1 == s)%Q as Hmin by (apply Q.min_l; lra).
  repeat split; try assumption.
  destruct (Qeq_bool (Qmin s 1) 1) eqn:Hb; [|reflexivity].
  apply Qeq_bool_eq in Hb. lra.
Qed.

(** An edge of the shrunk image, [int(round(x * scale))], is a nearest
    integer of [x * long_side / max_side]. *)
Lemma scaled_edge (x L M : Z) :
  (0 < x <= M)%Z -> (0 < L < M)%Z -> (M <= 2 ^ 20)%Z ->
  let scale := Qmin (Double.div (Double.of_int L) (Double.of_int M)) 1 in
  let n := Double.round_half_even (Double.mul (Double.of_int x) scale) in
  (2 * Z.abs (n * M - x * L) <= M)%Z.
Proof.
  intros Hx HL HM scale n.
  destruct (scale_down L M HL HM) as (Hq0 & Hq1 & Hlo & Hhi & Hmin & _).
  set (q := (inject_Z L / inject_Z M)%Q) in *.
  set (s := Double.div (Double.of_int L) (Double.of_int M)) in *.
  pose proof (inject_Z_pos M ltac:(lia)) as HMQ.
  pose proof (inject_Z_pos L ltac:(lia)) as HLQ.
  pose proof (inject_Z_pos x ltac:(lia)) as HxQ.
  assert (1 <= inject_Z x)%Q as Hx1
    by (change 1%Q with (inject_Z 1); rewrite <- Zle_Qle; lia).
  set (p := (inject_Z x * s)%Q).
  set (T := (inject_Z x * q)%Q).
  assert (Double.mul (Double.of_int x) scale = nearest p) as Hy.
  { unfold Double.mul. rewrite of_int_exact by lia. apply nearest_comp.
    unfold p, scale. fold s. rewrite Hmin. reflexivity. }
  assert (T * inject_Z M == inject_Z x * inject_Z L)%Q as HT
    by (unfold T, q; field; lra).
  assert (T * (1 - u53) <= p)%Q as Hp0.
  { unfold T, p. rewrite <- Qmult_assoc. apply Qmult_le_l; assumption. }
  assert (p <= T * (1 + u53))%Q as Hp1.
  { unfold T, p. rewrite <- Qmult_assoc. apply Qmult_le_l; assumption. }
  assert ((1 # 1048576) <= T)%Q as HT0.
  { apply Qle_trans with (1 * q)%Q; [lra|].
    unfold T. apply Qmult_le_compat_r; lra. }
  destruct (nearest_bounds p) as [Hy0 Hy1]; [apply normal_of_small; lra|].
  destruct (round_half_even_near (nearest p)) as [Hn0 Hn1].
  fold n in Hy. unfold n. rewrite Hy.
  set (r := Double.round_half_even (nearest p)) in *.
  assert (inject_Z x * inject_Z L <= 1099511627776)%Q as HxL.
  { rewrite <- inject_Z_mult. change 1099511627776%Q with (inject_Z (2 ^ 40)).
    rewrite <- Zle_Qle. nia. }
  assert (inject_Z r * inject_Z M
          <= inject_Z x * inject_Z L * (1 + 3 * u53) + inject_Z M * (1 # 2))%Q
    as Hup.
  { rewrite <- HT.
    apply Qle_trans with ((T * (1 + 3 * u53) + (1 # 2)) * inject_Z M)%Q.
    - apply Qmult_le_compat_r; lra.
    - apply Qle_lteq. right. ring. }
  assert (inject_Z x * inject_Z L * (1 - 3 * u53) - inject_Z M * (1 # 2)
          <= inject_Z r * inject_Z M)%Q as Hdown.
  { rewrite <- HT.
    apply Qle_trans with ((T * (1 - 3 * u53) - (1 # 2)) * inject_Z M)%Q.
    - apply Qle_lteq. right. ring.
    - apply Qmult_le_compat_r; lra. }
  assert (2 * (r * M) < M + 1 + 2 * (x * L))%Z as H1.
  { rewrite Zlt_Qlt, !inject_Z_plus, !inject_Z_mult.
    change (inject_Z 2) with 2%Q. change (inject_Z 1) with 1%Q. lra. }
  assert (2 * (x * L) < M + 1 + 2 * (r * M))%Z as H2.
  { rewrite Zlt_Qlt, !inject_Z_plus, !inject_Z_mult.
    change (inject_Z 2) with 2%Q. change (inject_Z 1) with 1%Q. lra. }
  lia.
Qed.

(** Enlarging is refused: for [long_side > max_side] the quotient is at
    least 1, and [min] brings the scale back to 1. *)
Lemma scale_up (L M : Z) :
  (0 < M < L)%Z -> (M <= 2 ^ 20)%Z -> (L < 2 ^ 53)%Z ->
  Qeq_bool (Qmin (Double.div (Double.of_int L) (Double.of_int M)) 1) 1 = true.
Proof.
  intros HM HM' HL.
  pose proof (inject_Z_pos M ltac:(lia)) as HMQ.
  assert (inject_Z M <= 1048576)%Q as HMb
    by (change 1048576%Q with (inject_Z (2 ^ 20)); rewrite <- Zle_Qle; exact HM').
  assert (inject_Z M + 1 <= inject_Z L)%Q as HL'.
  { change 1%Q with (inject_Z 1). rewrite <- inject_Z_plus, <- Zle_Qle. lia. }
  set (q := (inject_Z L / inject_Z M)%Q).
  assert (1 + (1 # 1048576) <= q)%Q as Hq
    by (unfold q; apply Qle_shift_div_l; [exact HMQ|lra]).
  assert (Double.div (Double.of_int L) (Double.of_int M) = nearest q) as ->.
  { unfold Double.div. rewrite !of_int_exact by lia. reflexivity. }
  destruct (nearest_bounds q) as [Hlo _]; [apply normal_of_small; lra|].
  apply Qeq_eq_bool, Q.min_r. lra.
Qed.

(** [preprocess_image] on an image that is shrunk. *)
Lemma preprocess_shrink (h w long_side : Z) :
  (0 < long_side < Z.max h w)%Z -> (Z.max h w <= 2 ^ 20)%Z ->
  preprocess_image (Some (h, w)) long_side
  = let scale :=
      Qmin (Double.div (Double.of_int long_side) (Double.of_int (Z.max h w))) 1 in
    let new_w := Double.round_half_even (Double.mul (Double.of_int w) scale) in
    let new_h := Double.round_half_even (Double.mul (Double.of_int h) scale) in
    if (new_w <=? 0)%Z || (new_h <=? 0)%Z then Raise Cv2Error
    else Ok (mk_preprocessed (new_h, new_w) (h, w) scale).
Proof.
  intros HL HM. unfold preprocess_image.
  destruct (scale_down long_side (Z.max h w) HL HM) as (_ & _ & _ & _ & _ & Hne).
  assert ((long_side =? 0)%Z = false) as -> by lia.
  assert ((0 <? long_side)%Z = true) as -> by lia.
  assert ((Z.max h w =? long_side)%Z = false) as -> by lia.
  assert ((Z.max h w =? 0)%Z = false) as -> by lia.
  cbn [negb andb]. rewrite Hne. reflexivity.
Qed.

(** X9. The resize policy of [preprocess_image] on a decoded image of at
    most [2 ^ 20] rows and columns (OpenCV's default limit for
    [cv2.imread]). An image whose longer edge exceeds a positive
    [long_side] is shrunk: the scale is less than 1 and is
    [long_side / max_side] up to the rounding of one division, each new
    edge is a nearest integer of the old one times [long_side / max_side],
    the longer one is exactly [long_side], and none grows; when the shorter
    edge would round to 0, OpenCV refuses the size, which takes the shorter
    edge to be at most [max_side / (2 * long_side)]. Every other image is
    returned at its own size with scale 1: nothing is enlarged. *)
Theorem preprocess_resize (h w long_side : Z) :
  (0 < h <= 2 ^ 20)%Z -> (0 < w <= 2 ^ 20)%Z -> (long_side < 2 ^ 53)%Z ->
  if (0 <? long_side)%Z && (long_side <? Z.max h w)%Z then
    match preprocess_image (Some (h, w)) long_side with
    | Ok p =>
        original_size p = (h, w) /\
        (scale p < 1)%Q /\
        (Qabs (scale p - inject_Z long_side / inject_Z (Z.max h w))
         <= inject_Z long_side / inject_Z (Z.max h w)
            * (1 # 9007199254740992))%Q /\
        (2 * Z.abs (fst (tensor_size p) * Z.max h w - h * long_side)
         <= Z.max h w)%Z /\
        (2 * Z.abs (snd (tensor_size p) * Z.max h w - w * long_side)
         <= Z.max h w)%Z /\
        Z.max (fst (tensor_size p)) (snd (tensor_size p)) = long_side /\
        (0 < fst (tensor_size p) <= h)%Z /\ (0 < snd (tensor_size p) <= w)%Z
    | Raise e =>
        e = Cv2Error /\ (2 * Z.min h w * long_side <= Z.max h w)%Z
    end
  else
    exists p,
      preprocess_image (Some (h, w)) long_side = Ok p /\
      original_size p = (h, w) /\ tensor_size p = (h, w) /\ (scale p == 1)%Q.
Proof.
  intros Hh Hw Hl.
  destruct (Z.ltb_spec 0 long_side) as [Hpos|Hneg]; cycle 1.
  { cbn [andb]. unfold preprocess_image.
    assert ((0 <? long_side)%Z = false) as -> by lia.
    rewrite andb_false_r. eexists. repeat split; reflexivity. }
  destruct (Z.ltb_spec long_side (Z.max h w)) as [Hlt|Hge]; cbn [andb].
  - assert (Z.max h w <= 2 ^ 20)%Z as HM by lia.
    rewrite (preprocess_shrink h w long_side (conj Hpos Hlt) HM).
    destruct (scale_down long_side (Z.max h w) (conj Hpos Hlt) HM)
      as (Hq0 & Hq1 & Hlo & Hhi & Hmin & _).
    pose proof (scaled_edge h long_side (Z.max h w) ltac:(lia)
                  (conj Hpos Hlt) HM) as Eh.
    pose proof (scaled_edge w long_side (Z.max h w) ltac:(lia)
                  (conj Hpos Hlt) HM) as Ew.
    cbv zeta in Eh, Ew |- *.
    set (s := Double.div (Double.of_int long_side) (Double.of_int (Z.max h w))) in *.
    set (nh := Double.round_half_even (Double.mul (Double.of_int h) (Qmin s 1))) in *.
    set (nw := Double.round_half_even (Double.mul (Double.of_int w) (Qmin s 1))) in *.
    destruct ((nw <=? 0)%Z || (nh <=? 0)%Z) eqn:Hz.
    + split; [reflexivity|].
      apply orb_true_iff in Hz as [Hz|Hz]; apply Z.leb_le in Hz; nia.
    + apply orb_false_iff in Hz as [Hzw Hzh].
      apply Z.leb_gt in Hzw, Hzh.
      cbn [original_size scale tensor_size fst snd].
      split; [reflexivity|].
      split; [rewrite Hmin; lra|].
      split; [rewrite Hmin; apply Qabs_Qle_condition; split; lra|].
      split; [exact Eh|]. split; [exact Ew|].
      destruct (Z.max_spec h w) as [[? Hmax]|[? Hmax]]; rewrite Hmax in *; nia.
  - unfold preprocess_image.
    assert ((long_side =? 0)%Z = false) as -> by lia.
    assert ((0 <? long_side)%Z = true) as -> by lia.
    cbn [negb andb].
    destruct (Z.eqb_spec (Z.max h w) long_side) as [Heq|Hne]; cbn [negb].
    { eexists. repeat split; reflexivity. }
    assert ((Z.max h w =? 0)%Z = false) as -> by lia.
    pose proof (scale_up long_side (Z.max h w) ltac:(lia) ltac:(lia) Hl) as Hup.
    rewrite Hup. cbn [negb]. eexists. split; [reflexivity|].
    cbn [original_size scale tensor_size].
    repeat split. apply Qeq_bool_eq, Hup.
Qed.

(** X10. A very elongated image is refused: when the longer edge (at most
    [2 ^ 20]) is more than twice the product of the shorter edge and a
    positive [long_side], the shorter edge asked of [cv2.resize] is 0 and
    [preprocess_image] ends with OpenCV's error. *)
Theorem preprocess_short_edge_vanishes (h w long_side : Z) :
  (0 < h)%Z -> (0 < w)%Z -> (Z.max h w <= 2 ^ 20)%Z -> (0 < long_side)%Z ->
  (2 * Z.min h w * long_side < Z.max h w)%Z ->
  preprocess_image (Some (h, w)) long_side = Raise Cv2Error.
Proof.
  intros Hh Hw HM Hl Hlong.
  assert (0 < long_side < Z.max h w)%Z as HL by nia.
  rewrite (preprocess_shrink h w long_side HL HM).
  pose proof (scaled_edge h long_side (Z.max h w) ltac:(lia) HL HM) as Eh.
  pose proof (scaled_edge w long_side (Z.max h w) ltac:(lia) HL HM) as Ew.
  cbv zeta in Eh, Ew |- *.
  set (s := Double.div (Double.of_int long_side) (Double.of_int (Z.max h w))) in *.
  set (nh := Double.round_half_even (Double.mul (Double.of_int h) (Qmin s 1))) in *.
  set (nw := Double.round_half_even (Double.mul (Double.of_int w) (Qmin s 1))) in *.
  assert ((nw <=? 0)%Z || (nh <=? 0)%Z = true) as ->; [|reflexivity].
  apply orb_true_iff. rewrite !Z.leb_le.
  destruct (Z.min_spec h w) as [[? Hmin]|[? Hmin]]; rewrite Hmin in Hlong;
    [right|left]; nia.
Qed.

(** X11. The class map that is saved has the size of the input image,
    whether [preprocess_image] resized the image or not. *)
Theorem prediction_has_original_size (raw : option (Z * Z)) (long_side : Z)
    (p : preprocessed) :
  preprocess_image raw long_side = Ok p ->
  prediction_size p = original_size p.
Proof.
  unfold preprocess_image, prediction_size.
  destruct raw as [[h w]|]; [|discriminate].
  destruct (negb (long_side =? 0)%Z && (0 <? long_side)%Z);
    [|intros [= <-]; reflexivity].
  destruct (negb (Z.max h w =? long_side)%Z); [|intros [= <-]; reflexivity].
  destruct (Z.max h w =? 0)%Z; [discriminate|].
  destruct (negb (Qeq_bool _ 1)) eqn:Hb.
  - destruct (_ || _); [discriminate|]. intros [= <-].
    cbn [scale original_size tensor_size]. rewrite Hb. reflexivity.
  - intros [= <-]. cbn [scale original_size tensor_size]. rewrite Hb.
    reflexivity.
Qed.

Lemma drop_repeat {A : Type} (x : A) (n m : nat) :
  drop n (repeat x m) = repeat x (m - n).
Proof.
  revert m. induction n as [|n IH]; intros [|m]; cbn; try reflexivity.
  apply IH.
Qed.

Lemma palette_of_colours (colours : list (Z * Z * Z)) :
  forall (k : nat) (palette : list Z),
  (3 * (k + length colours) <= length palette)%nat ->
  fold_left
    (fun palette '(idx, (r, g, b)) =>
       let base := (idx * 3)%nat in
       set_slice base (base + 3) [r; g; b] palette)
    (imap (fun idx color => (k + idx, color)%nat) colours) palette
  = take (3 * k) palette
    ++ concat (map (fun '(r, g, b) => [r; g; b]) colours)
    ++ drop (3 * (k + length colours)) palette.
Proof.
  induction colours as [|[[r g] b] colours IH]; intros k palette Hlen.
  - cbn [imap fold_left map concat length app].
    rewrite Nat.add_0_r, take_drop. reflexivity.
  - cbn [imap fold_left length] in *.
    rewrite (imap_ext _ (fun idx color => (S k + idx, color)%nat))
      by (intros; cbn; f_equal; lia).
    rewrite IH; cycle 1.
    { unfold set_slice. rewrite !length_app, length_take, length_drop.
      cbn [length]. lia. }
    unfold set_slice. rewrite Nat.add_0_r.
    replace (Nat.max (k * 3) (k * 3 + 3)) with (k * 3 + 3)%nat by lia.
    rewrite take_app_ge by (rewrite length_take; lia).
    rewrite length_take, Nat.min_l by lia.
    replace (3 * S k - k * 3)%nat with 3%nat by lia.
    rewrite drop_app_ge by (rewrite length_take; lia).
    rewrite length_take, Nat.min_l by lia.
    replace (3 * (S k + length colours) - k * 3)%nat
      with (S (S (S (3 * length colours))))%nat by lia.
    cbn [take app drop map concat].
    rewrite take_0, drop_drop.
    replace (k * 3)%nat with (3 * k)%nat by lia.
    rewrite <- !app_assoc. cbn [app].
    repeat f_equal. lia.
Qed.

(** X12. The palette has 768 entries whatever [num_classes]: the colours
    of the classes [CITYSCAPES_COLORS[:num_classes]] one after the other,
    three entries each, and 0 in every entry after them. These are the
    first [num_classes] colours of the table, all 19 when [num_classes] is
    larger (a class beyond the table is black), and all but the last
    [-num_classes] when [num_classes] is negative. *)
Theorem build_palette_layout (num_classes : Z) :
  let colours := slice_to num_classes CITYSCAPES_COLORS in
  length (build_palette num_classes) = 768%nat /\
  build_palette num_classes
  = concat (map (fun '(r, g, b) => [r; g; b]) colours)
    ++ repeat 0%Z (768 - 3 * length colours) /\
  length colours
  = if (num_classes <? 0)%Z then (19 - Z.to_nat (- num_classes))%nat
    else Nat.min (Z.to_nat num_classes) 19.
Proof.
  intros colours.
  assert (length colours
          = if (num_classes <? 0)%Z then (19 - Z.to_nat (- num_classes))%nat
            else Nat.min (Z.to_nat num_classes) 19) as Hlen.
  { unfold colours, slice_to.
    destruct (num_classes <? 0)%Z; rewrite length_take;
      change (length CITYSCAPES_COLORS) with 19%nat; lia. }
  assert (length colours <= 19)%nat as Hle
    by (destruct (num_classes <? 0)%Z; lia).
  assert (build_palette num_classes
          = concat (map (fun '(r, g, b) => [r; g; b]) colours)
            ++ repeat 0%Z (768 - 3 * length colours)) as Heq.
  { unfold build_palette. fold colours.
    etrans.
    { apply (palette_of_colours colours 0 (repeat 0%Z (256 * 3))).
      rewrite repeat_length. cbn [Nat.add]. lia. }
    cbn [take Nat.mul app Nat.add].
    rewrite drop_repeat. repeat f_equal. }
  split; [|split; [exact Heq|exact Hlen]].
  rewrite Heq, length_app, repeat_length.
  assert (forall l : list (Z * Z * Z),
            length (concat (map (fun '(r, g, b) => [r; g; b]) l))
            = (3 * length l)%nat) as ->.
  { induction l as [|[[r g] b] l IHl]; [reflexivity|].
    cbn [map concat length app]. rewrite IHl. lia. }
  lia.
Qed.

End CCNetImageFacts.

Lemma preprocess_resize_witness :
  exists s : Q,
    CCNetPreprocess.preprocess_image (Some (3000, 4000)%Z) 1024
    = Ok (CCNetPreprocess.mk_preprocessed (768, 1024)%Z (3000, 4000)%Z s) /\
    (s < 1)%Q /\
    (Qabs (s - inject_Z 1024 / inject_Z 4000)
     <= inject_Z 1024 / inject_Z 4000 * (1 # 9007199254740992))%Q.
Proof.
  pose proof (preprocess_resize 3000 4000 1024 ltac:(lia) ltac:(lia) ltac:(lia))
    as H.
  change ((0 <? 1024)%Z && (1024 <? Z.max 3000 4000)%Z) with true in H.
  cbv iota in H.
  assert (CCNetPreprocess.preprocess_image (Some (3000, 4000)%Z) 1024
          = Ok (CCNetPreprocess.mk_preprocessed (768, 1024)%Z (3000, 4000)%Z
                  (Double.div (Double.of_int 1024) (Double.of_int 4000))))
    as Hrun by (vm_compute; reflexivity).
  rewrite Hrun in H. destruct H as (_ & Hs & Herr & _).
  eexists. split; [exact Hrun|]. split; [exact Hs|exact Herr].
Defined.

Lemma preprocess_short_edge_vanishes_witness :
  CCNetPreprocess.preprocess_image (Some (1, 3000)%Z) 1024 = Raise Cv2Error.
Proof. apply (preprocess_short_edge_vanishes 1 3000 1024); lia. Defined.

Lemma prediction_has_original_size_witness :
  CCNetPreprocess.prediction_size
    (CCNetPreprocess.mk_preprocessed (768, 1024)%Z (3000, 4000)%Z
       (Double.div (Double.of_int 1024) (Double.of_int 4000)))
  = (3000, 4000)%Z.
Proof.
  apply (prediction_has_original_size (Some (3000, 4000)%Z) 1024).
  vm_compute. reflexivity.
Defined.
(** ** Which labels [add_labels_to_image] draws *)

Section LabelChoiceFacts.

Import CCNetInference.

Variable components : list (list bool) -> list component.

Lemma insert_unique_elem (x y : Z) (l : list Z) :
  y ∈ insert_unique x l <-> y = x \/ y ∈ l.
Proof.
  induction l as [|z l IH]; cbn [insert_unique].
  - rewrite list_elem_of_singleton. rewrite elem_of_nil. tauto.
  - destruct (Z.ltb_spec x z).
    + rewrite elem_of_cons. tauto.
    + destruct (Z.eqb_spec x z) as [->|Hne].
      * rewrite elem_of_cons. tauto.
      * rewrite !elem_of_cons, IH. tauto.
Qed.

(** [np.unique(mask)] holds the values of the mask, and no other. *)
Lemma np_unique_elem (mask : list (list Z)) (y : Z) :
  y ∈ np_unique mask <-> y ∈ concat mask.
Proof.
  unfold np_unique. induction (concat mask) as [|x l IH]; cbn [fold_right].
  - reflexivity.
  - rewrite insert_unique_elem, IH, elem_of_cons. tauto.
Qed.

Lemma insert_desc_elem (x y : nat * Z) (l : list (nat * Z)) :
  y ∈ insert_desc x l <-> y = x \/ y ∈ l.
Proof.
  induction l as [|z l IH]; cbn [insert_desc].
  - rewrite list_elem_of_singleton. rewrite elem_of_nil. tauto.
  - destruct (snd z <? snd x)%Z.
    + rewrite elem_of_cons. tauto.
    + rewrite !elem_of_cons, IH. tauto.
Qed.

Lemma insert_desc_length (x : nat * Z) (l : list (nat * Z)) :
  length (insert_desc x l) = S (length l).
Proof.
  induction l as [|z l IH]; cbn [insert_desc]; [reflexivity|].
  destruct (snd z <? snd x)%Z; cbn [length]; [reflexivity|]. rewrite IH. reflexivity.
Qed.

Lemma sort_desc_elem (l : list (nat * Z)) (y : nat * Z) :
  y ∈ sort_desc l <-> y ∈ l.
Proof.
  unfold sort_desc.
  assert (forall acc, y ∈ fold_left (fun acc x => insert_desc x acc) l acc
                      <-> y ∈ l \/ y ∈ acc) as H.
  { induction l as [|x l IH]; intros acc; cbn [fold_left].
    - rewrite elem_of_nil. tauto.
    - rewrite IH, insert_desc_elem, elem_of_cons. tauto. }
  rewrite H, elem_of_nil. tauto.
Qed.

Lemma slice_to_sublist {A : Type} (m : Z) (l : list A) :
  slice_to m l `sublist_of` l.
Proof.
  unfold slice_to. destruct (m <? 0)%Z; apply sublist_take.
Qed.

(** A component kept for a class is a component of the class, under its
    own label and with its own size. *)
Lemma component_sizes_elem (comps : list component) (max_labels : Z)
    (cs : nat * Z) :
  cs ∈ component_sizes comps max_labels ->
  exists c, comps !! (fst cs - 1)%nat = Some c /\ snd cs = size c.
Proof.
  unfold component_sizes. intros H.
  apply (fun H => elem_of_sublist _ _ _ H (slice_to_sublist _ _)) in H.
  apply (proj1 (sort_desc_elem _ _)) in H.
  apply (proj1 (elem_of_lookup_imap _ _ _)) in H as (i & c & -> & Hc).
  exists c. cbn [fst snd]. replace (S i - 1)%nat with i by lia. auto.
Qed.

Lemma class_candidates_elem (min_region_size max_labels : Z) (num_names : nat)
    (mask : list (list Z)) (class_id : Z) (p : Z * Z) :
  p ∈ class_candidates components min_region_size max_labels num_names mask
        class_id ->
  (class_id < Z.of_nat num_names)%Z /\
  exists c, c ∈ components (class_mask mask class_id) /\
            anchor c = Some p /\ (min_region_size <= size c)%Z.
Proof.
  unfold class_candidates.
  destruct (Z.leb_spec (Z.of_nat num_names) class_id) as [Hge|Hlt];
    [intros H; apply elem_of_nil in H as []|].
  intros H. split; [exact Hlt|].
  apply (proj1 (list_elem_of_omap _ _ _)) in H as (cs & Hcs & Hp).
  destruct (Z.ltb_spec (snd cs) min_region_size) as [Hsmall|Hsz]; [discriminate|].
  apply component_sizes_elem in Hcs as (c & Hc & Hsize).
  rewrite Hc in Hp. cbn in Hp.
  exists c. split; [eapply list_elem_of_lookup_2, Hc|].
  split; [exact Hp|lia].
Qed.

Lemma fold_place_sublist w cands : forall l,
  exists l', fold_left (place w) cands l = l ++ l' /\ l' `sublist_of` cands.
Proof.
  induction cands as [|c cands IH]; intros l; cbn [fold_left].
  - exists []. rewrite app_nil_r. split; reflexivity.
  - destruct (IH (place w l c)) as (l' & -> & Hsub). unfold place.
    destruct (too_close w l c).
    + exists l'. split; [reflexivity|apply sublist_cons, Hsub].
    + exists (c :: l'). rewrite <- app_assoc. split; [reflexivity|].
      apply sublist_skip, Hsub.
Qed.

(** X13. Every label that is drawn sits on the anchor of a connected
    component of a class that occurs in the mask and has a name, and the
    component has at least [min_region_size] pixels: smaller regions and
    classes without a name are never labelled. *)
Theorem labels_on_large_named_regions (w : Z) (mask : list (list Z))
    (num_names : nat) (min_region_size max_labels_per_class : Z) (p : Z * Z) :
  p ∈ add_labels_to_image components w mask num_names min_region_size
        max_labels_per_class ->
  exists class_id c,
    class_id ∈ concat mask /\ (class_id < Z.of_nat num_names)%Z /\
    c ∈ components (class_mask mask class_id) /\
    anchor c = Some p /\ (min_region_size <= size c)%Z.
Proof.
  unfold add_labels_to_image. rewrite place_classes_fold. intros Hp.
  destruct (fold_place_sublist w
              (concat (map (class_candidates components min_region_size
                              max_labels_per_class num_names mask)
                         (np_unique mask))) [])
    as (l' & Heq & Hsub).
  rewrite Heq in Hp. cbn [app] in Hp.
  apply (fun H => elem_of_sublist _ _ _ H Hsub) in Hp.
  apply (proj1 (list_elem_of_In _ _)) in Hp.
  apply (proj1 (in_concat _ _)) in Hp as (cands & Hcands & Hp).
  apply (proj1 (in_map_iff _ _ _)) in Hcands as (class_id & <- & Hclass).
  apply (proj2 (list_elem_of_In _ _)) in Hp, Hclass.
  apply class_candidates_elem in Hp as (Hlt & c & Hc & Ha & Hsz).
  exists class_id, c. split; [apply (proj1 (np_unique_elem _ _)), Hclass|]. auto.
Qed.

(** X14. The labels are chosen among the candidate anchors in the order
    the loops reach them, and the first candidate is always drawn: the
    largest kept component of the lowest class is never left out for being
    too close to another label. *)
Theorem labels_first_come_first_placed (w : Z) (mask : list (list Z))
    (num_names : nat) (min_region_size max_labels_per_class : Z) :
  let labels := add_labels_to_image components w mask num_names
                  min_region_size max_labels_per_class in
  let cands := candidates components mask num_names min_region_size
                 max_labels_per_class in
  labels `sublist_of` cands /\ head labels = head cands.
Proof.
  intros labels cands. subst labels cands.
  unfold add_labels_to_image, candidates. rewrite place_classes_fold.
  set (cands := concat _).
  split.
  - destruct (fold_place_sublist w cands []) as (l' & -> & Hsub). exact Hsub.
  - destruct cands as [|c cands']; [reflexivity|].
    cbn [fold_left]. unfold place at 2. cbn [too_close existsb app].
    destruct (fold_place_sublist w cands' [c]) as (l' & -> & _). reflexivity.
Qed.

Lemma omap_length_le {A B : Type} (f : A -> option B) (l : list A) :
  (length (omap f l) <= length l)%nat.
Proof.
  induction l as [|x l IH]; cbn; [lia|]. destruct (f x); cbn; lia.
Qed.

(** One iteration of the loop over the classes appends the labels of its
    class: at most [max_labels_per_class] of them, each the anchor of a
    component of the class, and none for a class without a name. *)
Lemma place_class_adds (w : Z) (mask : list (list Z)) (num_names : nat)
    (min_region_size max_labels_per_class : Z) (l : list (Z * Z))
    (class_id : Z) :
  (0 <= max_labels_per_class)%Z ->
  exists added,
    place_class components w min_region_size max_labels_per_class num_names
      mask l class_id = l ++ added /\
    (length added <= Z.to_nat max_labels_per_class)%nat /\
    Forall (fun p => (class_id < Z.of_nat num_names)%Z /\
              exists c, c ∈ components (class_mask mask class_id) /\
                        anchor c = Some p) added.
Proof.
  intros Hmax.
  pose proof (place_classes_fold components w mask num_names min_region_size
                max_labels_per_class [class_id] l) as Hfold.
  cbn [fold_left map concat] in Hfold. rewrite app_nil_r in Hfold.
  destruct (fold_place_sublist w
              (class_candidates components min_region_size
                 max_labels_per_class num_names mask class_id) l)
    as (added & Heq & Hsub).
  exists added. split; [rewrite Hfold; exact Heq|]. split.
  - etrans; [apply sublist_length, Hsub|].
    unfold class_candidates.
    destruct (Z.of_nat num_names <=? class_id)%Z; [cbn; lia|].
    etrans; [apply omap_length_le|].
    unfold component_sizes, slice_to.
    assert ((max_labels_per_class <? 0)%Z = false) as -> by lia.
    rewrite length_take. lia.
  - apply Forall_forall. intros p Hp.
    apply (fun H => elem_of_sublist _ _ _ H Hsub) in Hp.
    apply class_candidates_elem in Hp as (Hlt & c & Hc & Ha & _).
    split; [exact Hlt|]. exists c. auto.
Qed.

Lemma place_classes_groups (w : Z) (mask : list (list Z)) (num_names : nat)
    (min_region_size max_labels_per_class : Z) (classes : list Z) :
  (0 <= max_labels_per_class)%Z ->
  forall l,
  exists per_class : list (list (Z * Z)),
    (forall k,
       fold_left (place_class components w min_region_size
                    max_labels_per_class num_names mask) (take k classes) l
       = l ++ concat (take k per_class)) /\
    Forall2 (fun class_id added =>
               (length added <= Z.to_nat max_labels_per_class)%nat /\
               Forall (fun p => (class_id < Z.of_nat num_names)%Z /\
                         exists c, c ∈ components (class_mask mask class_id) /\
                                   anchor c = Some p) added)
            classes per_class.
Proof.
  intros Hmax. induction classes as [|class_id classes IH]; intros l.
  - exists []. split; [|constructor].
    intros k. rewrite !take_nil. cbn. rewrite app_nil_r. reflexivity.
  - destruct (place_class_adds w mask num_names min_region_size
                max_labels_per_class l class_id Hmax)
      as (added & Hadd & Hlen & Hall).
    destruct (IH (l ++ added)) as (per_class & Hrun & Hgroups).
    exists (added :: per_class). split; [|constructor; auto].
    intros [|k]; cbn [take fold_left concat].
    + rewrite app_nil_r. reflexivity.
    + rewrite Hadd, Hrun, app_assoc. reflexivity.
Qed.

(** X15. The labels are drawn class by class, in ascending order of the
    classes of the mask: after the iterations of the first [k] classes the
    labels are those of the first [k] groups. With a non-negative
    [max_labels_per_class], the group of each class has at most that many
    labels, each the anchor of a component of that class, and a class
    without a name has none. *)
Theorem labels_count_bound (w : Z) (mask : list (list Z))
    (num_names : nat) (min_region_size max_labels_per_class : Z) :
  (0 <= max_labels_per_class)%Z ->
  exists per_class : list (list (Z * Z)),
    add_labels_to_image components w mask num_names min_region_size
      max_labels_per_class = concat per_class /\
    (forall k,
       fold_left (place_class components w min_region_size
                    max_labels_per_class num_names mask)
         (take k (np_unique mask)) []
       = concat (take k per_class)) /\
    Forall2 (fun class_id added =>
               (length added <= Z.to_nat max_labels_per_class)%nat /\
               Forall (fun p => (class_id < Z.of_nat num_names)%Z /\
                         exists c, c ∈ components (class_mask mask class_id) /\
                                   anchor c = Some p) added)
            (np_unique mask) per_class.
Proof.
  intros Hmax.
  destruct (place_classes_groups w mask num_names min_region_size
              max_labels_per_class (np_unique mask) Hmax [])
    as (per_class & Hrun & Hgroups).
  exists per_class. split; [|split; [exact Hrun|exact Hgroups]].
  unfold add_labels_to_image.
  pose proof (Hrun (length (np_unique mask))) as H.
  rewrite firstn_all in H. rewrite H.
  rewrite (Forall2_length _ _ _ Hgroups), firstn_all. reflexivity.
Qed.

End LabelChoiceFacts.

Lemma labels_on_large_named_regions_witness :
  let components := fun _ : list (list bool) =>
    [CCNetInference.mk_component 3 (Some (0, 0)%Z)] in
  let mask := [[0; 0]; [0; 0]]%Z in
  exists class_id c,
    class_id ∈ concat mask /\ (class_id < Z.of_nat 19)%Z /\
    c ∈ components (CCNetInference.class_mask mask class_id) /\
    CCNetInference.anchor c = Some (0, 0)%Z /\ (2 <= CCNetInference.size c)%Z.
Proof.
  intros components mask.
  apply (labels_on_large_named_regions components 1000 mask 19 2 3 (0, 0)%Z).
  vm_compute. apply list_elem_of_here.
Defined.

Lemma labels_count_bound_witness :
  let components := fun _ : list (list bool) =>
    [CCNetInference.mk_component 5 (Some (0, 0)%Z);
     CCNetInference.mk_component 4 (Some (500, 0)%Z);
     CCNetInference.mk_component 3 (Some (900, 0)%Z)] in
  let mask := [[0; 0]; [0; 0]]%Z in
  CCNetInference.add_labels_to_image components 1000 mask 19 2 2
  = [(0, 0)%Z; (500, 0)%Z] /\
  exists per_class : list (list (Z * Z)),
    CCNetInference.add_labels_to_image components 1000 mask 19 2 2
    = concat per_class /\
    (forall k,
       fold_left (CCNetInference.place_class components 1000 2 2 19 mask)
         (take k (CCNetInference.np_unique mask)) []
       = concat (take k per_class)) /\
    Forall2 (fun class_id added =>
               (length added <= Z.to_nat 2)%nat /\
               Forall (fun p => (class_id < Z.of_nat 19)%Z /\
                         exists c,
                           c ∈ components
                                 (CCNetInference.class_mask mask class_id) /\
                           CCNetInference.anchor c = Some p) added)
            (CCNetInference.np_unique mask) per_class.
Proof.
  intros components mask. split; [reflexivity|].
  apply (labels_count_bound components 1000 mask 19 2 2). lia.
Defined.
(** ** The detection runner *)

Section DetectronFacts.

Import Pathlib DetectronInference.

Variable readable : path -> bool.

Lemma detections_for (a : args) (rel : string) :
  absolute (Path rel) = false ->
  parts (Path rel) <> [] ->
  exists rel_path,
    relative_to (div (Path (image_dir a)) rel) (Path (image_dir a)) = Ok rel_path /\
    div (Path (output_dir a))
      (stem rel_path +:+ "_detections." +:+ format_text (format a))
    = detections_path a rel.
Proof.
  intros Hrel Hne. rewrite (div_relative _ rel Hrel).
  unfold relative_to. cbn [absolute parts].
  rewrite Bool.eqb_reflx, strip_prefix_app.
  eexists. split; [reflexivity|].
  change (stem {| absolute := false; parts := parts (Path rel) |})
    with (stem (Path rel)).
  assert (contains "/" (stem (Path rel)) = false) as Hstem.
  { apply stem_of_name_no.
    apply (last_Forall (fun p => contains "/" p = false)); [exact Hne|].
    apply Path_parts_no_slash. }
  unfold div, detections_path.
  rewrite (Path_file (stem (Path rel))
             ("_detections." +:+ format_text (format a)) Hstem).
  - reflexivity.
  - destruct (format a); reflexivity.
  - destruct (format a); apply Nat.leb_le; reflexivity.
Qed.

Lemma detect_loop_skips (a : args) (rels : list string) : forall written,
  Forall (fun rel => absolute (Path rel) = false /\ parts (Path rel) <> []) rels ->
  run_loop readable a (map (div (Path (image_dir a))) rels) written
  = (written
     ++ map (detections_path a)
          (filter (fun rel => readable (div (Path (image_dir a)) rel) = true) rels),
     None).
Proof.
  induction rels as [|rel rels IH]; intros written Hrels.
  - cbn. rewrite app_nil_r. reflexivity.
  - inversion Hrels as [|? ? [Habs Hne] Hrels']; subst.
    cbn [map run_loop]. rewrite filter_cons.
    destruct (readable (div (Path (image_dir a)) rel)) eqn:Hr; cbn [negb].
    + destruct (detections_for a rel Habs Hne) as (rel_path & -> & ->).
      rewrite (IH _ Hrels'), decide_True by reflexivity.
      cbn [map]. rewrite <- app_assoc. reflexivity.
    + rewrite (IH _ Hrels'), decide_False by discriminate. reflexivity.
Qed.

(** X16. The detection run does not stop at an image that fails to
    decode: of the images found below the image root, exactly those that
    decode get a file, in the order of the images, and the run ends
    normally. The file of an image is [<stem>_detections.<format>]
    directly in the output directory, so images with the same stem share
    one file whatever their subdirectories and extensions. *)
Theorem detections_skip_unreadable (a : args) (rels : list string) :
  rels <> [] ->
  Forall (fun rel => absolute (Path rel) = false /\ parts (Path rel) <> []) rels ->
  run_inference readable a true (map (div (Path (image_dir a))) rels) true
  = (map (detections_path a)
       (filter (fun rel => readable (div (Path (image_dir a)) rel) = true) rels),
     None) /\
  Forall (fun rel => parent (detections_path a rel) = Path (output_dir a)) rels.
Proof.
  intros Hne Hrels. split.
  - unfold run_inference. cbn [negb].
    destruct rels as [|rel rels]; [congruence|].
    change (map (div (Path (image_dir a))) (rel :: rels))
      with (div (Path (image_dir a)) rel :: map (div (Path (image_dir a))) rels).
    cbv iota.
    change (div (Path (image_dir a)) rel :: map (div (Path (image_dir a))) rels)
      with (map (div (Path (image_dir a))) (rel :: rels)).
    apply (detect_loop_skips a (rel :: rels) [] Hrels).
  - apply Forall_forall. intros rel _. unfold detections_path, parent.
    cbn [absolute parts]. rewrite removelast_last.
    destruct (Path (output_dir a)); reflexivity.
Qed.

End DetectronFacts.

Lemma detections_skip_unreadable_witness :
  let a := DetectronInference.mk_args "in" "out" DetectronInference.png in
  let readable := fun p : Pathlib.path =>
    negb (bool_decide (p = Pathlib.Path "in/b/x.jpg")) in
  let rels := ["a/x.png"; "b/x.jpg"; "c.tif"] in
  DetectronInference.run_inference readable a true
    (map (Pathlib.div (Pathlib.Path (DetectronInference.image_dir a))) rels) true
  = (map (DetectronInference.detections_path a)
       (filter (fun rel => readable (Pathlib.div
                  (Pathlib.Path (DetectronInference.image_dir a)) rel) = true) rels),
     None) /\
  Forall (fun rel => Pathlib.parent (DetectronInference.detections_path a rel)
                     = Pathlib.Path (DetectronInference.output_dir a)) rels.
Proof.
  intros a readable rels.
  apply (detections_skip_unreadable readable a rels).
  - discriminate.
  - repeat constructor; discriminate.
Defined.
(** ** [get_dataset_info] after a registration *)

Section DatasetInfoFacts.

Import Pathlib RegisterDataset DatasetInfo.

Variable imread : string -> option (nat * nat).
Variable load_coco_json :
  string -> string -> string -> catalogs -> result (list record * catalogs).

(** What a successful registration leaves in the catalogs under its
    name. *)
Lemma register_image_folder_catalogs (cat cat' : catalogs) (name : string)
    (dir_exists : bool) (found : list (path * bool))
    (classes : option (list string)) :
  register_image_folder_dataset cat name dir_exists found classes = Ok cat' ->
  datasets cat !! name = None /\
  datasets cat' !! name = Some (GetImageDicts (find_images found)) /\
  find_images found <> [] /\
  thing_classes_of cat' !! name
  = Some (match classes with
          | Some (c :: cs) => c :: cs
          | _ => coco_classes
          end).
Proof.
  unfold register_image_folder_dataset.
  destruct dir_exists; cbn [negb]; [|discriminate].
  destruct (find_images found) as [|f fs] eqn:Hfiles; [discriminate|].
  unfold catalog_register, assert.
  destruct (bool_decide (datasets cat !! name = None)) eqn:Hfree;
    cbn [mbind result_bind]; [|destruct classes as [[|]|]; discriminate].
  apply bool_decide_eq_true_1 in Hfree.
  set (wanted := match classes with
                 | Some (c :: cs) => c :: cs
                 | _ => coco_classes
                 end).
  set (cat1 := mk_catalogs _ _).
  assert (set_thing_classes cat1 name wanted = Ok cat' ->
          datasets cat' !! name = Some (GetImageDicts (f :: fs)) /\
          thing_classes_of cat' !! name = Some wanted) as Hset.
  { unfold set_thing_classes.
    destruct (thing_classes_of cat1 !! name) as [old|] eqn:Hold.
    - unfold assert. destruct (bool_decide (old = wanted)) eqn:Hsame;
        cbn [mbind result_bind]; [|discriminate].
      apply bool_decide_eq_true_1 in Hsame. intros [= <-].
      split; [apply lookup_insert_eq|]. rewrite Hold, Hsame. reflexivity.
    - intros [= <-]. cbn [datasets thing_classes_of].
      split; apply lookup_insert_eq. }
  intros H.
  assert (set_thing_classes cat1 name wanted = Ok cat') as H'
    by (destruct classes as [[|c cs]|]; exact H).
  destruct (Hset H') as [Hd Ht].
  repeat split; [exact Hfree|exact Hd|discriminate|exact Ht].
Qed.

(** X17. After [register_image_folder_dataset] has returned,
    [get_dataset_info] of the name succeeds: its [num_images] counts the
    registered files that [cv2.imread] decodes when the information is
    asked for (not the files found at registration), and its classes are
    those given, or the 80 COCO classes when none or an empty list was
    given. *)
Theorem info_after_registration (cat cat' : catalogs) (name : string)
    (dir_exists : bool) (found : list (path * bool))
    (classes : option (list string)) :
  register_image_folder_dataset cat name dir_exists found classes = Ok cat' ->
  let wanted := match classes with
                | Some (c :: cs) => c :: cs
                | _ => coco_classes
                end in
  get_dataset_info imread load_coco_json cat' name
  = Ok (mk_info
          (length (filter (fun f => is_Some (imread f)) (find_images found)))
          (Some wanted) (length wanted)) /\
  length coco_classes = 80%nat.
Proof.
  intros Hreg wanted.
  destruct (register_image_folder_catalogs _ _ _ _ _ _ Hreg)
    as (_ & Hd & _ & Ht).
  split; [|reflexivity].
  unfold get_dataset_info.
  rewrite bool_decide_eq_true_2 by (apply elem_of_dom; rewrite Hd; eauto).
  cbn [negb]. unfold catalog_get. rewrite Hd. cbn [mbind result_bind fst snd].
  fold wanted in Ht. rewrite Ht. do 2 f_equal.
  unfold get_image_dicts. clear Hd Hreg.
  induction (find_images found) as [|f fs IH]; [reflexivity|].
  cbn [omap list_omap]. rewrite filter_cons.
  destruct (imread f) as [hw|]; cbn [mbind option_bind].
  - rewrite decide_True by eauto. cbn [length]. rewrite IH. reflexivity.
  - rewrite decide_False by (intros [? ?]; discriminate). exact IH.
Qed.

(** X18. A name can be registered once: after a registration under a
    name, a second registration of an image folder under the same name
    raises, [AssertionError] from Detectron2 when the folder exists and
    holds images, and [ValueError] before that when it does not. *)
Theorem register_twice_raises (cat cat' : catalogs) (name : string)
    (dir_exists dir_exists' : bool) (found found' : list (path * bool))
    (classes classes' : option (list string)) :
  register_image_folder_dataset cat name dir_exists found classes = Ok cat' ->
  register_image_folder_dataset cat' name dir_exists' found' classes'
  = Raise (if dir_exists' && negb (bool_decide (find_images found' = []))
           then AssertionError else ValueError).
Proof.
  intros Hreg.
  destruct (register_image_folder_catalogs _ _ _ _ _ _ Hreg)
    as (_ & Hd & _ & _).
  unfold register_image_folder_dataset.
  destruct dir_exists'; cbn [negb andb]; [|reflexivity].
  destruct (find_images found') as [|f fs]; [reflexivity|].
  rewrite bool_decide_eq_false_2 by discriminate. cbn [negb].
  unfold catalog_register, assert.
  rewrite bool_decide_eq_false_2 by (rewrite Hd; discriminate).
  reflexivity.
Qed.

End DatasetInfoFacts.

Lemma info_after_registration_witness :
  let imread := fun f : string =>
    if String.eqb f "d/a.jpg" then Some (4, 6)%nat else None in
  let found := [(Pathlib.Path "d/a.jpg", true); (Pathlib.Path "d/b.png", true)] in
  DatasetInfo.get_dataset_info imread (fun _ _ _ cat => Ok ([], cat))
    (RegisterDataset.mk_catalogs
       {[ "n" := RegisterDataset.GetImageDicts (RegisterDataset.find_images found) ]}
       {[ "n" := RegisterDataset.coco_classes ]}) "n"
  = Ok (DatasetInfo.mk_info
          (length (filter (fun f => is_Some (imread f))
                     (RegisterDataset.find_images found)))
          (Some RegisterDataset.coco_classes)
          (length RegisterDataset.coco_classes)) /\
  length RegisterDataset.coco_classes = 80%nat.
Proof.
  intros imread found.
  apply (info_after_registration imread (fun _ _ _ cat => Ok ([], cat))
           (RegisterDataset.mk_catalogs ∅ ∅) _ "n" true found None).
  reflexivity.
Defined.

Lemma register_twice_raises_witness :
  let found := [(Pathlib.Path "d/a.jpg", true)] in
  RegisterDataset.register_image_folder_dataset
    (RegisterDataset.mk_catalogs
       {[ "n" := RegisterDataset.GetImageDicts (RegisterDataset.find_images found) ]}
       {[ "n" := RegisterDataset.coco_classes ]}) "n" true found None
  = Raise (if true && negb (bool_decide (RegisterDataset.find_images found = []))
           then AssertionError else ValueError).
Proof.
  intros found.
  apply (register_twice_raises (RegisterDataset.mk_catalogs ∅ ∅) _ "n"
           true true found found None None).
  reflexivity.
Defined.
(** ** Training configuration *)

Section TrainCustomFacts.

Import RegisterDataset TrainCustom.

(** X20. Giving [--val-json] without [--val-images] stops the script
    before training: the validation set is not registered, and
    [setup_config] then reads the attribute [val_dataset_name], which
    [main] has not set. *)
Theorem val_json_without_val_images (cat cat' : catalogs) (a : args) :
  register_custom_coco_dataset cat "custom_train" (train_json a)
    (train_images a) (thing_classes a) = Ok cat' ->
  truthy (val_json a) = true -> truthy (val_images a) = false ->
  main cat a = Failed AttributeError.
Proof.
  intros Hreg Hjson Himages. unfold main.
  rewrite Hreg, Hjson, Himages. cbn [lift andb].
  assert (setup_config (mk_namespace a (Some "custom_train") None)
          = Failed AttributeError) as Hsetup.
  { unfold setup_config. cbn [parsed train_dataset_name val_dataset_name].
    rewrite Hjson. reflexivity. }
  destruct (val_json a), (val_images a); rewrite Hsetup; reflexivity.
Qed.

Lemma int_of_float_scaled (n num den : Z) :
  (0 <= n)%Z -> (0 <= num)%Z -> (0 < den)%Z ->
  Sample.int_of_float (inject_Z n * (num # Z.to_pos den)) = (n * num / den)%Z.
Proof.
  intros Hn Hnum Hden. rewrite int_of_float_floor.
  - unfold Qfloor, Qmult, inject_Z. cbn [Qnum Qden].
    rewrite Pos.mul_1_l, Z2Pos.id by exact Hden. reflexivity.
  - unfold Qle, Qmult, inject_Z. cbn [Qnum Qden]. nia.
Qed.

(** The configuration [setup_config] builds from a namespace. *)
Lemma setup_config_steps (ns : namespace) (c : cfg) :
  setup_config ns = Done c ->
  (0 <= max_iter (parsed ns))%Z ->
  (exists train_name, train_dataset_name ns = Some train_name /\
                      DATASETS_TRAIN c = [train_name]) /\
  DATASETS_TEST c
  = (if truthy (val_json (parsed ns))
     then (fun n => [n]) <$> val_dataset_name ns else None) /\
  MAX_ITER c = max_iter (parsed ns) /\
  (0 <= fst (STEPS c) <= snd (STEPS c))%Z /\
  (snd (STEPS c) <= max_iter (parsed ns))%Z /\
  ((5 <=? max_iter (parsed ns))%Z = true ->
   (fst (STEPS c) < snd (STEPS c) < max_iter (parsed ns))%Z).
Proof.
  intros Hsetup Hiter. unfold setup_config in Hsetup.
  destruct (train_dataset_name ns) as [train_name|]; [|discriminate].
  assert (forall test,
            Done (mk_cfg [train_name] test (num_classes (parsed ns))
                    (if truthy (weights (parsed ns)) then weights (parsed ns)
                     else None)
                    (max_iter (parsed ns))
                    (Sample.int_of_float (inject_Z (max_iter (parsed ns)) * (6 # 10)),
                     Sample.int_of_float (inject_Z (max_iter (parsed ns)) * (8 # 10)))
                    (output_dir (parsed ns))) = Done c ->
            (exists n, Some train_name = Some n /\ DATASETS_TRAIN c = [n]) /\
            DATASETS_TEST c = test /\
            MAX_ITER c = max_iter (parsed ns) /\
            (0 <= fst (STEPS c) <= snd (STEPS c))%Z /\
            (snd (STEPS c) <= max_iter (parsed ns))%Z /\
            ((5 <=? max_iter (parsed ns))%Z = true ->
             (fst (STEPS c) < snd (STEPS c) < max_iter (parsed ns))%Z)) as Hcfg.
  { intros test [= <-].
    cbn [DATASETS_TRAIN DATASETS_TEST MAX_ITER STEPS fst snd].
    change (6 # 10) with (6 # Z.to_pos 10). change (8 # 10) with (8 # Z.to_pos 10).
    rewrite !int_of_float_scaled by lia.
    pose proof (Z.div_mod (max_iter (parsed ns) * 6) 10 ltac:(lia)) as H6.
    pose proof (Z.mod_pos_bound (max_iter (parsed ns) * 6) 10 ltac:(lia)) as H6'.
    pose proof (Z.div_mod (max_iter (parsed ns) * 8) 10 ltac:(lia)) as H8.
    pose proof (Z.mod_pos_bound (max_iter (parsed ns) * 8) 10 ltac:(lia)) as H8'.
    split; [eauto|]. repeat split; try lia. }
  destruct (truthy (val_json (parsed ns))).
  - destruct (val_dataset_name ns) as [val_name|]; [|discriminate].
    apply Hcfg, Hsetup.
  - apply Hcfg, Hsetup.
Qed.

(** X21. When [main] reaches the trainer, the configuration names the
    training set [custom_train]; it names the validation set [custom_val]
    exactly when both [--val-json] and [--val-images] were given; and, for
    a non-negative [--max-iter], the two steps of the learning rate are in
    order and not after the last iteration, and are different and before
    the last iteration once [--max-iter] is at least 5. *)
Theorem main_configuration (cat cat' : catalogs) (a : args) (c : cfg) :
  main cat a = Done (cat', c) ->
  (0 <= max_iter a)%Z ->
  DATASETS_TRAIN c = ["custom_train"] /\
  DATASETS_TEST c
  = (if truthy (val_json a) && truthy (val_images a)
     then Some ["custom_val"] else None) /\
  MAX_ITER c = max_iter a /\
  (0 <= fst (STEPS c) <= snd (STEPS c))%Z /\
  (snd (STEPS c) <= max_iter a)%Z /\
  ((5 <=? max_iter a)%Z = true ->
   (fst (STEPS c) < snd (STEPS c) < max_iter a)%Z).
Proof.
  intros Hmain Hiter. unfold main in Hmain.
  destruct (register_custom_coco_dataset cat "custom_train" _ _ _) as [cat1|e];
    cbn [lift] in Hmain; [|discriminate].
  assert (exists ns,
            setup_config ns = Done c /\ parsed ns = a /\
            train_dataset_name ns = Some "custom_train" /\
            (if truthy (val_json a)
             then (fun n => [n]) <$> val_dataset_name ns else None)
            = (if truthy (val_json a) && truthy (val_images a)
               then Some ["custom_val"] else None)) as (ns & Hsetup & Hp & Ht & Hv).
  { destruct (val_json a) as [json_file|] eqn:Ejson,
             (val_images a) as [image_root|] eqn:Eimages.
    - destruct (truthy (Some json_file)) eqn:Hjson,
               (truthy (Some image_root)) eqn:Himages; cbn [andb] in Hmain |- *.
      + destruct (register_custom_coco_dataset cat1 "custom_val" _ _ _)
          as [cat2|e]; cbn [lift] in Hmain; [|discriminate].
        destruct (setup_config _) as [c'|e] eqn:Hs; [|discriminate].
        injection Hmain as _ <-. eexists. split; [exact Hs|]. auto.
      + destruct (setup_config _) as [c'|e] eqn:Hs; [|discriminate].
        injection Hmain as _ <-. eexists. split; [exact Hs|].
        auto.
      + destruct (setup_config _) as [c'|e] eqn:Hs; [|discriminate].
        injection Hmain as _ <-. eexists. split; [exact Hs|]. auto.
      + destruct (setup_config _) as [c'|e] eqn:Hs; [|discriminate].
        injection Hmain as _ <-. eexists. split; [exact Hs|]. auto.
    - destruct (setup_config _) as [c'|e] eqn:Hs; [|discriminate].
      injection Hmain as _ <-. eexists. split; [exact Hs|].
      cbn [truthy andb]. rewrite andb_false_r.
      repeat split. destruct (negb _); reflexivity.
    - destruct (setup_config _) as [c'|e] eqn:Hs; [|discriminate].
      injection Hmain as _ <-. eexists. split; [exact Hs|]. auto.
    - destruct (setup_config _) as [c'|e] eqn:Hs; [|discriminate].
      injection Hmain as _ <-. eexists. split; [exact Hs|]. auto. }
  subst a.
  destruct (setup_config_steps ns c Hsetup Hiter)
    as ((n & Hn & Htrain) & Htest & Hrest).
  rewrite Ht in Hn. injection Hn as <-.
  split; [exact Htrain|]. split; [|exact Hrest].
  rewrite Htest. exact Hv.
Qed.

End TrainCustomFacts.

Lemma val_json_without_val_images_witness :
  TrainCustom.main (RegisterDataset.mk_catalogs ∅ ∅)
    (TrainCustom.mk_args "train.json" "train" (Some "val.json") None "./output"
       3 None None 1000)
  = TrainCustom.Failed TrainCustom.AttributeError.
Proof.
  eapply (val_json_without_val_images (RegisterDataset.mk_catalogs ∅ ∅));
    reflexivity.
Defined.

Lemma main_configuration_witness :
  let a := TrainCustom.mk_args "train.json" "train" (Some "val.json")
             (Some "val") "./output" 3 None None 1000 in
  let c := TrainCustom.mk_cfg ["custom_train"] (Some ["custom_val"]) 3 None
             1000 (600, 800)%Z "./output" in
  TrainCustom.DATASETS_TRAIN c = ["custom_train"] /\
  TrainCustom.DATASETS_TEST c
  = (if TrainCustom.truthy (TrainCustom.val_json a)
        && TrainCustom.truthy (TrainCustom.val_images a)
     then Some ["custom_val"] else None) /\
  TrainCustom.MAX_ITER c = TrainCustom.max_iter a /\
  (0 <= fst (TrainCustom.STEPS c) <= snd (TrainCustom.STEPS c))%Z /\
  (snd (TrainCustom.STEPS c) <= TrainCustom.max_iter a)%Z /\
  ((5 <=? TrainCustom.max_iter a)%Z = true ->
   (fst (TrainCustom.STEPS c) < snd (TrainCustom.STEPS c)
    < TrainCustom.max_iter a)%Z).
Proof.
  intros a c.
  eapply (main_configuration (RegisterDataset.mk_catalogs ∅ ∅) _ a c).
  - reflexivity.
  - cbn. lia.
Defined.
(** ** Device ranges with more than one dash *)

Section ParseDeviceTail.

Import PytUtils.

(** X22. Of an element with more than one dash, only what stands before
    the second dash is read: ['a-b-rest'] gives the devices of ['a-b'], or
    fails as it does, whatever [rest] is. *)
Theorem parse_device_ignores_tail (device_count : Z) (a b rest : string) :
  contains "-" a = false -> contains "-" b = false ->
  parse_device device_count (a +:+ "-" +:+ b +:+ "-" +:+ rest)
  = parse_device device_count (a +:+ "-" +:+ b).
Proof.
  intros Ha Hb. unfold parse_device.
  assert (forall s, contains "-" (a +:+ "-" +:+ s) = true) as Hdash.
  { intros s. rewrite contains_app. change ("-" +:+ s) with (String "-" s).
    cbn [contains]. rewrite Ascii.eqb_refl. apply orb_true_r. }
  rewrite !Hdash.
  change (a +:+ "-" +:+ b +:+ "-" +:+ rest)
    with (a +:+ String "-" (b +:+ String "-" rest)).
  change (a +:+ "-" +:+ b) with (a +:+ String "-" b).
  rewrite !(split_app_sep "-" a _ Ha), (split_app_sep "-" b rest Hb),
    (split_no_sep "-" b Hb).
  reflexivity.
Qed.

End ParseDeviceTail.

Lemma parse_device_ignores_tail_witness :
  PytUtils.parse_device 4 ("1" +:+ "-" +:+ "3" +:+ "-" +:+ "x,y")
  = PytUtils.parse_device 4 ("1" +:+ "-" +:+ "3").
Proof. apply (parse_device_ignores_tail 4 "1" "3" "x,y"); reflexivity. Defined.
(** ** The progress bar of download_model.py *)

Section ProgressBarFacts.

Import DownloadModel.

Lemma str_repeat_length (c : ascii) (n : Z) :
  String.length (str_repeat c n) = Z.to_nat n.
Proof.
  unfold str_repeat. induction (Z.to_nat n) as [|k IH]; [reflexivity|].
  cbn [repeat string_of_list_ascii String.length]. rewrite IH. reflexivity.
Qed.

(** X23. While a download of known positive size reports progress (the
    size, and 40 times the bytes counted, below [2 ^ 53]), the percentage
    printed is at most 100, but the bar is only as long as intended, 40
    characters, until the bytes counted reach 41/40 of the size: after that
    it has one character for each fortieth counted. A size of 0 makes the
    hook raise [ZeroDivisionError]. *)
Theorem progress_bar_length (block_num block_size total_size : Z) :
  (0 <= block_num * block_size)%Z -> (0 <= total_size)%Z ->
  (40 * (block_num * block_size) < 2 ^ 53)%Z -> (total_size < 2 ^ 53)%Z ->
  match show_progress block_num block_size total_size with
  | Ok (bar, percent) =>
      (0 < total_size)%Z /\ (percent <= 100)%Q /\
      String.length bar
      = Z.to_nat (Z.max 40 (40 * (block_num * block_size) / total_size))
  | Raise e => total_size = 0%Z /\ e = ZeroDivisionError
  end.
Proof.
  intros Hdown Htotal Hbytes Hsize. unfold show_progress.
  destruct (Z.eqb_spec total_size 0) as [->|Hne]; [auto|].
  split; [lia|]. split; [apply Q.le_min_r|].
  rewrite append_length, !str_repeat_length.
  destruct (floor_true_div (40 * (block_num * block_size)) total_size
              ltac:(lia) ltac:(lia)) as [Hpos Hfloor].
  rewrite (int_of_float_floor _ Hpos), Hfloor.
  pose proof (Z.div_pos (40 * (block_num * block_size)) total_size
                ltac:(lia) ltac:(lia)).
  lia.
Qed.

End ProgressBarFacts.

Lemma progress_bar_length_witness :
  match DownloadModel.show_progress 3 8192 20000 with
  | Ok (bar, percent) =>
      (0 < 20000)%Z /\ (percent <= 100)%Q /\
      String.length bar = Z.to_nat (Z.max 40 (40 * (3 * 8192) / 20000))
  | Raise e => 20000%Z = 0%Z /\ e = ZeroDivisionError
  end.
Proof. apply (progress_bar_length 3 8192 20000); lia. Defined.
(** ** The shape of the fused channel *)

Section FusionShapeFacts.

Import DefogPipeline.

Lemma fuse_row_shape fw r : forall r',
  length r = length r' ->
  exists row, fuse_row fw r r' = Ok row /\ length row = length r.
Proof.
  induction r as [|c r IH]; intros [|d r'] Hlen; cbn [length] in Hlen;
    try discriminate.
  - exists []. split; reflexivity.
  - destruct (IH r') as (row & Hrow & Hl); [lia|].
    cbn [fuse_row]. rewrite Hrow. cbn [mbind result_bind].
    eexists. split; [reflexivity|]. cbn [length]. rewrite Hl. reflexivity.
Qed.

Lemma fuse_shape fw a : forall b,
  map length a = map length b ->
  exists fused, fuse fw a b = Ok fused /\ map length fused = map length a.
Proof.
  induction a as [|r a IH]; intros [|r' b] Hshape; cbn [map] in Hshape;
    try discriminate.
  - exists []. split; reflexivity.
  - injection Hshape as Hr Hshape.
    destruct (fuse_row_shape fw r r' Hr) as (row & Hrow & Hl).
    destruct (IH b Hshape) as (rest & Hrest & Hls).
    cbn [fuse]. rewrite Hrow. cbn [mbind result_bind]. rewrite Hrest.
    cbn [mbind result_bind]. eexists. split; [reflexivity|].
    cbn [map]. rewrite Hl, Hls. reflexivity.
Qed.

(** Cropping an array that is at least as large as a rectangular [v]
    gives the shape of [v]. *)
Lemma crop_to_shape (v a : channel) :
  Forall (fun r => length r = length (hd [] v)) v ->
  (length v <= length a)%nat ->
  Forall (fun r => (length (hd [] v) <= length r)%nat) (take (length v) a) ->
  map length (crop_to v a) = map length v.
Proof.
  unfold crop_to. set (w := length (hd [] v)). clearbody w.
  revert a. induction v as [|r v IH]; intros a Hrect Hrows Hcols.
  - reflexivity.
  - destruct a as [|r' a]; cbn [length] in Hrows; [lia|].
    cbn [take map length firstn] in *.
    apply Forall_cons in Hrect as [Hr Hrect].
    apply Forall_cons in Hcols as [Hr' Hcols].
    rewrite length_take, Hr. f_equal; [lia|].
    apply IH; [exact Hrect|lia|exact Hcols].
Qed.

Context {image : Type}.
Variable dcp_dehaze : image -> image.
Variable to_hsv : image -> channel * channel * channel.
Variable from_hsv : channel * channel * channel -> image.
Variable clahe : channel -> channel.
Variable dwt : channel -> channel.

(** X24. When CLAHE keeps the shape of the value channel and the wavelet
    branch returns at least its rows and columns (the inverse transform
    pads odd sizes), the fusion is defined for every weight, also outside
    0..1, and the fused channel has the shape of the value channel. *)
Theorem fused_channel_shape (fusion_weight : Q) (img : image) :
  let v := value_channel dcp_dehaze to_hsv img in
  map length (clahe v) = map length v ->
  Forall (fun r => length r = length (hd [] v)) v ->
  (length v <= length (dwt v))%nat ->
  Forall (fun r => (length (hd [] v) <= length r)%nat) (take (length v) (dwt v)) ->
  exists fused,
    v_fused dcp_dehaze to_hsv clahe dwt fusion_weight img = Ok fused /\
    map length fused = map length v /\
    dehaze dcp_dehaze to_hsv from_hsv clahe dwt fusion_weight img
    = Ok (from_hsv (fst (to_hsv (dcp_dehaze img)), fused)).
Proof.
  intros v Hclahe Hrect Hrows Hcols.
  pose proof (crop_to_shape v (dwt v) Hrect Hrows Hcols) as Hcrop.
  destruct (fuse_shape fusion_weight (clahe v) (crop_to v (dwt v)))
    as (fused & Hfused & Hshape); [congruence|].
  exists fused. split; [exact Hfused|]. split; [congruence|].
  unfold dehaze. fold v in Hfused.
  destruct (to_hsv (dcp_dehaze img)) as [[h s] v'] eqn:Hhsv.
  unfold v_fused, v_clahe, v_dwt in *. fold v. rewrite Hfused. reflexivity.
Qed.

End FusionShapeFacts.

Lemma fused_channel_shape_witness :
  let v : DefogPipeline.channel := [[Byte.x10; Byte.x20; Byte.x30]] in
  let dwt := fun _ : DefogPipeline.channel =>
    [[Byte.x11; Byte.x21; Byte.x31; Byte.x00];
     [Byte.x00; Byte.x00; Byte.x00; Byte.x00]] in
  let to_hsv := fun i : DefogPipeline.channel =>
    (([] : DefogPipeline.channel), ([] : DefogPipeline.channel), i) in
  let from_hsv := fun hsv : DefogPipeline.channel * DefogPipeline.channel
                            * DefogPipeline.channel => snd hsv in
  exists fused,
    DefogPipeline.v_fused (fun i => i) to_hsv (fun x => x) dwt (1 # 2) v
    = Ok fused /\
    map length fused = map length v /\
    DefogPipeline.dehaze (fun i => i) to_hsv from_hsv (fun x => x) dwt (1 # 2) v
    = Ok (from_hsv (fst (to_hsv v), fused)).
Proof.
  intros v dwt to_hsv from_hsv.
  apply (fused_channel_shape (fun i => i) to_hsv from_hsv (fun x => x) dwt
           (1 # 2) v).
  - reflexivity.
  - repeat constructor.
  - cbn. lia.
  - repeat constructor.
Defined.
(** ** The order of the registered files *)

Section FindImagesOrder.

Import Pathlib RegisterDataset.

Lemma ltb_le (x y : string) : String.ltb x y = true -> String.le x y.
Proof.
  unfold String.le, String.ltb, String.leb.
  destruct (String.compare x y); intros H; try discriminate H; exact I.
Qed.

Lemma not_ltb_le (x y : string) : String.ltb x y = false -> String.le y x.
Proof.
  unfold String.le, String.ltb, String.leb.
  rewrite (String.compare_antisym x y).
  destruct (String.compare y x); cbn; intros H; try discriminate H; exact I.
Qed.

Lemma insert_str_Sorted (x : string) (l : list string) :
  Sorted String.le l -> Sorted String.le (insert_str x l).
Proof.
  induction 1 as [|y l Hl IH Hy]; cbn [insert_str].
  - repeat constructor.
  - destruct (String.ltb x y) eqn:Hxy.
    + constructor; [constructor; assumption|]. constructor. apply ltb_le, Hxy.
    + constructor; [exact IH|].
      destruct l as [|z l]; cbn [insert_str].
      * constructor. apply not_ltb_le, Hxy.
      * destruct (String.ltb x z); constructor;
          [apply not_ltb_le, Hxy|inversion Hy; assumption].
Qed.

Lemma sorted_Sorted (l : list string) : Sorted String.le (sorted l).
Proof.
  unfold sorted.
  assert (forall acc, Sorted String.le acc ->
            Sorted String.le (fold_left (fun acc x => insert_str x acc) l acc))
    as H.
  { induction l as [|x l IH]; intros acc Hacc; [exact Hacc|].
    apply IH, insert_str_Sorted, Hacc. }
  apply H. constructor.
Qed.

(** X25. The files of a registered folder are in ascending order of their
    paths as text, and this list depends on what the directory walk finds
    only, not on the order in which it finds it. *)
Theorem find_images_order (found : list (path * bool)) :
  Sorted String.le (find_images found) /\
  forall found', found' ≡ₚ found -> find_images found' = find_images found.
Proof.
  split; [apply sorted_Sorted|].
  intros found' Hperm. unfold find_images.
  apply (Sorted_unique String.le); try apply sorted_Sorted.
  rewrite !sorted_perm. apply fmap_Permutation, filter_Permutation, Hperm.
Qed.

End FindImagesOrder.
(** ** The class names of a detection run *)

Section DetectronMetadataFacts.

Import Pathlib RegisterDataset DatasetInfo DetectronMetadata.

Variable imread : string -> option (nat * nat).
Variable load_coco_json :
  string -> string -> string -> catalogs -> result (list record * catalogs).

(** X26. The class names a detection run draws do not depend on what
    [--dataset] says, only the name of the registration does: when the
    images were found and the name [custom_inference_<dataset>] is new to
    the catalogs, the run registers the folder under it and uses the 80
    COCO class names. *)
Theorem run_metadata_fresh (cat : catalogs) (dataset : string)
    (found : list (path * bool)) :
  find_images found <> [] ->
  datasets cat !! ("custom_inference_" +:+ dataset) = None ->
  thing_classes_of cat !! ("custom_inference_" +:+ dataset) = None ->
  run_metadata imread load_coco_json cat dataset true found
  = Ok ("custom_inference_" +:+ dataset, Some coco_classes).
Proof.
  intros Hfound Hfree Hmeta. unfold run_metadata.
  set (dataset_name := "custom_inference_" +:+ dataset) in *.
  destruct (register_image_folder_dataset cat dataset_name true found None)
    as [cat'|e] eqn:Hreg.
  - destruct (register_image_folder_catalogs _ _ _ _ _ _ Hreg)
      as (_ & Hd & _ & Ht).
    cbn [mbind result_bind].
    unfold get_dataset_info, catalog_get.
    rewrite bool_decide_eq_true_2 by (apply elem_of_dom; rewrite Hd; eauto).
    rewrite Hd. cbn [negb mbind result_bind]. rewrite Ht. reflexivity.
  - exfalso. unfold register_image_folder_dataset in Hreg. cbn [negb] in Hreg.
    destruct (find_images found) as [|f fs]; [congruence|].
    unfold catalog_register, assert in Hreg.
    rewrite bool_decide_eq_true_2 in Hreg by exact Hfree.
    cbn [mbind result_bind] in Hreg.
    unfold set_thing_classes in Hreg. cbn [thing_classes_of] in Hreg.
    rewrite Hmeta in Hreg. discriminate.
Qed.

End DetectronMetadataFacts.

Lemma run_metadata_fresh_witness :
  DetectronMetadata.run_metadata (fun _ => None) (fun _ _ _ cat => Ok ([], cat))
    (RegisterDataset.mk_catalogs ∅ ∅) "cityscapes" true
    [(Pathlib.Path "d/a.jpg", true)]
  = Ok ("custom_inference_" +:+ "cityscapes", Some RegisterDataset.coco_classes).
Proof.
  apply (run_metadata_fresh (fun _ => None) (fun _ _ _ cat => Ok ([], cat))
           (RegisterDataset.mk_catalogs ∅ ∅) "cityscapes"
           [(Pathlib.Path "d/a.jpg", true)]).
  - discriminate.
  - reflexivity.
  - reflexivity.
Defined.
